(** * freud: Steinhardt order parameters and the PMFTXYTM2D histogram

    A shallow embedding of [cpp/order/Steinhardt.h] and
    [cpp/pmft/PMFTXYTM2D.cc].  C++ [float] and [double] values are the
    IEEE-754 binary32 and binary64 values of the Standard Library's
    [SpecFloat]; [unsigned int] values are integers reduced modulo 2^32;
    [std::shared_ptr] handles are optional locations into a store. *)

From Stdlib Require Import ZArith Lia Bool String List.
From Stdlib Require Import Reals Lra.
From Stdlib Require Import Floats.SpecFloat.
From stdpp Require Import base option list gmap.

Local Open Scope Z_scope.

(** ** C++ outcomes *)

(** The only exception the two translation units raise. *)
Inductive exn : Type :=
| invalid_argument (what : string).

(** Result of running a constructor or a method; [Undefined] is an access
    outside an allocation, [Aborted] the [abort] of a failed [assert]. *)
Inductive outcome (A : Type) : Type :=
| Returned (a : A)
| Threw (e : exn)
| Undefined
| Aborted.
Arguments Returned {A} a.
Arguments Threw {A} e.
Arguments Undefined {A}.
Arguments Aborted {A}.

Definition throws {A : Type} (o : outcome A) : bool :=
  match o with
  | Threw _ => true
  | _ => false
  end.

(** [unsigned int] arithmetic wraps modulo 2^32, [size_t] arithmetic (LP64)
    modulo 2^64. *)
Definition wrap32 (n : Z) : Z := n mod 2 ^ 32.
Definition wrap64 (n : Z) : Z := n mod 2 ^ 64.

(** ** Floating point *)

Module Float64.
Definition prec : Z := 53.
Definition emax : Z := 1024.

Definition mul : spec_float -> spec_float -> spec_float := SFmul prec emax.
Definition div : spec_float -> spec_float -> spec_float := SFdiv prec emax.
Definition add : spec_float -> spec_float -> spec_float := SFadd prec emax.
Definition ltb : spec_float -> spec_float -> bool := SFltb.

(** Rounding of an arbitrary finite value to binary64; used for the
    (exact) promotion of a [float] operand to [double]. *)
Definition round (x : spec_float) : spec_float :=
  match x with
  | S754_finite s m e => binary_normalize prec emax (cond_Zopp s (Zpos m)) e s
  | _ => x
  end.

(** The literal [2.0]. *)
Definition two : spec_float := S754_finite false 4503599627370496 (-51).
(** The literal [1e-6]. *)
Definition micro : spec_float := S754_finite false 4722366482869645 (-72).
End Float64.

Module Float32.
Definition prec : Z := 24.
Definition emax : Z := 128.

Definition float : Type := spec_float.

(** The values a C++ [float] can hold. *)
Definition valid (x : float) : bool := valid_binary prec emax x.

Definition is_finite (x : float) : bool :=
  match x with
  | S754_zero _ | S754_finite _ _ _ => true
  | _ => false
  end.

(** The literals [0.0f] and [1.0f]. *)
Definition zero : float := S754_zero false.
Definition one : float := S754_finite false 8388608 (-23).
Definition infinity : float := S754_infinity false.

(** [x < y], [x > y], [x >= y]: all false when an operand is NaN. *)
Definition ltb (x y : float) : bool := SFltb x y.
Definition gtb (x y : float) : bool := SFltb y x.
Definition leb (x y : float) : bool := SFleb x y.
Definition geb (x y : float) : bool := SFleb y x.

(** A value of the format that is finite and greater than zero. *)
Definition positive_finite (x : float) : bool :=
  valid x && is_finite x && ltb zero x.

Definition add : float -> float -> float := SFadd prec emax.
Definition sub : float -> float -> float := SFsub prec emax.
Definition mul : float -> float -> float := SFmul prec emax.
Definition div : float -> float -> float := SFdiv prec emax.
Definition opp : float -> float := SFopp.
Definition sqrtf : float -> float := SFsqrt prec emax.

(** [float(n)] for an [unsigned int] n: round to nearest, ties to even. *)
Definition of_uint (n : Z) : float := binary_normalize prec emax n 0 false.

(** Storing a [double] into a [float]. *)
Definition of_double (x : spec_float) : float :=
  match x with
  | S754_finite s m e => binary_normalize prec emax (cond_Zopp s (Zpos m)) e s
  | _ => x
  end.

(** Promotion of a [float] to [double]. *)
Definition to_double (x : float) : spec_float := Float64.round x.
End Float32.

Abbreviation float := Float32.float.

(** ** Steinhardt.h *)

Module Steinhardt.

(** A [std::shared_ptr<T>]: null, or the location of a buffer that every
    copy of the handle designates. *)
Definition loc : Type := positive.
Definition shared_ptr : Type := option loc.
Definition null : shared_ptr := None.

(** [std::complex<float>]. *)
Definition cfloat : Type := (float * float)%type.

(** The data members, in declaration order.  [m_reduce] is not
    initialised by the constructor: [None] stands for its indeterminate
    content. *)
Record t : Type := mk {
  m_Np : Z;
  m_rmax : float;
  m_l : Z;
  m_rmin : float;
  m_reduce : option bool;
  m_average : bool;
  m_norm : bool;
  m_Wl : bool;
  m_Qlmi : shared_ptr;
  m_Qlm : shared_ptr;
  m_Qlm_local : list loc;
  m_Qli : shared_ptr;
  m_AveQlmi : shared_ptr;
  m_AveQlm : shared_ptr;
  m_AveQlm_local : list loc;
  m_QliAve : shared_ptr;
  m_QliNorm : shared_ptr;
  m_QliAveNorm : shared_ptr;
  m_Wli : shared_ptr;
  m_WliAve : shared_ptr;
  m_WliNorm : shared_ptr;
  m_WliAveNorm : shared_ptr;
  m_wigner3jvalues : list float
}.

(** The buffers the handles designate. *)
Record store : Type := mkStore {
  floats : gmap positive (list float);
  complexes : gmap positive (list cfloat)
}.

(** [Steinhardt::Steinhardt]: the member initialisers (every member that
    is not named is default-constructed), then the three checks of the
    body in their order. *)
Definition Steinhardt (rmax : float) (l : Z) (rmin : float)
           (average norm Wl : bool) : outcome t :=
  let this :=
    {| m_Np := 0; m_rmax := rmax; m_l := l; m_rmin := rmin;
       m_reduce := None;
       m_average := average; m_norm := norm; m_Wl := Wl;
       m_Qlmi := null; m_Qlm := null; m_Qlm_local := [];
       m_Qli := null; m_AveQlmi := null; m_AveQlm := null;
       m_AveQlm_local := []; m_QliAve := null; m_QliNorm := null;
       m_QliAveNorm := null; m_Wli := null; m_WliAve := null;
       m_WliNorm := null; m_WliAveNorm := null;
       m_wigner3jvalues := [] |} in
  if Float32.ltb (m_rmax this) Float32.zero
     || Float32.ltb (m_rmin this) Float32.zero
  then Threw (invalid_argument
                "Steinhardt requires rmin and rmax must be positive.")
  else if Float32.geb (m_rmin this) (m_rmax this)
  then Threw (invalid_argument
                "Steinhardt requires rmin must be less than rmax.")
  else if m_l this <? 2
  then Threw (invalid_argument
                "Steinhardt requires l must be two or greater.")
  else Returned this.

(** A method runs on the object and the store and leaves both behind. *)
Definition method (A : Type) : Type := t * store -> outcome A * (t * store).

Definition ret {A : Type} (a : A) : method A := fun w => (Returned a, w).

(** [getNP] *)
Definition getNP : method Z := fun w => ret (m_Np (fst w)) w.

(** [getQl] *)
Definition getQl : method shared_ptr := fun w =>
  let this := fst w in
  if m_average this && m_norm this then ret (m_QliAveNorm this) w
  else if m_average this then ret (m_QliAve this) w
  else if m_norm this then ret (m_QliNorm this) w
  else ret (m_Qli this) w.

(** [getWl] *)
Definition getWl : method shared_ptr := fun w =>
  let this := fst w in
  if m_average this && m_norm this then ret (m_WliAveNorm this) w
  else if m_average this then ret (m_WliAve this) w
  else if m_norm this then ret (m_WliNorm this) w
  else ret (m_Wli this) w.






(** The three tests of the constructor, as one condition. *)
Definition invalid_configuration (rmax : float) (l : Z) (rmin : float) : Prop :=
  Float32.ltb rmax Float32.zero = true \/ Float32.ltb rmin Float32.zero = true
  \/ Float32.geb rmin rmax = true \/ l < 2.

(** The handle that the flags select among four. *)
Definition selected {A : Type} (average norm : bool)
           (raw ave normed ave_norm : A) : A :=
  match average, norm with
  | true, true => ave_norm
  | true, false => ave
  | false, true => normed
  | false, false => raw
  end.

(** *** Instances to state examples with *)

(** The value 1.5f. *)
Definition one_and_a_half : float := S754_finite false 12582912 (-23).

Definition empty_store : store := mkStore ∅ ∅.




End Steinhardt.

(** ** Steinhardt.cc, after the specification *)

Module SteinhardtCompute.
Local Open Scope R_scope.

(** Modelled from the spec: Steinhardt.cc (compute, baseCompute, the
    reduction and computeWl) is not part of the sources; the definitions of
    this module follow sections 3, 4.2, 4.3 and 4.4 of the specification,
    over the real numbers.  A complex number is a pair of reals. *)
Definition C : Type := (R * R)%type.

(** Modelled from the spec: zero, sum, product, product by a real. *)
Definition C0 : C := (0, 0).
Definition Cadd (a b : C) : C := (fst a + fst b, snd a + snd b).
Definition Cmul (a b : C) : C :=
  (fst a * fst b - snd a * snd b, fst a * snd b + snd a * fst b).
Definition Cscale (r : R) (a : C) : C := (r * fst a, r * snd a).
(** Modelled from the spec: the squared modulus of section 4.4. *)
Definition Cnorm2 (a : C) : R := fst a * fst a + snd a * snd a.

(** Modelled from the spec: the collaborators of section 2 that the spec
    leaves outside the core: the evaluator of the spherical harmonics
    [Ylm l theta phi m], the polar and azimuthal angle of a displacement
    vector, and the table of Wigner 3-j coefficients [wigner3j l m1 m2]. *)
Class Harmonics : Type := {
  Ylm : nat -> R -> R -> Z -> C;
  polar : R * R * R -> R;
  azimuth : R * R * R -> R;
  wigner3j : nat -> Z -> Z -> R
}.

(** Modelled from the spec: a bond of section 3, an ordered pair (i, j) with
    its displacement vector. *)
Record bond : Type := mkbond {
  bond_i : nat;
  bond_j : nat;
  bond_delta : R * R * R
}.

(** Modelled from the spec: the length of a displacement vector. *)
Definition distance (d : R * R * R) : R :=
  sqrt (fst (fst d) * fst (fst d) + snd (fst d) * snd (fst d) + snd d * snd d).

(** Modelled from the spec: the bond lies in [rmin, rmax) (section 3). *)
Definition in_shell (rmin rmax : R) (b : bond) : bool :=
  if Rle_dec rmin (distance (bond_delta b))
  then if Rlt_dec (distance (bond_delta b)) rmax then true else false
  else false.

(** Modelled from the spec: a worker's private buffer of section 4.2, a row
    of 2l+1 sums for every particle and a bond counter for every particle. *)
Record buffer : Type := mkbuffer {
  rows : list (list C);
  counts : list nat
}.

(** Modelled from the spec: what the neighbour list, the cutoffs and the
    scheduler hand to one compute call.  The worker of particle [i] is
    [schedule i mod workers]. *)
Record call : Type := mkcall {
  l : nat;
  rmin : R;
  rmax : R;
  Np : nat;
  nlist : list bond;
  workers : nat;
  schedule : nat -> nat
}.

Section Pipeline.
Context {harmonics : Harmonics}.
Variable c : call.

(** Modelled from the spec: the magnetic quantum number of column [k] of a
    row; m runs from -l to l (section 3). *)
Definition m_of (k : nat) : Z := (Z.of_nat k - Z.of_nat (l c))%Z.

(** Modelled from the spec: a row has 2l+1 entries, and a worker's buffer
    starts with particle_count rows of zeros and counters at zero. *)
Definition width : nat := (2 * l c + 1)%nat.

Definition zero_row : list C := replicate width C0.

Definition row_add (r1 r2 : list C) : list C := zip_with Cadd r1 r2.

Definition empty_buffer : buffer :=
  mkbuffer (replicate (Np c) zero_row) (replicate (Np c) 0%nat).

(** Modelled from the spec: the 2l+1 harmonics of one bond (section 4.1). *)
Definition Ylm_row (b : bond) : list C :=
  map (fun k => Ylm (l c) (polar (bond_delta b)) (azimuth (bond_delta b)) (m_of k))
      (seq 0 width).

(** Modelled from the spec: the bonds of particle [i] in [rmin, rmax). *)
Definition bonds_of (i : nat) : list bond :=
  filter (fun b => Nat.eqb (bond_i b) i && in_shell (rmin c) (rmax c) b) (nlist c).

(** Modelled from the spec: section 4.2, one bond is added to the row of its
    reference particle and counted. *)
Definition accumulate_bond (buf : buffer) (b : bond) : buffer :=
  mkbuffer (alter (fun r => row_add r (Ylm_row b)) (bond_i b) (rows buf))
           (alter S (bond_i b) (counts buf)).

(** Modelled from the spec: section 4.2, the bonds of one reference
    particle. *)
Definition accumulate_particle (buf : buffer) (i : nat) : buffer :=
  foldl accumulate_bond buf (bonds_of i).

(** Modelled from the spec: section 4.2, the reference particles that the
    scheduler gives to worker [w]. *)
Definition tasks (w : nat) : list nat :=
  filter (fun i => Nat.eqb (schedule c i mod workers c) w) (seq 0 (Np c)).

(** Modelled from the spec: section 4.2, the pass of worker [w] over its
    particles, into its own buffer. *)
Definition worker_pass (w : nat) : buffer :=
  foldl accumulate_particle empty_buffer (tasks w).

(** Modelled from the spec: one buffer per worker. *)
Definition worker_buffers : list buffer := map worker_pass (seq 0 (workers c)).

(** Modelled from the spec: section 4.3, the element-wise sum of the
    workers' buffers and the total bond count of a particle. *)
Definition total_row (i : nat) : list C :=
  foldl row_add zero_row
        (map (fun buf => default zero_row (rows buf !! i)) worker_buffers).

(** Modelled from the spec: section 4.3, the bond count of a particle across
    all workers. *)
Definition total_count (i : nat) : nat :=
  foldl Nat.add 0%nat
        (map (fun buf => default 0%nat (counts buf !! i)) worker_buffers).

(** Modelled from the spec: the division of a sum by a bond count; [None]
    is a division by zero. *)
Definition divide (z : C) (n : nat) : option C :=
  match n with
  | O => None
  | S _ => Some (Cscale (/ INR n) z)
  end.

(** Modelled from the spec: section 4.3, the row of a particle divided by
    its bond count, and zero for a particle without bonds. *)
Definition Qlm (i : nat) : option (list C) :=
  match total_count i with
  | O => Some zero_row
  | S n => mapM (fun z => divide z (S n)) (total_row i)
  end.

(** Modelled from the spec: finite sums of reals and of complex numbers. *)
Definition Rsum (xs : list R) : R := foldr Rplus 0 xs.
Definition Csum (xs : list C) : C := foldr Cadd C0 xs.

(** Modelled from the spec: section 4.4 step 1,
    Ql(i) = sqrt(4 pi / (2l+1) * sum over m of |Qlm(i,m)|^2). *)
Definition Ql (i : nat) : option R :=
  row ← Qlm i;
  Some (sqrt (4 * PI / (2 * INR (l c) + 1) * Rsum (map Cnorm2 row))).

(** Modelled from the spec: the values of m, from -l to l. *)
Definition m_range : list Z := map m_of (seq 0 width).

(** Modelled from the spec: the entry of a row for the magnetic quantum
    number [m], and the test that m lies between -l and l. *)
Definition entry (row : list C) (m : Z) : C :=
  default C0 (row !! Z.to_nat (m + Z.of_nat (l c))).

Definition in_range (m : Z) : bool :=
  ((- Z.of_nat (l c) <=? m) && (m <=? Z.of_nat (l c)))%Z.

(** Modelled from the spec: section 4.4 step 4, the sum over the triples
    with m1 + m2 + m3 = 0 of the table entry times the three Qlm. *)
Definition Wl (i : nat) : option C :=
  row ← Qlm i;
  Some (Csum (m1 ← m_range; m2 ← m_range;
              if in_range (- m1 - m2)
              then [Cscale (wigner3j (l c) m1 m2)
                      (Cmul (entry row m1)
                            (Cmul (entry row m2) (entry row (- m1 - m2))))]
              else [])).

(** Modelled from the spec: the harmonics of the bonds [bs] added to the row
    [r] one after the other (section 4.2). *)
Definition bond_sum (bs : list bond) (r : list C) : list C :=
  foldl (fun r b => row_add r (Ylm_row b)) r bs.

(** Modelled from the spec: the formula of section 4.3 and of the header's
    documentation, the average over the bonds of particle [i] of the
    harmonic of order m (zero without bonds). *)
Definition Qlm_average (i : nat) (m : Z) : C :=
  match length (bonds_of i) with
  | O => C0
  | S _ =>
      Cscale (/ INR (length (bonds_of i)))
             (Csum (map (fun b => Ylm (l c) (polar (bond_delta b))
                                      (azimuth (bond_delta b)) m)
                        (bonds_of i)))
  end.

End Pipeline.

(** Collaborators to state examples with: every harmonic is 1. *)
Definition constant_harmonics : Harmonics :=
  {| Ylm _ _ _ _ := (1, 0); polar _ := 0; azimuth _ := 0; wigner3j _ _ _ := 1 |}.

(** Two particles, one worker, l = 2 and the shell [0, 1.5); the bond list
    holds the bond from particle 0 to particle 1. *)
Definition two_particles : call :=
  {| l := 2; rmin := 0; rmax := 3 / 2; Np := 2;
     nlist := [mkbond 0 1 (1, 0, 0)];
     workers := 1; schedule := fun _ => 0%nat |}.

(** The same call with an empty bond list. *)
Definition no_bonds : call :=
  {| l := 2; rmin := 0; rmax := 3 / 2; Np := 2; nlist := [];
     workers := 1; schedule := fun _ => 0%nat |}.

End SteinhardtCompute.

(** ** PMFTXYTM2D.cc *)

Module PMFTXYTM2D.

Record vec3 : Type := mkvec3 { vx : float; vy : float; vz : float }.
Record vec2 : Type := mkvec2 { v2x : float; v2y : float }.

(** The indexer of Index1D.h, which is not part of the sources:
    [Index3D w h d i j k] is what [Index3D(w, h, d)(i, j, k)] returns. *)
Class Indexer : Type := {
  Index3D : Z -> Z -> Z -> Z -> Z -> Z -> Z
}.

(** What else the translation unit takes from headers and libraries that
    are not part of the sources: the periodic box, the vector helpers of
    VectorMath.h, the cell list, and the functions of the C library.
    [truncate] is the integer that the truncating conversion of a
    [float] yields (the SSE2 intrinsic or the plain cast), before it is
    stored in an [unsigned int]. *)
Class Geometry : Type := {
  box_wrap : vec3 -> vec3;
  vec3_minus : vec3 -> vec3 -> vec3;
  vec3_dot : vec3 -> vec3 -> float;
  rotmat2_fromAngle_mul : float -> vec2 -> vec2;
  atan2 : float -> float -> float;
  floorf : float -> float;
  truncate : float -> Z;
  getCell : vec3 -> nat;
  getCellNeighbors : nat -> list nat;
  itercell : nat -> list nat
}.

(** Whether the translation unit is compiled with NDEBUG, which removes
    every [assert]. *)
Class Build : Type := {
  NDEBUG : bool
}.

(** A pointer that the code tests before it reads through it: null, or
    the array it points to. *)
Definition pointer (A : Type) : Type := option (list A).

Definition non_null {A : Type} (p : pointer A) : bool :=
  match p with
  | Some _ => true
  | None => false
  end.

(** [p[i]]: [None] is a read through a null pointer or past the end of
    the array. *)
Definition element {A : Type} (p : pointer A) (i : nat) : option A :=
  match p with
  | Some a => a !! i
  | None => None
  end.

(** [new unsigned int[n]] followed by [memset(p, 0, bytes)]: the array has
    [n] elements, and clearing more than [4 * n] bytes leaves it. *)
Definition memset0 (a : list Z) (bytes : Z) : outcome (list Z) :=
  if bytes <=? 4 * Z.of_nat (length a)
  then Returned (repeat 0 (Z.to_nat (bytes / 4)) ++ drop (Z.to_nat (bytes / 4)) a)
  else Undefined.

(** [sizeof(unsigned int) * a * b * c], computed in [size_t]. *)
Definition bytes_of (a b c : Z) : Z := wrap64 (wrap64 (wrap64 (4 * a) * b) * c).

(** [a * b * c], computed in [unsigned int]. *)
Definition count_of (a b c : Z) : Z := wrap32 (wrap32 (a * b) * c).

(** The data members the constructor sets.  [m_lc_width] is the cell
    width handed to the [LinkCell] constructor. *)
Record t : Type := mk {
  m_max_x : float;
  m_max_y : float;
  m_max_T : float;
  m_dx : float;
  m_dy : float;
  m_dT : float;
  m_nbins_x : Z;
  m_nbins_y : Z;
  m_nbins_T : Z;
  m_x_array : list float;
  m_y_array : list float;
  m_T_array : list float;
  m_pcf_array : list Z;
  m_local_pcf_array : list (list Z);
  m_lc_width : float
}.

(** [2.0 * m_max / float(m_nbins)], evaluated in [double] and stored in a
    [float]. *)
Definition bin_width (m_max : float) (m_nbins : Z) : float :=
  Float32.of_double
    (Float64.div (Float64.mul Float64.two (Float32.to_double m_max))
                 (Float32.to_double (Float32.of_uint m_nbins))).

(** One iteration of a bin-centre loop. *)
Definition bin_center (m_max d : float) (i : Z) : float :=
  let x := Float32.mul (Float32.of_uint i) d in
  let nextx := Float32.mul (Float32.of_uint (wrap32 (i + 1))) d in
  Float32.of_double
    (Float64.add (Float32.to_double (Float32.opp m_max))
                 (Float64.div (Float32.to_double (Float32.add x nextx))
                              Float64.two)).

Definition bin_centers (m_max d : float) (m_nbins : Z) : list float :=
  map (fun i => bin_center m_max d (Z.of_nat i)) (seq 0 (Z.to_nat m_nbins)).

(** [PMFTXYTM2D::PMFTXYTM2D].  The member initialisers name [m_max_x] and
    [m_max_y] but not [m_max_T]; [indeterminate] is what that member holds
    when the body reads it. *)
Definition PMFTXYTM2D (max_x max_y max_T : float) (nbins_x nbins_y nbins_T : Z)
           (indeterminate : float) : outcome t :=
  let m_max_x := max_x in
  let m_max_y := max_y in
  let m_max_T := indeterminate in
  let m_nbins_x := nbins_x in
  let m_nbins_y := nbins_y in
  let m_nbins_T := nbins_T in
  if nbins_x <? 1 then Threw (invalid_argument "must be at least 1 bin in x")
  else if nbins_y <? 1 then Threw (invalid_argument "must be at least 1 bin in y")
  else if nbins_T <? 1 then Threw (invalid_argument "must be at least 1 bin in T")
  else if Float32.ltb max_x Float32.zero
  then Threw (invalid_argument "max_x must be positive")
  else if Float32.ltb max_y Float32.zero
  then Threw (invalid_argument "max_y must be positive")
  else if Float32.ltb max_T Float32.zero
  then Threw (invalid_argument "max_T must be positive")
  else
    let m_dx := bin_width m_max_x m_nbins_x in
    let m_dy := bin_width m_max_y m_nbins_y in
    let m_dT := bin_width m_max_T m_nbins_T in
    if Float32.gtb m_dx max_x
    then Threw (invalid_argument "max_x must be greater than dx")
    else if Float32.gtb m_dy max_y
    then Threw (invalid_argument "max_y must be greater than dy")
    else if Float32.gtb m_dT max_T
    then Threw (invalid_argument "max_T must be greater than dT")
    else
      let pcf := repeat 0 (Z.to_nat (count_of m_nbins_T m_nbins_y m_nbins_x)) in
      match memset0 pcf (bytes_of m_nbins_T m_nbins_y m_nbins_x) with
      | Returned pcf0 =>
          Returned
            {| m_max_x := m_max_x; m_max_y := m_max_y; m_max_T := m_max_T;
               m_dx := m_dx; m_dy := m_dy; m_dT := m_dT;
               m_nbins_x := m_nbins_x; m_nbins_y := m_nbins_y;
               m_nbins_T := m_nbins_T;
               m_x_array := bin_centers m_max_x m_dx m_nbins_x;
               m_y_array := bin_centers m_max_y m_dy m_nbins_y;
               m_T_array := bin_centers m_max_T m_dT m_nbins_T;
               m_pcf_array := pcf0;
               m_local_pcf_array := [];
               m_lc_width :=
                 Float32.sqrtf (Float32.add (Float32.mul m_max_x m_max_x)
                                            (Float32.mul m_max_y m_max_y)) |}
      | Threw e => Threw e
      | Undefined => Undefined
      | Aborted => Aborted
      end.

Section Reduction.
Context {indexer : Indexer}.

(** The innermost statement of [CombinePCFXYTM2D::operator()]:
    add to [m_pcf_array[idx]] the element [idx] of one thread-local array. *)
Definition combine_local (idx : nat) (acc : option (list Z))
           (local_bins : list Z) : option (list Z) :=
  pcf ← acc;
  c ← pcf !! idx;
  v ← local_bins !! idx;
  Some (<[idx := wrap32 (c + v)]> pcf).

(** [CombinePCFXYTM2D::operator()] on the range from [first] to [last]:
    [i] runs over the range, [j] below [m_nbins_y], [k] below
    [m_nbins_y], and the innermost loop over the thread-local arrays. *)
Definition CombinePCFXYTM2D_call (nbins_x nbins_y nbins_T : Z)
           (locals : list (list Z)) (pcf : list Z) (first last : nat)
  : option (list Z) :=
  foldl (fun acc i =>
    foldl (fun acc j =>
      foldl (fun acc k =>
        foldl (combine_local
                 (Z.to_nat (Index3D nbins_x nbins_y nbins_T
                                    (wrap32 (Z.of_nat i))
                                    (wrap32 (Z.of_nat j))
                                    (wrap32 (Z.of_nat k)))))
              acc locals)
        acc (seq 0 (Z.to_nat nbins_y)))
      acc (seq 0 (Z.to_nat nbins_y)))
    (Some pcf) (seq first (last - first)).

(** [PMFTXYTM2D::reducePCF]: clear the array, then combine over the
    range from 0 to [m_nbins_x] ([parallel_for] hands sub-ranges of it to
    the functor; every [i] is visited once). *)
Definition reducePCF (this : t) : outcome t :=
  match memset0 (m_pcf_array this)
                (bytes_of (m_nbins_x this) (m_nbins_y this) (m_nbins_T this)) with
  | Returned cleared =>
      match CombinePCFXYTM2D_call (m_nbins_x this) (m_nbins_y this)
                                  (m_nbins_T this) (m_local_pcf_array this)
                                  cleared 0 (Z.to_nat (m_nbins_x this)) with
      | Some pcf =>
          Returned
            {| m_max_x := m_max_x this; m_max_y := m_max_y this;
               m_max_T := m_max_T this; m_dx := m_dx this;
               m_dy := m_dy this; m_dT := m_dT this;
               m_nbins_x := m_nbins_x this; m_nbins_y := m_nbins_y this;
               m_nbins_T := m_nbins_T this; m_x_array := m_x_array this;
               m_y_array := m_y_array this; m_T_array := m_T_array this;
               m_pcf_array := pcf;
               m_local_pcf_array := m_local_pcf_array this;
               m_lc_width := m_lc_width this |}
      | None => Undefined
      end
  | Threw e => Threw e
  | Undefined => Undefined
  | Aborted => Aborted
  end.

(** [PMFTXYTM2D::getPCF] *)
Definition getPCF (this : t) : outcome (list Z * t) :=
  match reducePCF this with
  | Returned this' => Returned (m_pcf_array this', this')
  | Threw e => Threw e
  | Undefined => Undefined
  | Aborted => Aborted
  end.

(** The bin of a canonical array that the coordinates (i, j, k) name. *)
Definition bin (this : t) (a : list Z) (i j k : Z) : option Z :=
  a !! Z.to_nat (Index3D (m_nbins_x this) (m_nbins_y this) (m_nbins_T this) i j k).

(** [++local[idx]] *)
Definition increment (local : list Z) (idx : nat) : option (list Z) :=
  c ← local !! idx;
  Some (<[idx := wrap32 (c + 1)]> local).

(** The guarded increment that ends the loop body of
    [ComputePMFTXYTM2D::operator()]. *)
Definition bin_that_point (this : t) (local : list Z) (ibinx ibiny ibinT : Z)
  : option (list Z) :=
  if (ibinx <? m_nbins_x this) && (ibiny <? m_nbins_y this)
     && (ibinT <? m_nbins_T this)
  then increment local
         (Z.to_nat (Index3D (m_nbins_x this) (m_nbins_y this)
                            (m_nbins_T this) ibinx ibiny ibinT))
  else Some local.

(** The thread-local array of the running thread, allocated and cleared
    on first use. *)
Definition local_array (this : t) (slot : option (list Z)) : outcome (list Z) :=
  match slot with
  | Some a => Returned a
  | None =>
      memset0 (repeat 0 (Z.to_nat (count_of (m_nbins_x this) (m_nbins_y this)
                                            (m_nbins_T this))))
              (bytes_of (m_nbins_x this) (m_nbins_y this) (m_nbins_T this))
  end.

End Reduction.

Section Accumulation.
Context {indexer : Indexer} {geometry : Geometry} {build : Build}.

(** The three bin indices [ComputePMFTXYTM2D::operator()] derives for a
    reference point and a point, or [None] when the pair is skipped by
    the [rsq < 1e-6] test. *)
Definition bin_indices (this : t) (ref : vec3) (ref_orientation : float)
           (point : vec3) (orientation : float) : option (Z * Z * Z) :=
  let dx_inv := Float32.div Float32.one (m_dx this) in
  let dy_inv := Float32.div Float32.one (m_dy this) in
  let dT_inv := Float32.div Float32.one (m_dT this) in
  let delta := box_wrap (vec3_minus point ref) in
  let rsq := vec3_dot delta delta in
  if Float64.ltb (Float32.to_double rsq) Float64.micro then None
  else
    let rotVec :=
      rotmat2_fromAngle_mul (Float32.opp ref_orientation)
                            (mkvec2 (vx delta) (vy delta)) in
    let x := Float32.add (v2x rotVec) (m_max_x this) in
    let y := Float32.add (v2y rotVec) (m_max_y this) in
    let dTheta1 := atan2 (vy delta) (vx delta) in
    let dTheta2 := atan2 (Float32.opp (vy delta)) (Float32.opp (vx delta)) in
    let T1 := Float32.sub dTheta1 ref_orientation in
    let T2 := Float32.sub dTheta2 orientation in
    let T := Float32.add (Float32.sub T1 T2) (m_max_T this) in
    let binx := floorf (Float32.mul x dx_inv) in
    let biny := floorf (Float32.mul y dy_inv) in
    let binT := floorf (Float32.mul T dT_inv) in
    let ibinx := wrap32 (truncate binx) in
    let ibiny := wrap32 (truncate biny) in
    let ibinT := wrap32 (truncate binT) in
    Some (ibinx, ibiny, ibinT).

(** The loop body for the reference point [ref] and the point [j]:
    [None] is an access outside an array. *)
Definition pair_body (this : t) (ref : vec3) (ref_orientation : float)
           (point : vec3) (orientation : float) (local : list Z)
  : option (list Z) :=
  match bin_indices this ref ref_orientation point orientation with
  | None => Some local
  | Some (ibinx, ibiny, ibinT) => bin_that_point this local ibinx ibiny ibinT
  end.

(** The four [assert]s that open [ComputePMFTXYTM2D::operator()]. *)
Definition asserts_hold (m_ref_points : pointer vec3) (m_Nref : Z)
           (m_points : pointer vec3) (m_Np : Z) : bool :=
  non_null m_ref_points && non_null m_points && (0 <? m_Nref) && (0 <? m_Np).

(** [ComputePMFTXYTM2D::operator()] on the reference points from [first]
    to [last], run by a thread whose local array is [slot].  Unless the
    build removes them, the four [assert]s come first.  The two
    orientations are read where the points are; the code reads them
    after the [rsq] test, from arrays that [accumulatePy] has checked to
    be as long as the point arrays. *)
Definition ComputePMFTXYTM2D_call (this : t)
           (ref_points : pointer vec3) (ref_orientations : list float)
           (Nref : Z)
           (points : pointer vec3) (orientations : list float) (Np : Z)
           (slot : option (list Z)) (first last : nat) : outcome (list Z) :=
  if negb NDEBUG && negb (asserts_hold ref_points Nref points Np)
  then Aborted
  else
    match local_array this slot with
    | Returned local0 =>
        let run :=
          foldl (fun acc i =>
            local ← acc;
            ref ← element ref_points i;
            ref_orientation ← ref_orientations !! i;
            foldl (fun acc neigh_cell =>
              foldl (fun acc j =>
                local ← acc;
                point ← element points j;
                orientation ← orientations !! j;
                pair_body this ref ref_orientation point orientation local)
              acc (itercell neigh_cell))
            (Some local) (getCellNeighbors (getCell ref)))
          (Some local0) (seq first (last - first)) in
        match run with
        | Some local => Returned local
        | None => Undefined
        end
    | Threw e => Threw e
    | Undefined => Undefined
    | Aborted => Aborted
    end.

End Accumulation.

Section Lifecycle.
Context {indexer : Indexer} {geometry : Geometry} {build : Build}.

(** The loop of [PMFTXYTM2D::resetPCF]: every thread-local array is
    cleared over [bytes] bytes. *)
Fixpoint clear_locals (bytes : Z) (locals : list (list Z))
  : outcome (list (list Z)) :=
  match locals with
  | [] => Returned []
  | a :: rest =>
      match memset0 a bytes with
      | Returned a0 =>
          match clear_locals bytes rest with
          | Returned rest0 => Returned (a0 :: rest0)
          | Threw e => Threw e
          | Undefined => Undefined
          | Aborted => Aborted
          end
      | Threw e => Threw e
      | Undefined => Undefined
      | Aborted => Aborted
      end
  end.

(** [PMFTXYTM2D::resetPCF]: the thread-local arrays are cleared; the
    statement that would clear [m_pcf_array] is commented out. *)
Definition resetPCF (this : t) : outcome t :=
  match clear_locals (bytes_of (m_nbins_x this) (m_nbins_y this) (m_nbins_T this))
                     (m_local_pcf_array this) with
  | Returned locals =>
      Returned
        {| m_max_x := m_max_x this; m_max_y := m_max_y this;
           m_max_T := m_max_T this; m_dx := m_dx this;
           m_dy := m_dy this; m_dT := m_dT this;
           m_nbins_x := m_nbins_x this; m_nbins_y := m_nbins_y this;
           m_nbins_T := m_nbins_T this; m_x_array := m_x_array this;
           m_y_array := m_y_array this; m_T_array := m_T_array this;
           m_pcf_array := m_pcf_array this;
           m_local_pcf_array := locals;
           m_lc_width := m_lc_width this |}
  | Threw e => Threw e
  | Undefined => Undefined
  | Aborted => Aborted
  end.

(** [tbb::enumerable_thread_specific] keeps one array per thread.  The
    arrays are those of [m_local_pcf_array], in the order of their creation;
    [owners] lists, in the same order, the thread that each belongs to.
    [position thread owners] is the place of the array of [thread]. *)
Fixpoint position (thread : nat) (owners : list nat) : option nat :=
  match owners with
  | [] => None
  | owner :: rest =>
      if decide (owner = thread) then Some 0%nat
      else S <$> position thread rest
  end.

(** [m_pcf_array.local(exists)]: the array of the running thread, if it has
    one. *)
Definition local_of (locals : list (list Z)) (owners : list nat) (thread : nat)
  : option (list Z) :=
  k ← position thread owners; locals !! k.

(** The arrays and their owners after a call by [thread] that leaves the
    array [a]: a thread that had an array keeps it in its place, a thread
    that had none has got one, added at the end. *)
Definition store_local (locals : list (list Z)) (owners : list nat)
           (thread : nat) (a : list Z) : list (list Z) * list nat :=
  match position thread owners with
  | Some k => (<[k := a]> locals, owners)
  | None => (locals ++ [a], owners ++ [thread])
  end.

(** One sub-range of the [parallel_for] of [PMFTXYTM2D::accumulate], run
    by the thread [thread]. *)
Definition accumulate_task (ref_points : pointer vec3)
           (ref_orientations : list float) (Nref : Z)
           (points : pointer vec3) (orientations : list float) (Np : Z)
           (acc : outcome (t * list nat)) (task : nat * nat * nat)
  : outcome (t * list nat) :=
  match acc with
  | Returned (this, owners) =>
      let '(thread, first, last) := task in
      match ComputePMFTXYTM2D_call this ref_points ref_orientations Nref
                                   points orientations Np
                                   (local_of (m_local_pcf_array this) owners
                                             thread)
                                   first last with
      | Returned local =>
          let stored := store_local (m_local_pcf_array this) owners thread
                                    local in
          Returned
            ({| m_max_x := m_max_x this; m_max_y := m_max_y this;
                m_max_T := m_max_T this; m_dx := m_dx this;
                m_dy := m_dy this; m_dT := m_dT this;
                m_nbins_x := m_nbins_x this; m_nbins_y := m_nbins_y this;
                m_nbins_T := m_nbins_T this; m_x_array := m_x_array this;
                m_y_array := m_y_array this; m_T_array := m_T_array this;
                m_pcf_array := m_pcf_array this;
                m_local_pcf_array := fst stored;
                m_lc_width := m_lc_width this |},
             snd stored)
      | Threw e => Threw e
      | Undefined => Undefined
      | Aborted => Aborted
      end
  | Threw e => Threw e
  | Undefined => Undefined
  | Aborted => Aborted
  end.

(** [PMFTXYTM2D::accumulate], on an instance whose thread-local arrays
    belong to the threads [owners].  The cell list that [computeCellList]
    builds from the points is the one [getCell], [getCellNeighbors] and
    [itercell] read; [parallel_for] cuts the range from 0 to [Nref] into
    sub-ranges and gives each to a thread: [tasks] lists them as (thread,
    first, last), in the order they run. *)
Definition accumulate (this : t) (owners : list nat)
           (ref_points : pointer vec3) (ref_orientations : list float)
           (Nref : Z)
           (points : pointer vec3) (orientations : list float) (Np : Z)
           (tasks : list (nat * nat * nat)) : outcome (t * list nat) :=
  foldl (accumulate_task ref_points ref_orientations Nref points orientations Np)
        (Returned (this, owners)) tasks.

End Lifecycle.

(** *** Notions to state properties with *)

(** The count that a thread-local array holds at [idx] (0 past its end), and
    the sum of these counts over all thread-local arrays. *)
Definition local_count (idx : nat) (a : list Z) : Z := default 0 (a !! idx).

Definition bin_total (locals : list (list Z)) (idx : nat) : Z :=
  foldr Z.add 0 (map (local_count idx) locals).

(** The number of bins, as an integer. *)
Definition bin_count (this : t) : Z :=
  m_nbins_x this * m_nbins_y this * m_nbins_T this.

(** The bin counts are what the constructor lets through, their product
    fits an [unsigned int], and the canonical array and every thread-local
    array have one element per bin, each an [unsigned int]. *)
Definition well_sized (this : t) : Prop :=
  1 <= m_nbins_x this /\ 1 <= m_nbins_y this /\ 1 <= m_nbins_T this
  /\ bin_count this < 2 ^ 32
  /\ length (m_pcf_array this) = Z.to_nat (bin_count this)
  /\ Forall (fun a => length a = Z.to_nat (bin_count this))
            (m_local_pcf_array this).

(** What the code expects of [Index3D]: coordinates below the bin counts
    are mapped below their product, and different coordinates to different
    indices. *)
Definition indexes_bins {indexer : Indexer} (this : t) : Prop :=
  (forall i j k,
      0 <= i < m_nbins_x this -> 0 <= j < m_nbins_y this ->
      0 <= k < m_nbins_T this ->
      0 <= Index3D (m_nbins_x this) (m_nbins_y this) (m_nbins_T this) i j k
      < bin_count this)
  /\ (forall i j k i' j' k',
      0 <= i < m_nbins_x this -> 0 <= j < m_nbins_y this ->
      0 <= k < m_nbins_T this ->
      0 <= i' < m_nbins_x this -> 0 <= j' < m_nbins_y this ->
      0 <= k' < m_nbins_T this ->
      Index3D (m_nbins_x this) (m_nbins_y this) (m_nbins_T this) i j k
      = Index3D (m_nbins_x this) (m_nbins_y this) (m_nbins_T this) i' j' k' ->
      i = i' /\ j = j' /\ k = k').

(** The indices of the canonical array that [CombinePCFXYTM2D::operator()]
    visits on the range from [first] to [last], in the order of its loops. *)
Definition visited {indexer : Indexer} (nbins_x nbins_y nbins_T : Z)
           (first last : nat) : list nat :=
  i ← seq first (last - first);
  j ← seq 0 (Z.to_nat nbins_y);
  k ← seq 0 (Z.to_nat nbins_y);
  [Z.to_nat (Index3D nbins_x nbins_y nbins_T (wrap32 (Z.of_nat i))
                     (wrap32 (Z.of_nat j)) (wrap32 (Z.of_nat k)))].

(** What the innermost loop of the reduction makes of the count [c] of the
    canonical array at [idx]. *)
Definition add_locals (idx : nat) (c : Z) (locals : list (list Z)) : Z :=
  foldl (fun c a => wrap32 (c + local_count idx a)) c locals.

Definition sumZ (l : list Z) : Z := foldr Z.add 0 l.

Section Counting.
Context {indexer : Indexer} {geometry : Geometry}.

(** The bin that a reference point and a point fall in: the bin indices
    that [ComputePMFTXYTM2D::operator()] derives for them, when the pair is
    not skipped and the three indices pass the test that guards the
    increment. *)
Definition binned (this : t) (ref : vec3) (ref_orientation : float)
           (point : vec3) (orientation : float) : option (Z * Z * Z) :=
  match bin_indices this ref ref_orientation point orientation with
  | Some (ibinx, ibiny, ibinT) =>
      if (ibinx <? m_nbins_x this) && (ibiny <? m_nbins_y this)
         && (ibinT <? m_nbins_T this)
      then Some (ibinx, ibiny, ibinT)
      else None
  | None => None
  end.

(** The same for the reference point and the point at two indices. *)
Definition binned_pair (this : t)
           (ref_points : list vec3) (ref_orientations : list float)
           (points : list vec3) (orientations : list float)
           (p : nat * nat) : option (Z * Z * Z) :=
  ref ← ref_points !! fst p;
  ref_orientation ← ref_orientations !! fst p;
  point ← points !! snd p;
  orientation ← orientations !! snd p;
  binned this ref ref_orientation point orientation.

(** The pairs (index of a reference point, index of a point) that the loops
    of [ComputePMFTXYTM2D::operator()] visit on the range from [first] to
    [last], in their order: for each reference point, the points of the
    cells next to its cell. *)
Definition pairs (ref_points : list vec3) (first last : nat)
  : list (nat * nat) :=
  i ← seq first (last - first);
  match ref_points !! i with
  | Some ref =>
      neigh_cell ← getCellNeighbors (getCell ref);
      j ← itercell neigh_cell;
      [(i, j)]
  | None => []
  end.

(** The pairs that the sub-ranges of a call of [accumulate] visit. *)
Definition task_pairs (ref_points : list vec3) (tasks : list (nat * nat * nat))
  : list (nat * nat) :=
  task ← tasks; pairs ref_points (snd (fst task)) (snd task).

(** How many of the pairs [ps] fall in the bin [c]. *)
Definition pair_count (this : t)
           (ref_points : list vec3) (ref_orientations : list float)
           (points : list vec3) (orientations : list float)
           (c : Z * Z * Z) (ps : list (nat * nat)) : Z :=
  Z.of_nat (length (filter (fun p => binned_pair this ref_points ref_orientations
                                                 points orientations p = Some c)
                           ps)).

End Counting.

(** Sub-ranges that follow one another from [first] to [last]: what
    [parallel_for] cuts the range into, whatever the threads. *)
Fixpoint chain (tasks : list (nat * nat * nat)) (first last : nat) : Prop :=
  match tasks with
  | [] => first = last
  | task :: rest =>
      snd (fst task) = first /\ (first <= snd task)%nat
      /\ chain rest (snd task) last
  end.

(** *** Collaborators to run the methods on examples *)

(** Row-major indexing with [i] fastest, in [unsigned int] arithmetic:
    the layout under which [getPCFPy] hands the array to NumPy with the
    dimensions (nbins_T, nbins_y, nbins_x). *)
Definition row_major : Indexer :=
  {| Index3D w h d i j k := wrap32 (k * w * h + j * w + i) |}.

(** [floorf] on a binary32 value. *)
Definition floorf_binary32 (x : float) : float :=
  match x with
  | S754_finite s m e =>
      if 0 <=? e then x
      else binary_normalize Float32.prec Float32.emax
                            (cond_Zopp s (Zpos m) / 2 ^ (- e)) 0 s
  | _ => x
  end.

(** The truncating conversion as the SSE2 intrinsic performs it: the
    integer part when it fits a 32-bit [int], the value 0x80000000
    (the least [int]) otherwise. *)
Definition cvtt_binary32 (x : float) : Z :=
  match x with
  | S754_zero _ => 0
  | S754_finite s m e =>
      let v := if 0 <=? e then cond_Zopp s (Zpos m) * 2 ^ e
               else Z.quot (cond_Zopp s (Zpos m)) (2 ^ (- e)) in
      if (- 2 ^ 31 <=? v) && (v <? 2 ^ 31) then v else - 2 ^ 31
  | _ => - 2 ^ 31
  end.

(** An unbounded box and one cell that holds the points 0 and 1.  The
    rotation is the identity and [atan2] is constantly 0: stand-ins for the
    trigonometric functions, which [SpecFloat] does not provide. *)
Definition example_geometry : Geometry :=
  {| box_wrap v := v;
     vec3_minus a b :=
       mkvec3 (Float32.sub (vx a) (vx b)) (Float32.sub (vy a) (vy b))
              (Float32.sub (vz a) (vz b));
     vec3_dot a b :=
       Float32.add (Float32.add (Float32.mul (vx a) (vx b))
                                (Float32.mul (vy a) (vy b)))
                   (Float32.mul (vz a) (vz b));
     rotmat2_fromAngle_mul _ v := v;
     atan2 _ _ := Float32.zero;
     floorf := floorf_binary32;
     truncate := cvtt_binary32;
     getCell _ := 0%nat;
     getCellNeighbors _ := [0%nat];
     itercell _ := [0%nat; 1%nat] |}.

(** The instance [this] with other thread-local arrays. *)
Definition with_local_pcf_array (locals : list (list Z)) (this : t) : t :=
  {| m_max_x := m_max_x this; m_max_y := m_max_y this;
     m_max_T := m_max_T this; m_dx := m_dx this;
     m_dy := m_dy this; m_dT := m_dT this;
     m_nbins_x := m_nbins_x this; m_nbins_y := m_nbins_y this;
     m_nbins_T := m_nbins_T this; m_x_array := m_x_array this;
     m_y_array := m_y_array this; m_T_array := m_T_array this;
     m_pcf_array := m_pcf_array this;
     m_local_pcf_array := locals;
     m_lc_width := m_lc_width this |}.

(** What the constructor returns for maxima 1, the bin counts (2, 2, 3)
    and an [m_max_T] that happens to hold 1. *)
Definition two_two_three : t :=
  {| m_max_x := Float32.one; m_max_y := Float32.one; m_max_T := Float32.one;
     m_dx := Float32.one; m_dy := Float32.one;
     m_dT := S754_finite false 11184811 (-24);
     m_nbins_x := 2; m_nbins_y := 2; m_nbins_T := 3;
     m_x_array := [S754_finite true 8388608 (-24); S754_finite false 8388608 (-24)];
     m_y_array := [S754_finite true 8388608 (-24); S754_finite false 8388608 (-24)];
     m_T_array := [S754_finite true 11184810 (-24); S754_zero false;
                   S754_finite false 11184812 (-24)];
     m_pcf_array := repeat 0 12%nat;
     m_local_pcf_array := [];
     m_lc_width := S754_finite false 11863283 (-23) |}.

(** [two_two_three] after two threads have accumulated: the array of the
    first holds 1 in every bin, the array of the second holds 2. *)
Definition two_threads : t :=
  with_local_pcf_array [repeat 1 12%nat; repeat 2 12%nat] two_two_three.

(** What [reducePCF] leaves of [two_threads]. *)
Definition two_threads_reduced : t :=
  match reducePCF (indexer := row_major) two_threads with
  | Returned this => this
  | _ => two_threads
  end.

(** The default build, in which the [assert]s are compiled in. *)
Definition debug_build : Build := {| NDEBUG := false |}.

(** Two points, at the origin and at (0.5, 0, 0), with orientation 0; and
    a call of [accumulate] in which a first thread takes the first reference
    point and a second thread the second. *)
Definition example_points : list vec3 :=
  [mkvec3 Float32.zero Float32.zero Float32.zero;
   mkvec3 (S754_finite false 8388608 (-24)) Float32.zero Float32.zero].

Definition example_orientations : list float := [Float32.zero; Float32.zero].

Definition example_tasks : list (nat * nat * nat) :=
  [(0, 0, 1); (1, 1, 2)]%nat.

(** What the constructor returns for maxima 1 and the bin counts
    (2, 3, 2), after one thread has accumulated. *)
Definition two_three_two : t :=
  Eval vm_compute in
  match PMFTXYTM2D Float32.one Float32.one Float32.one 2 3 2 Float32.one with
  | Returned this => with_local_pcf_array [repeat 1 12%nat] this
  | _ => two_two_three
  end.

End PMFTXYTM2D.

(** * Properties *)

(** ** Comparisons of floating-point values *)

Lemma SFcompare_Lt_swap (x y : spec_float) :
  SFcompare x y = Some Lt -> SFcompare y x = Some Gt.
Proof.
  destruct x as [sx | sx | | sx mx ex], y as [sy | sy | | sy my ey];
    simpl; try discriminate;
    try (destruct sx; (discriminate || (intros; reflexivity)));
    try (destruct sy; (discriminate || (intros; reflexivity)));
    try (destruct sx, sy; (discriminate || (intros; reflexivity))).
  rewrite (Z.compare_antisym ex ey).
  change (PosDef.Pos.compare_cont Eq my mx) with (Pos.compare my mx).
  change (PosDef.Pos.compare_cont Eq mx my) with (Pos.compare mx my).
  rewrite (Pos.compare_antisym mx my).
  destruct sx, sy, (ex ?= ey), (mx ?= my)%positive; simpl; congruence.
Qed.

Lemma ltb_not_geb (x y : float) :
  Float32.ltb x y = true -> Float32.geb x y = false.
Proof.
  unfold Float32.ltb, Float32.geb, SFltb, SFleb.
  destruct (SFcompare x y) as [[ | | ] | ] eqn:Hc; try discriminate.
  intros _. now rewrite (SFcompare_Lt_swap x y Hc).
Qed.

Lemma leb_zero_not_ltb (x : float) :
  Float32.leb Float32.zero x = true -> Float32.ltb x Float32.zero = false.
Proof.
  unfold Float32.leb, Float32.ltb, Float32.zero, SFleb, SFltb.
  destruct x as [s | s | | s m e]; try destruct s; simpl; congruence.
Qed.

Lemma leb_zero_ltb_trans (x y : float) :
  Float32.leb Float32.zero x = true -> Float32.ltb x y = true ->
  Float32.ltb y Float32.zero = false.
Proof.
  unfold Float32.leb, Float32.ltb, Float32.zero, SFleb, SFltb.
  destruct x as [sx | sx | | sx mx ex], y as [sy | sy | | sy my ey];
    try destruct sx; try destruct sy; simpl; congruence.
Qed.

(** ** Steinhardt: construction and accessors *)

Section SteinhardtHeader.
Import Steinhardt.

(** C1: the constructor throws exactly when rmax < 0, rmin < 0,
    rmin >= rmax or l < 2; what it throws is an invalid_argument; and
    with 0 <= rmin < rmax and l >= 2 it returns the instance. *)
Theorem Steinhardt_throws_iff_invalid
        (rmax : float) (l : Z) (rmin : float) (average norm Wl : bool) :
  (throws (Steinhardt rmax l rmin average norm Wl) = true
   <-> invalid_configuration rmax l rmin)
  /\ (forall e, Steinhardt rmax l rmin average norm Wl = Threw e ->
                exists what, e = invalid_argument what)
  /\ (Float32.leb Float32.zero rmin = true -> Float32.ltb rmin rmax = true ->
      2 <= l ->
      exists this, Steinhardt rmax l rmin average norm Wl = Returned this).
Proof.
  unfold Steinhardt, invalid_configuration; cbn [m_rmax m_rmin m_l].
  repeat split.
  - destruct (Float32.ltb rmax Float32.zero) eqn:H1; [ now left | ].
    destruct (Float32.ltb rmin Float32.zero) eqn:H2; [ now right; left | ].
    destruct (Float32.geb rmin rmax) eqn:H3; [ now right; right; left | ].
    destruct (l <? 2) eqn:H4; cbn; [ | discriminate ].
    intros _. right; right; right. lia.
  - intros [H | [H | [H | H]]].
    + rewrite H. reflexivity.
    + rewrite H, orb_true_r. reflexivity.
    + rewrite H. now destruct (_ || _).
    + apply Z.ltb_lt in H. rewrite H.
      now destruct (_ || _), (Float32.geb rmin rmax).
  - intros [what] _. now exists what.
  - intros H0 Hlt Hl.
    rewrite (leb_zero_ltb_trans rmin rmax H0 Hlt), (leb_zero_not_ltb rmin H0),
      (ltb_not_geb rmin rmax Hlt).
    cbn. destruct (l <? 2) eqn:H4; [ lia | eauto ].
Qed.

Lemma Steinhardt_throws_iff_invalid_witness :
  exists this,
    Steinhardt one_and_a_half 6 Float32.zero false false false = Returned this.
Proof.
  apply (proj2 (proj2 (Steinhardt_throws_iff_invalid
                         one_and_a_half 6 Float32.zero false false false)));
    [ reflexivity | reflexivity | lia ].
Defined.

(** C2: getQl and getWl return the handle of one of the four buffers,
    chosen by the average and norm flags alone, and leave the instance and
    every buffer as they were. *)
Theorem accessors_return_selected_variant (this : t) (st : store) :
  getQl (this, st)
  = (Returned (selected (m_average this) (m_norm this) (m_Qli this)
                        (m_QliAve this) (m_QliNorm this) (m_QliAveNorm this)),
     (this, st))
  /\ getWl (this, st)
     = (Returned (selected (m_average this) (m_norm this) (m_Wli this)
                           (m_WliAve this) (m_WliNorm this) (m_WliAveNorm this)),
        (this, st)).
Proof.
  unfold getQl, getWl, ret, selected; cbn [fst].
  destruct (m_average this), (m_norm this); split; reflexivity.
Qed.

(** C3: on an instance that the constructor has just returned, getQl and
    getWl return the null handle and getNP returns 0; none of them throws
    or touches a buffer. *)
Theorem fresh_instance_accessors
        (rmax : float) (l : Z) (rmin : float) (average norm Wl : bool)
        (this : t) (st : store) :
  Steinhardt rmax l rmin average norm Wl = Returned this ->
  getQl (this, st) = (Returned null, (this, st))
  /\ getWl (this, st) = (Returned null, (this, st))
  /\ getNP (this, st) = (Returned 0, (this, st)).
Proof.
  unfold Steinhardt; cbn [m_rmax m_rmin m_l].
  destruct (_ || _); [ discriminate | ].
  destruct (Float32.geb rmin rmax); [ discriminate | ].
  destruct (l <? 2); [ discriminate | ].
  intros [= <-].
  unfold getQl, getWl, getNP, ret; cbn.
  destruct average, norm; repeat split; reflexivity.
Qed.

Lemma fresh_instance_accessors_witness :
  exists this,
    Steinhardt one_and_a_half 6 Float32.zero true false true = Returned this
    /\ getQl (this, empty_store) = (Returned null, (this, empty_store))
    /\ getWl (this, empty_store) = (Returned null, (this, empty_store))
    /\ getNP (this, empty_store) = (Returned 0, (this, empty_store)).
Proof.
  eexists. split; [ reflexivity | ].
  apply (fresh_instance_accessors one_and_a_half 6 Float32.zero true false true).
  reflexivity.
Defined.

End SteinhardtHeader.

Section SteinhardtHandles.
Import Steinhardt.






End SteinhardtHandles.

(** ** Steinhardt: the base order parameter *)

Section SteinhardtBase.
Import SteinhardtCompute.
Local Open Scope R_scope.
Context {harmonics : Harmonics}.
Variable c : call.

Lemma Cadd_C0_r (z : C) : Cadd z C0 = z.
Proof. destruct z; unfold Cadd, C0; cbn; f_equal; lra. Qed.

Lemma Cadd_C0_l (z : C) : Cadd C0 z = z.
Proof. destruct z; unfold Cadd, C0; cbn; f_equal; lra. Qed.

Lemma Cadd_assoc (x y z : C) : Cadd (Cadd x y) z = Cadd x (Cadd y z).
Proof. unfold Cadd; cbn; f_equal; lra. Qed.

Lemma foldl_Cadd {A : Type} (f : A -> C) (xs : list A) (a : C) :
  foldl (fun z x => Cadd z (f x)) a xs = Cadd a (Csum (map f xs)).
Proof.
  revert a. induction xs as [ | x xs IH]; intros a; cbn.
  - now rewrite Cadd_C0_r.
  - now rewrite IH, Cadd_assoc.
Qed.

Lemma length_zero_row : length (zero_row c) = width c.
Proof. apply length_replicate. Qed.

Lemma length_Ylm_row (b : bond) : length (Ylm_row c b) = width c.
Proof. unfold Ylm_row. now rewrite length_map, length_seq. Qed.

Lemma lookup_row_add (r1 r2 : list C) (k : nat) :
  row_add r1 r2 !! k
  = match r1 !! k, r2 !! k with
    | Some x, Some y => Some (Cadd x y)
    | _, _ => None
    end.
Proof.
  unfold row_add. rewrite lookup_zip_with.
  destruct (r1 !! k), (r2 !! k); reflexivity.
Qed.

Lemma row_add_zero_r (r : list C) :
  length r = width c -> row_add r (zero_row c) = r.
Proof.
  intros Hlen. apply list_eq. intros k. rewrite lookup_row_add.
  destruct (r !! k) as [x | ] eqn:Hx; [ | reflexivity ].
  unfold zero_row. rewrite lookup_replicate_2.
  - now rewrite Cadd_C0_r.
  - rewrite <- Hlen. eapply lookup_lt_Some, Hx.
Qed.

Lemma row_add_zero_l (r : list C) :
  length r = width c -> row_add (zero_row c) r = r.
Proof.
  intros Hlen. apply list_eq. intros k. rewrite lookup_row_add.
  destruct (r !! k) as [x | ] eqn:Hx.
  - unfold zero_row. rewrite lookup_replicate_2.
    + now rewrite Cadd_C0_l.
    + rewrite <- Hlen. eapply lookup_lt_Some, Hx.
  - now destruct (zero_row c !! k).
Qed.

Lemma length_bond_sum (bs : list bond) (r : list C) :
  length r = width c -> length (bond_sum c bs r) = width c.
Proof.
  unfold bond_sum.
  revert r. induction bs as [ | b bs IH]; intros r Hr; cbn [foldl]; [ exact Hr | ].
  apply IH. unfold row_add. rewrite length_zip_with, Hr, length_Ylm_row. lia.
Qed.

Lemma lookup_bond_sum (bs : list bond) (r : list C) (k : nat) (z : C) :
  (k < width c)%nat -> r !! k = Some z ->
  bond_sum c bs r !! k
  = Some (Cadd z (Csum (map (fun b => Ylm (l c) (polar (bond_delta b))
                                          (azimuth (bond_delta b)) (m_of c k))
                            bs))).
Proof.
  intros Hk. unfold bond_sum.
  revert r z.
  induction bs as [ | b bs IH]; intros r z Hz; cbn [foldl map Csum foldr].
  - now rewrite Cadd_C0_r.
  - erewrite IH.
    + now rewrite Cadd_assoc.
    + rewrite lookup_row_add, Hz. unfold Ylm_row.
      rewrite list_lookup_fmap.
      rewrite (proj2 (lookup_seq 0 (width c) k k))
        by (split; [ reflexivity | exact Hk ]).
      reflexivity.
Qed.

Lemma bonds_of_reference (i : nat) (b : bond) :
  b ∈ bonds_of c i -> bond_i b = i.
Proof.
  unfold bonds_of. intros Hb. apply list_elem_of_filter in Hb as [Hb _].
  apply andb_prop_elim in Hb as [Hb _].
  now apply Nat.eqb_eq, Is_true_eq_true.
Qed.

(** The bonds of one reference particle change its row and its counter and
    nothing else. *)
Lemma lookup_accumulate_bonds (bs : list bond) (buf : buffer) (i j : nat) :
  (forall b, b ∈ bs -> bond_i b = i) ->
  rows (foldl (accumulate_bond c) buf bs) !! j
  = (if decide (i = j) then bond_sum c bs <$> rows buf !! j else rows buf !! j)
  /\ counts (foldl (accumulate_bond c) buf bs) !! j
     = (if decide (i = j) then (fun n => n + length bs)%nat <$> counts buf !! j
        else counts buf !! j).
Proof.
  revert buf. induction bs as [ | b bs IH]; intros buf Hbs; cbn [foldl].
  - destruct (decide (i = j)); split; trivial.
    + unfold bond_sum; cbn. now destruct (rows buf !! j).
    + destruct (counts buf !! j); cbn; [ f_equal; lia | reflexivity ].
  - destruct (IH (accumulate_bond c buf b)) as [IHr IHc].
    { intros b' Hb'. apply Hbs. now right. }
    rewrite IHr, IHc. unfold accumulate_bond; cbn [rows counts].
    rewrite (Hbs b) by left.
    destruct (decide (i = j)) as [-> | Hne].
    + rewrite !list_lookup_alter_eq. split.
      * now destruct (rows buf !! j).
      * destruct (counts buf !! j); cbn [fmap option_fmap option_map length];
          [ f_equal; lia | reflexivity ].
    + now rewrite !list_lookup_alter_ne.
Qed.

Lemma lookup_accumulate_particles (ts : list nat) (buf : buffer) (j : nat) :
  NoDup ts ->
  rows (foldl (accumulate_particle c) buf ts) !! j
  = (if decide (j ∈ ts) then bond_sum c (bonds_of c j) <$> rows buf !! j
     else rows buf !! j)
  /\ counts (foldl (accumulate_particle c) buf ts) !! j
     = (if decide (j ∈ ts)
        then (fun n => n + length (bonds_of c j))%nat <$> counts buf !! j
        else counts buf !! j).
Proof.
  revert buf. induction ts as [ | t ts IH]; intros buf Hnd; cbn [foldl].
  - destruct (decide (j ∈ [])) as [Hin | ]; [ | auto ]. inversion Hin.
  - apply NoDup_cons in Hnd as [Hnotin Hnd].
    destruct (IH (accumulate_particle c buf t) Hnd) as [IHr IHc].
    rewrite IHr, IHc. unfold accumulate_particle.
    destruct (lookup_accumulate_bonds (bonds_of c t) buf t j
                (bonds_of_reference t)) as [Hr Hc].
    rewrite Hr, Hc.
    destruct (decide (t = j)) as [-> | Hne].
    + destruct (decide (j ∈ ts)); [ contradiction | ].
      destruct (decide (j ∈ j :: ts)) as [ | Hn]; [ auto | ].
      exfalso. apply Hn. left.
    + destruct (decide (j ∈ ts)) as [Hin | Hnin].
      * destruct (decide (j ∈ t :: ts)) as [ | Hn]; [ auto | ].
        exfalso. apply Hn. now right.
      * destruct (decide (j ∈ t :: ts)) as [Hin' | ]; [ | auto ].
        apply elem_of_cons in Hin' as [-> | ]; contradiction.
Qed.

(** What the buffer of worker [w] holds for particle [i]. *)
Lemma lookup_worker_pass (w i : nat) :
  (i < Np c)%nat ->
  rows (worker_pass c w) !! i
  = Some (if decide (schedule c i mod workers c = w)%nat
          then bond_sum c (bonds_of c i) (zero_row c) else zero_row c)
  /\ counts (worker_pass c w) !! i
     = Some (if decide (schedule c i mod workers c = w)%nat
             then length (bonds_of c i) else 0%nat).
Proof.
  intros Hi. unfold worker_pass.
  destruct (lookup_accumulate_particles (tasks c w) (empty_buffer c) i) as [Hr Hc].
  { apply NoDup_filter, NoDup_seq. }
  rewrite Hr, Hc. unfold empty_buffer; cbn [rows counts].
  rewrite !lookup_replicate_2 by exact Hi. cbn [fmap option_fmap option_map].
  assert (Hin : i ∈ tasks c w <-> (schedule c i mod workers c = w)%nat).
  { unfold tasks. rewrite list_elem_of_filter, elem_of_seq.
    rewrite Is_true_true, Nat.eqb_eq. intuition lia. }
  destruct (decide (i ∈ tasks c w)) as [Hy | Hn];
    destruct (decide (schedule c i mod workers c = w)%nat) as [Hy' | Hn'];
    try tauto; auto.
Qed.

(** Summing, over the workers, a row that only worker [a] holds. *)
Lemma sum_over_workers_row (W a : nat) (x : list C) :
  length x = width c ->
  foldl row_add (zero_row c)
        (map (fun w => if decide (a = w) then x else zero_row c) (seq 0 W))
  = if decide (a < W)%nat then x else zero_row c.
Proof.
  intros Hx. induction W as [ | W IH].
  - cbn. destruct (decide (a < 0)%nat); [ lia | reflexivity ].
  - rewrite seq_S, map_app, foldl_app, IH. cbn [map foldl Nat.add].
    destruct (decide (a < W)%nat), (decide (a = W)), (decide (a < S W)%nat);
      try lia.
    + now apply row_add_zero_r.
    + apply row_add_zero_l, Hx.
    + apply row_add_zero_l, length_zero_row.
Qed.

Lemma sum_over_workers_count (W a n : nat) :
  foldl Nat.add 0%nat (map (fun w => if decide (a = w) then n else 0%nat) (seq 0 W))
  = if decide (a < W)%nat then n else 0%nat.
Proof.
  induction W as [ | W IH].
  - cbn. destruct (decide (a < 0)%nat); [ lia | reflexivity ].
  - rewrite seq_S, map_app, foldl_app, IH. cbn [map foldl Nat.add].
    destruct (decide (a < W)%nat), (decide (a = W)), (decide (a < S W)%nat);
      lia.
Qed.

(** Section 4.3: the reduced row and the total count of a particle are the
    sum and the number of its bonds, as soon as there is a worker. *)
Lemma total_row_count (i : nat) :
  (i < Np c)%nat ->
  total_row c i
  = (if decide (0 < workers c)%nat then bond_sum c (bonds_of c i) (zero_row c)
     else zero_row c)
  /\ total_count c i
     = (if decide (0 < workers c)%nat then length (bonds_of c i) else 0%nat).
Proof.
  intros Hi. unfold total_row, total_count, worker_buffers.
  rewrite !map_map.
  rewrite (map_ext _ (fun w => if decide (schedule c i mod workers c = w)%nat
                               then bond_sum c (bonds_of c i) (zero_row c)
                               else zero_row c)).
  2: { intros w. now rewrite (proj1 (lookup_worker_pass w i Hi)). }
  rewrite (map_ext (fun w => default 0%nat (counts (worker_pass c w) !! i))
                   (fun w => if decide (schedule c i mod workers c = w)%nat
                             then length (bonds_of c i) else 0%nat)).
  2: { intros w. now rewrite (proj2 (lookup_worker_pass w i Hi)). }
  rewrite sum_over_workers_row, sum_over_workers_count.
  2: { apply length_bond_sum, length_zero_row. }
  destruct (decide (0 < workers c)%nat) as [Hw | Hw].
  - pose proof (Nat.mod_upper_bound (schedule c i) (workers c) ltac:(lia)).
    destruct (decide (schedule c i mod workers c < workers c)%nat); [ auto | lia ].
  - destruct (decide (schedule c i mod workers c < workers c)%nat); [ lia | auto ].
Qed.

Lemma mapM_divide (n : nat) (row : list C) :
  mapM (fun z => divide z (S n)) row = Some (map (Cscale (/ INR (S n))) row).
Proof.
  induction row as [ | z row IH]; [ reflexivity | ].
  cbn [mapM map]. rewrite IH. reflexivity.
Qed.

(** Sections 4.2 and 4.3 together: the reduced and divided row of a particle
    holds, for every m, the average of the harmonics over its bonds. *)
Lemma Qlm_is_average (i : nat) :
  (i < Np c)%nat -> (0 < workers c)%nat ->
  Qlm c i = Some (map (fun k => Qlm_average c i (m_of c k)) (seq 0 (width c))).
Proof.
  intros Hi Hw. unfold Qlm.
  destruct (total_row_count i Hi) as [Hrow Hcount].
  destruct (decide (0 < workers c)%nat); [ | lia ].
  rewrite Hcount, Hrow. unfold Qlm_average.
  destruct (length (bonds_of c i)) as [ | n] eqn:Hn.
  - f_equal. apply list_eq. intros k. unfold zero_row.
    rewrite list_lookup_fmap.
    destruct (decide (k < width c)%nat) as [Hk | Hk].
    + rewrite lookup_replicate_2 by exact Hk.
      now rewrite (proj2 (lookup_seq 0 (width c) k k))
        by (split; [ reflexivity | exact Hk ]).
    + rewrite (proj1 (lookup_replicate_None _ _ _)) by lia.
      rewrite (proj2 (lookup_ge_None _ _)) by (rewrite length_seq; lia).
      reflexivity.
  - rewrite mapM_divide. f_equal. apply list_eq. intros k.
    rewrite !list_lookup_fmap.
    destruct (decide (k < width c)%nat) as [Hk | Hk].
    + rewrite (lookup_bond_sum _ _ k C0 Hk)
        by (unfold zero_row; now apply lookup_replicate_2).
      rewrite (proj2 (lookup_seq 0 (width c) k k))
        by (split; [ reflexivity | exact Hk ]).
      cbn [fmap option_fmap option_map]. now rewrite Cadd_C0_l.
    + rewrite (proj2 (lookup_ge_None _ _))
        by (rewrite length_bond_sum by apply length_zero_row; lia).
      rewrite (proj2 (lookup_ge_None (seq 0 (width c)) k))
        by (rewrite length_seq; lia).
      reflexivity.
Qed.

(** C5: after a compute call with at least one worker, the base order
    parameter of every particle i is sqrt(4 pi / (2l+1) * sum over m from -l
    to l of |Qlm(i,m)|^2), where Qlm(i,m) is the average over the bonds of
    i of the harmonic Ylm at the polar and azimuthal angle of the bond. *)
Theorem Ql_is_invariant_of_average (i : nat) :
  (i < Np c)%nat -> (0 < workers c)%nat ->
  Ql c i
  = Some (sqrt (4 * PI / (2 * INR (l c) + 1)
                * Rsum (map (fun m => Cnorm2 (Qlm_average c i m)) (m_range c)))).
Proof.
  intros Hi Hw. unfold Ql. rewrite (Qlm_is_average i Hi Hw).
  cbn [mbind option_bind]. unfold m_range. now rewrite !map_map.
Qed.

Lemma Rsum_Cnorm2_zero_row : Rsum (map Cnorm2 (zero_row c)) = 0.
Proof.
  unfold zero_row. induction (width c) as [ | n IH]; cbn; [ reflexivity | ].
  unfold Rsum in IH. rewrite IH. unfold Cnorm2, C0; cbn. lra.
Qed.

Lemma entry_zero_row (m : Z) : entry c (zero_row c) m = C0.
Proof.
  unfold entry, zero_row.
  destruct (replicate (width c) C0 !! Z.to_nat (m + Z.of_nat (l c)))
    as [z | ] eqn:Hz;
    [ | reflexivity ].
  apply lookup_replicate in Hz as [-> _]. reflexivity.
Qed.

Lemma Csum_all_zero (zs : list C) : (forall z, z ∈ zs -> z = C0) -> Csum zs = C0.
Proof.
  unfold Csum.
  induction zs as [ | z zs IH]; intros Hz; cbn [foldr]; [ reflexivity | ].
  rewrite (Hz z) by left. rewrite IH by (intros z' Hz'; apply Hz; now right).
  apply Cadd_C0_l.
Qed.

Lemma Qlm_defined (j : nat) : is_Some (Qlm c j).
Proof.
  unfold Qlm. destruct (total_count c j); [ eauto | ].
  rewrite mapM_divide. eauto.
Qed.

(** C4: a particle without a bond in [rmin, rmax) has an all-zero row in
    every worker's buffer and in the reduction, a bond count of zero, and
    Ql = 0 and Wl = 0; and for no particle does the reduction divide by
    zero: Qlm, Ql and Wl are always defined. *)
Theorem zero_bonds_zero_order_parameter (i : nat) :
  (i < Np c)%nat -> bonds_of c i = [] ->
  (forall w, rows (worker_pass c w) !! i = Some (zero_row c)
             /\ counts (worker_pass c w) !! i = Some 0%nat)
  /\ total_row c i = zero_row c
  /\ total_count c i = 0%nat
  /\ Ql c i = Some 0
  /\ Wl c i = Some C0
  /\ (forall j, is_Some (Qlm c j) /\ is_Some (Ql c j) /\ is_Some (Wl c j)).
Proof.
  intros Hi Hnone.
  assert (Hrow : total_row c i = zero_row c /\ total_count c i = 0%nat).
  { destruct (total_row_count i Hi) as [-> ->]. rewrite Hnone.
    destruct (decide (0 < workers c)%nat); auto. }
  destruct Hrow as [Hrow Hcount].
  assert (HQ : Qlm c i = Some (zero_row c)) by (unfold Qlm; now rewrite Hcount).
  repeat split.
  - rewrite (proj1 (lookup_worker_pass w i Hi)), Hnone.
    now destruct (decide _).
  - rewrite (proj2 (lookup_worker_pass w i Hi)), Hnone.
    now destruct (decide _).
  - exact Hrow.
  - exact Hcount.
  - unfold Ql. rewrite HQ. cbn [mbind option_bind].
    now rewrite Rsum_Cnorm2_zero_row, Rmult_0_r, sqrt_0.
  - unfold Wl. rewrite HQ. cbn [mbind option_bind]. f_equal.
    apply Csum_all_zero. intros z Hz.
    apply list_elem_of_bind in Hz as (m1 & Hz & _).
    apply list_elem_of_bind in Hz as (m2 & Hz & _).
    destruct (in_range c (- m1 - m2)); [ | inversion Hz ].
    apply list_elem_of_singleton in Hz as ->.
    rewrite !entry_zero_row. unfold Cscale, Cmul, C0; cbn. f_equal; lra.
  - apply Qlm_defined.
  - unfold Ql. destruct (Qlm_defined j) as [row ->]. cbn. eauto.
  - unfold Wl. destruct (Qlm_defined j) as [row ->]. cbn. eauto.
Qed.
End SteinhardtBase.

Section SteinhardtBaseExamples.
Import SteinhardtCompute.
Local Open Scope R_scope.

Lemma Ql_is_invariant_of_average_witness :
  Ql (harmonics := constant_harmonics) two_particles 0
  = Some (sqrt (4 * PI / (2 * INR (l two_particles) + 1)
                * Rsum (map (fun m =>
                               Cnorm2 (Qlm_average
                                         (harmonics := constant_harmonics)
                                         two_particles 0 m))
                            (m_range two_particles)))).
Proof.
  apply (Ql_is_invariant_of_average
           (harmonics := constant_harmonics) two_particles 0);
    cbn; lia.
Defined.

Lemma zero_bonds_zero_order_parameter_witness :
  Ql (harmonics := constant_harmonics) no_bonds 1 = Some 0
  /\ Wl (harmonics := constant_harmonics) no_bonds 1 = Some C0.
Proof.
  destruct (zero_bonds_zero_order_parameter
              (harmonics := constant_harmonics) no_bonds 1)
    as (_ & _ & _ & HQl & HWl & _);
    [ cbn; lia | reflexivity | ].
  split; [ exact HQl | exact HWl ].
Defined.

End SteinhardtBaseExamples.

(** ** Exact roundings *)

Lemma digits2_pos_iter_xO (p m : positive) :
  Zpos (digits2_pos (Pos.iter xO m p)) = Zpos (digits2_pos m) + Zpos p.
Proof.
  revert m. induction p as [p IH | p IH | ]; intros m; cbn [Pos.iter digits2_pos].
  - rewrite Pos2Z.inj_succ, IH, IH. lia.
  - rewrite IH, IH. lia.
  - lia.
Qed.

Lemma shr_1_iter_xO (p m : positive) :
  SpecFloat.iter_pos shr_1 p
    {| shr_m := Zpos (Pos.iter xO m p); shr_r := false; shr_s := false |}
  = {| shr_m := Zpos m; shr_r := false; shr_s := false |}.
Proof.
  revert m.
  induction p as [p IH | p IH | ]; intros m; cbn [Pos.iter SpecFloat.iter_pos].
  - cbn [shr_1 orb]. rewrite IH, IH. reflexivity.
  - rewrite IH, IH. reflexivity.
  - reflexivity.
Qed.

Section ExactRounding.
Variables prec emax : Z.

Lemma binary_round_aux_exact0 (s : bool) (m : positive) (e : Z) :
  fexp prec emax (Zpos (digits2_pos m) + e) = e ->
  binary_round_aux prec emax s (Zpos m) e loc_Exact
  = if e <=? emax - prec then S754_finite s m e else S754_infinity s.
Proof.
  intros Hf. unfold binary_round_aux, shr_fexp.
  cbn [Zdigits2 shr_record_of_loc]. rewrite Hf, Z.sub_diag.
  cbn [shr shr_m loc_of_shr_record round_nearest_even Zdigits2].
  rewrite Hf, Z.sub_diag. reflexivity.
Qed.

Lemma binary_round_aux_exact (s : bool) (m p : positive) (e : Z) :
  fexp prec emax (Zpos (digits2_pos m) + Zpos p + e) = e + Zpos p ->
  binary_round_aux prec emax s (Zpos (Pos.iter xO m p)) e loc_Exact
  = if e + Zpos p <=? emax - prec then S754_finite s m (e + Zpos p)
    else S754_infinity s.
Proof.
  intros Hf. unfold binary_round_aux, shr_fexp.
  cbn [Zdigits2 shr_record_of_loc].
  rewrite digits2_pos_iter_xO, Hf.
  replace (e + Zpos p - e) with (Zpos p) by lia.
  cbn [shr]. rewrite shr_1_iter_xO.
  cbn [shr_m loc_of_shr_record round_nearest_even Zdigits2 shr_record_of_loc].
  replace (Zpos (digits2_pos m) + (e + Zpos p))
    with (Zpos (digits2_pos m) + Zpos p + e) by lia.
  rewrite Hf, Z.sub_diag. reflexivity.
Qed.
End ExactRounding.

Section Widening.
Variables prec emax : Z.

(** A mantissa with fewer digits than the format keeps is shifted left. *)
Lemma binary_round_widen (s : bool) (m q : positive) (e : Z) :
  fexp prec emax (Zpos (digits2_pos m) + e) = e - Zpos q ->
  binary_round prec emax s m e
  = if e - Zpos q <=? emax - prec
    then S754_finite s (Pos.iter xO m q) (e - Zpos q)
    else S754_infinity s.
Proof.
  intros Hf. unfold binary_round, shl_align. rewrite Hf.
  replace (e - Zpos q - e) with (Zneg q) by lia.
  apply binary_round_aux_exact0.
  rewrite digits2_pos_iter_xO.
  replace (Zpos (digits2_pos m) + Zpos q + (e - Zpos q))
    with (Zpos (digits2_pos m) + e) by lia.
  exact Hf.
Qed.

(** A mantissa with more digits than the format keeps, all of the excess
    being zeros, is shifted right. *)
Lemma binary_round_narrow (s : bool) (m p : positive) (e : Z) :
  fexp prec emax (Zpos (digits2_pos m) + Zpos p + e) = e + Zpos p ->
  binary_round prec emax s (Pos.iter xO m p) e
  = if e + Zpos p <=? emax - prec then S754_finite s m (e + Zpos p)
    else S754_infinity s.
Proof.
  intros Hf. unfold binary_round, shl_align.
  rewrite digits2_pos_iter_xO, Hf.
  replace (e + Zpos p - e) with (Zpos p) by lia.
  now apply binary_round_aux_exact.
Qed.
End Widening.

(** ** The bin width for a single bin *)

Lemma to_double_finite (s : bool) (m q : positive) (e : Z) :
  Zpos q = 53 - Zpos (digits2_pos m) -> -1021 <= e <= 971 ->
  Float32.to_double (S754_finite s m e)
  = S754_finite s (Pos.iter xO m q) (e - Zpos q).
Proof.
  intros Hq He. unfold Float32.to_double, Float64.round, binary_normalize.
  assert (Hr : binary_round Float64.prec Float64.emax s m e
               = S754_finite s (Pos.iter xO m q) (e - Zpos q)).
  { rewrite (binary_round_widen _ _ s m q e).
    - unfold Float64.prec, Float64.emax.
      destruct (Z.leb_spec (e - Zpos q) (1024 - 53)); [ reflexivity | lia ].
    - unfold fexp, emin, Float64.prec, Float64.emax. lia. }
  destruct s; cbn [cond_Zopp Z.opp]; exact Hr.
Qed.

Lemma mul_two_exact (m : positive) (e : Z) :
  Zpos (digits2_pos m) = 53 -> -1075 <= e <= 970 ->
  Float64.mul Float64.two (S754_finite false m e) = S754_finite false m (e + 1).
Proof.
  intros Hd He. unfold Float64.mul, Float64.two, SFmul. cbn [xorb].
  change (Zpos (4503599627370496 * m)) with (Zpos (Pos.iter xO m 52)).
  rewrite binary_round_aux_exact.
  - unfold Float64.prec, Float64.emax.
    replace (-51 + e + 52) with (e + 1) by lia.
    destruct (Z.leb_spec (e + 1) (1024 - 53)); [ reflexivity | lia ].
  - rewrite Hd. unfold fexp, emin, Float64.prec, Float64.emax. lia.
Qed.

Lemma div_one_exact (m : positive) (e : Z) :
  Zpos (digits2_pos m) = 53 -> -1073 <= e <= 971 ->
  Float64.div (S754_finite false m e) (Float32.to_double (Float32.of_uint 1))
  = S754_finite false m e.
Proof.
  intros Hd He.
  change (Float32.to_double (Float32.of_uint 1))
    with (S754_finite false 4503599627370496 (-52)).
  unfold Float64.div, SFdiv. cbn [xorb].
  assert (Hcore : SFdiv_core_binary Float64.prec Float64.emax
                    (Zpos m) e 4503599627370496 (-52)
                  = (Zpos (Pos.iter xO m 1), e - 1, loc_Exact)).
  { unfold SFdiv_core_binary. cbn [Zdigits2]. rewrite Hd.
    change (Zpos (digits2_pos 4503599627370496)) with 53.
    replace (Z.min (fexp Float64.prec Float64.emax (53 + e - (53 + -52)))
                   (e - -52)) with (e - 1)
      by (unfold fexp, emin, Float64.prec, Float64.emax; lia).
    replace (e - -52 - (e - 1)) with 53 by lia.
    rewrite Z.shiftl_mul_pow2 by lia.
    replace (Zpos m * 2 ^ 53) with (Zpos m~0 * 4503599627370496) by lia.
    pose proof (Z.div_eucl_eq (Zpos m~0 * 4503599627370496) 4503599627370496
                  ltac:(lia)) as Heq.
    pose proof (Z.mod_pos_bound (Zpos m~0 * 4503599627370496) 4503599627370496
                  ltac:(lia)) as Hb.
    unfold Z.modulo in Hb.
    destruct (Z.div_eucl (Zpos m~0 * 4503599627370496) 4503599627370496)
      as [q r].
    assert (q = Zpos m~0 /\ r = 0) as [-> ->] by nia.
    reflexivity. }
  rewrite Hcore.
  rewrite binary_round_aux_exact.
  - unfold Float64.prec, Float64.emax.
    replace (e - 1 + 1) with e by lia.
    destruct (Z.leb_spec e (1024 - 53)); [ reflexivity | lia ].
  - rewrite Hd. unfold fexp, emin, Float64.prec, Float64.emax. lia.
Qed.

(** The shape of the finite values of binary32: 24 digits, or fewer at the
    least exponent. *)
Lemma valid_finite_shape (s : bool) (m : positive) (e : Z) :
  Float32.valid (S754_finite s m e) = true ->
  e <= 104
  /\ ((Zpos (digits2_pos m) = 24 /\ -149 <= e)
      \/ (Zpos (digits2_pos m) < 24 /\ e = -149)).
Proof.
  unfold Float32.valid, valid_binary, bounded, canonical_mantissa, fexp, emin,
    Float32.prec, Float32.emax.
  intros Hv. apply andb_prop in Hv as [Hc He].
  apply Z.eqb_eq in Hc. apply Z.leb_le in He. lia.
Qed.

Lemma of_double_narrow (m p : positive) (e : Z) :
  fexp Float32.prec Float32.emax (Zpos (digits2_pos m) + Zpos p + e) = e + Zpos p ->
  Float32.of_double (S754_finite false (Pos.iter xO m p) e)
  = if e + Zpos p <=? 104 then S754_finite false m (e + Zpos p)
    else S754_infinity false.
Proof.
  intros Hf. unfold Float32.of_double, binary_normalize. cbn [cond_Zopp].
  now rewrite binary_round_narrow.
Qed.

(** With a single bin the width is twice the maximum: the next exponent for
    a normal maximum (infinity past the largest), the doubled mantissa for a
    subnormal one. *)
Lemma bin_width_single_bin (m : positive) (e : Z) :
  Float32.valid (S754_finite false m e) = true ->
  PMFTXYTM2D.bin_width (S754_finite false m e) 1
  = if Zpos (digits2_pos m) <? 24 then S754_finite false m~0 e
    else if e + 1 <=? 104 then S754_finite false m (e + 1)
         else S754_infinity false.
Proof.
  intros Hv. destruct (valid_finite_shape _ _ _ Hv) as [He Hshape].
  pose proof (Pos2Z.is_pos (digits2_pos m)) as Hd0.
  unfold PMFTXYTM2D.bin_width.
  set (q := Z.to_pos (53 - Zpos (digits2_pos m))).
  assert (Hq : Zpos q = 53 - Zpos (digits2_pos m)) by (unfold q; lia).
  rewrite (to_double_finite false m q e Hq) by lia.
  assert (Hd : Zpos (digits2_pos (Pos.iter xO m q)) = 53)
    by (rewrite digits2_pos_iter_xO; lia).
  rewrite mul_two_exact by (trivial; lia).
  rewrite div_one_exact by (trivial; lia).
  destruct Hshape as [[H24 Hlo] | [Hsub ->]].
  - destruct (Z.ltb_spec (Zpos (digits2_pos m)) 24); [ lia | ].
    rewrite of_double_narrow.
    + replace (e - Zpos q + 1 + Zpos q) with (e + 1) by lia. reflexivity.
    + unfold fexp, emin, Float32.prec, Float32.emax. lia.
  - destruct (Z.ltb_spec (Zpos (digits2_pos m)) 24); [ | lia ].
    assert (Hsucc : q = Pos.succ (Pos.pred q)) by (rewrite Pos.succ_pred; lia).
    rewrite Hsucc at 1. rewrite Pos.iter_succ_r.
    rewrite of_double_narrow.
    + replace (-149 - Zpos q + 1 + Zpos (Pos.pred q)) with (-149) by lia.
      reflexivity.
    + cbn [digits2_pos]. unfold fexp, emin, Float32.prec, Float32.emax. lia.
Qed.

Lemma bin_width_single_bin_exceeds (max : float) :
  Float32.valid max = true -> Float32.is_finite max = true ->
  Float32.ltb Float32.zero max = true ->
  Float32.gtb (PMFTXYTM2D.bin_width max 1) max = true.
Proof.
  destruct max as [s | s | | s m e]; try destruct s; try discriminate.
  intros Hv _ _. rewrite (bin_width_single_bin m e Hv).
  unfold Float32.gtb, SFltb.
  destruct (Zpos (digits2_pos m) <? 24).
  - cbn [SFcompare]. rewrite Z.compare_refl.
    change (PosDef.Pos.compare_cont Eq m m~0) with (Pos.compare m m~0).
    replace (m ?= m~0)%positive with Lt; [ reflexivity | ].
    symmetry. apply Pos.compare_lt_iff. lia.
  - destruct (e + 1 <=? 104); cbn [SFcompare]; [ | reflexivity ].
    replace (e ?= e + 1) with Lt; [ reflexivity | ].
    symmetry. apply Z.compare_lt_iff. lia.
Qed.

(** ** PMFTXYTM2D: construction with a single bin *)

Section PMFTConstruction.
Import PMFTXYTM2D.

(** C9, as stated, fails: with every maximum at +infinity the width of a
    single bin is +infinity as well and does not exceed the maximum, so the
    constructor does not throw, whatever the uninitialised m_max_T holds;
    and with max_T = 1 and nbins_T = 1 (two bins in x and in y) whether it
    throws is decided by what m_max_T holds, not by max_T: it does not when
    that is 0. *)
Lemma PMFTXYTM2D_single_bin_accepted :
  ~ (exists indeterminate,
        throws (PMFTXYTM2D Float32.infinity Float32.infinity Float32.infinity
                           1 1 1 indeterminate) = true)
  /\ ~ (forall indeterminate,
          throws (PMFTXYTM2D Float32.one Float32.one Float32.one
                             2 2 1 indeterminate) = true).
Proof.
  split.
  - intros [indeterminate Hthrows].
    unfold PMFTXYTM2D in Hthrows.
    change (1 <? 1) with false in Hthrows.
    change (Float32.ltb Float32.infinity Float32.zero) with false in Hthrows.
    change (bin_width Float32.infinity 1) with Float32.infinity in Hthrows.
    change (Float32.gtb Float32.infinity Float32.infinity) with false in Hthrows.
    cbv iota in Hthrows.
    assert (Hg : Float32.gtb (bin_width indeterminate 1) Float32.infinity = false).
    { unfold Float32.gtb, SFltb, Float32.infinity.
      destruct (bin_width indeterminate 1) as [s | s | | s m e];
        try destruct s; reflexivity. }
    rewrite Hg in Hthrows.
    change (memset0 (repeat 0 (Z.to_nat (count_of 1 1 1))) (bytes_of 1 1 1))
      with (Returned (A := list Z) [0]) in Hthrows.
    cbn in Hthrows. discriminate.
  - intros Hthrows. specialize (Hthrows Float32.zero).
    vm_compute in Hthrows. discriminate.
Qed.

(** C9, amended: for a finite max_x > 0 the constructor called with
    nbins_x = 1 throws an invalid_argument, and likewise for max_y with
    nbins_y = 1; hence an instance that the constructor returns for a finite
    positive max_x (max_y) has at least two bins in x (in y). *)
Theorem PMFTXYTM2D_single_bin_throws
        (max_x max_y max_T : float) (nbins_x nbins_y nbins_T : Z)
        (indeterminate : float) :
  ((nbins_x = 1 /\ Float32.positive_finite max_x = true)
   \/ (nbins_y = 1 /\ Float32.positive_finite max_y = true) ->
   exists what,
     PMFTXYTM2D max_x max_y max_T nbins_x nbins_y nbins_T indeterminate
     = Threw (invalid_argument what))
  /\ (forall this,
         PMFTXYTM2D max_x max_y max_T nbins_x nbins_y nbins_T indeterminate
         = Returned this ->
         (Float32.positive_finite max_x = true -> 2 <= nbins_x)
         /\ (Float32.positive_finite max_y = true -> 2 <= nbins_y)).
Proof.
  assert (Hwide : forall max, Float32.positive_finite max = true ->
                              Float32.gtb (bin_width max 1) max = true).
  { intros max Hp. unfold Float32.positive_finite in Hp.
    apply andb_prop in Hp as [Hp Hpos]. apply andb_prop in Hp as [Hv Hfin].
    now apply bin_width_single_bin_exceeds. }
  split.
  - intros Hone. unfold PMFTXYTM2D.
    destruct (nbins_x <? 1); [ eauto | ].
    destruct (nbins_y <? 1); [ eauto | ].
    destruct (nbins_T <? 1); [ eauto | ].
    destruct (Float32.ltb max_x Float32.zero); [ eauto | ].
    destruct (Float32.ltb max_y Float32.zero); [ eauto | ].
    destruct (Float32.ltb max_T Float32.zero); [ eauto | ].
    destruct Hone as [[-> Hp] | [-> Hp]].
    + rewrite (Hwide max_x Hp). eauto.
    + destruct (Float32.gtb (bin_width max_x nbins_x) max_x); [ eauto | ].
      rewrite (Hwide max_y Hp). eauto.
  - intros this. unfold PMFTXYTM2D.
    destruct (Z.ltb_spec nbins_x 1); [ discriminate | ].
    destruct (Z.ltb_spec nbins_y 1); [ discriminate | ].
    destruct (nbins_T <? 1); [ discriminate | ].
    destruct (Float32.ltb max_x Float32.zero); [ discriminate | ].
    destruct (Float32.ltb max_y Float32.zero); [ discriminate | ].
    destruct (Float32.ltb max_T Float32.zero); [ discriminate | ].
    destruct (Float32.gtb (bin_width max_x nbins_x) max_x) eqn:Hx;
      [ discriminate | ].
    destruct (Float32.gtb (bin_width max_y nbins_y) max_y) eqn:Hy;
      [ discriminate | ].
    intros _. split; intros Hp.
    + destruct (Z.eq_dec nbins_x 1) as [-> | ]; [ | lia ].
      rewrite (Hwide max_x Hp) in Hx. discriminate.
    + destruct (Z.eq_dec nbins_y 1) as [-> | ]; [ | lia ].
      rewrite (Hwide max_y Hp) in Hy. discriminate.
Qed.

Lemma PMFTXYTM2D_single_bin_throws_witness :
  exists what,
    PMFTXYTM2D Float32.one Float32.one Float32.one 1 2 2 Float32.one
    = Threw (invalid_argument what).
Proof.
  apply (proj1 (PMFTXYTM2D_single_bin_throws
                  Float32.one Float32.one Float32.one 1 2 2 Float32.one)).
  left. split; reflexivity.
Defined.

End PMFTConstruction.

(** ** PMFTXYTM2D: reduction and accumulation *)

Section PMFTHistogram.
Import PMFTXYTM2D.

(** C8 fails on the code: the innermost bin loop of the reduction runs
    [k] below nbins_y, not below nbins_T.  With (nbins_x, nbins_y, nbins_T)
    = (2, 2, 3) and one thread-local array that holds 1 in each of its 12
    bins, getPCF leaves bin (1, 1, 2) at 0; with (2, 3, 2) the reduction
    reads and writes past the 12 elements of the arrays. *)
Theorem reducePCF_runs_k_below_nbins_y :
  (exists this pcf this',
      PMFTXYTM2D Float32.one Float32.one Float32.one 2 2 3 Float32.one
      = Returned this
      /\ getPCF (indexer := row_major)
                (with_local_pcf_array [repeat 1 12%nat] this)
         = Returned (pcf, this')
      /\ bin (indexer := row_major) this pcf 1 1 2 = Some 0
      /\ bin (indexer := row_major) this (repeat 1 12%nat) 1 1 2 = Some 1)
  /\ (exists this,
      PMFTXYTM2D Float32.one Float32.one Float32.one 2 3 2 Float32.one
      = Returned this
      /\ getPCF (indexer := row_major)
                (with_local_pcf_array [repeat 1 12%nat] this)
         = Undefined).
Proof.
  split.
  - exists two_two_three. eexists _, _.
    split; [ vm_compute; reflexivity | ].
    split; [ vm_compute; reflexivity | ].
    split; [ vm_compute; reflexivity | vm_compute; reflexivity ].
  - eexists. split; [ vm_compute; reflexivity | vm_compute; reflexivity ].
Qed.

(** When the constructor returns, the instance holds the bin counts it
    was given. *)
Lemma PMFTXYTM2D_returned_counts
      (max_x max_y max_T : float) (nbins_x nbins_y nbins_T : Z)
      (indeterminate : float) (this : t) :
  PMFTXYTM2D max_x max_y max_T nbins_x nbins_y nbins_T indeterminate
  = Returned this ->
  m_nbins_x this = nbins_x /\ m_nbins_y this = nbins_y
  /\ m_nbins_T this = nbins_T.
Proof.
  unfold PMFTXYTM2D.
  repeat match goal with
         | |- context [if ?b then _ else _] => destruct b; [ discriminate | ]
         end.
  destruct (memset0 _ _); try discriminate.
  intros [= <-]. cbn. auto.
Qed.

Lemma PMFTXYTM2D_returns_when_checks_pass
      (max_x max_y max_T : float) (nbins_x nbins_y nbins_T : Z)
      (indeterminate : float) :
  (nbins_x <? 1) = false -> (nbins_y <? 1) = false -> (nbins_T <? 1) = false ->
  Float32.ltb max_x Float32.zero = false ->
  Float32.ltb max_y Float32.zero = false ->
  Float32.ltb max_T Float32.zero = false ->
  Float32.gtb (bin_width max_x nbins_x) max_x = false ->
  Float32.gtb (bin_width max_y nbins_y) max_y = false ->
  Float32.gtb (bin_width indeterminate nbins_T) max_T = false ->
  bytes_of nbins_T nbins_y nbins_x
  <= 4 * Z.of_nat (Z.to_nat (count_of nbins_T nbins_y nbins_x)) ->
  exists this,
    PMFTXYTM2D max_x max_y max_T nbins_x nbins_y nbins_T indeterminate
    = Returned this.
Proof.
  intros H1 H2 H3 H4 H5 H6 H7 H8 H9 Hb.
  unfold PMFTXYTM2D.
  rewrite H1, H2, H3, H4, H5, H6, H7, H8, H9.
  unfold memset0. rewrite repeat_length.
  destruct (Z.leb_spec (bytes_of nbins_T nbins_y nbins_x)
              (4 * Z.of_nat (Z.to_nat (count_of nbins_T nbins_y nbins_x))));
    [ eauto | lia ].
Qed.

(** C10, as stated, fails: with 2^31 bins in x and in y and one bin in T,
    the product of the bin counts is 0 in unsigned int, the thread-local
    array has no element, and the guarded increment for the bin indices
    (1, 0, 0) writes outside it, whatever the indexer. *)
Lemma increment_outside_wrapped_allocation :
  ~ (exists I : Indexer,
        forall (max_x max_y max_T : float) (nbins_x nbins_y nbins_T : Z)
               (indeterminate : float) (this : t) (local : list Z)
               (ibinx ibiny ibinT : Z),
          PMFTXYTM2D max_x max_y max_T nbins_x nbins_y nbins_T indeterminate
          = Returned this ->
          local_array this None = Returned local ->
          bin_that_point this local ibinx ibiny ibinT <> None).
Proof.
  intros [I H].
  destruct (PMFTXYTM2D_returns_when_checks_pass
              Float32.one Float32.one Float32.one (2 ^ 31) (2 ^ 31) 1
              Float32.zero) as [this Hthis];
    try (vm_compute; reflexivity).
  { vm_compute. discriminate. }
  destruct (PMFTXYTM2D_returned_counts _ _ _ _ _ _ _ _ Hthis) as (Hx & Hy & HT).
  apply (H _ _ _ _ _ _ _ this [] 1 0 0 Hthis).
  - unfold local_array. rewrite Hx, Hy, HT. vm_compute. reflexivity.
  - unfold bin_that_point, increment. rewrite Hx, Hy, HT. reflexivity.
Qed.

Section Pairs.
Context {indexer : Indexer} {geometry : Geometry}.

(** The product of the bin counts, when it fits an unsigned int, is the
    number of elements of a histogram. *)
Lemma count_of_fits (nbins_x nbins_y nbins_T : Z) :
  0 <= nbins_x -> 0 <= nbins_y -> 0 <= nbins_T ->
  nbins_x * nbins_y * nbins_T < 2 ^ 32 ->
  count_of nbins_x nbins_y nbins_T = nbins_x * nbins_y * nbins_T.
Proof.
  intros Hx Hy HT Hfit. unfold count_of, wrap32.
  rewrite Z.mul_mod_idemp_l by lia.
  apply Z.mod_small. split; [ | lia ].
  apply Z.mul_nonneg_nonneg; [ apply Z.mul_nonneg_nonneg | ]; lia.
Qed.

(** The two ways a pair can end. *)
Lemma pair_body_cases
      (this : t) (ref : vec3) (ref_orientation : float)
      (point : vec3) (orientation : float) (local : list Z) :
  0 <= m_nbins_x this -> 0 <= m_nbins_y this -> 0 <= m_nbins_T this ->
  m_nbins_x this * m_nbins_y this * m_nbins_T this < 2 ^ 32 ->
  length local
  = Z.to_nat (count_of (m_nbins_x this) (m_nbins_y this) (m_nbins_T this)) ->
  (forall i j k,
      0 <= i < m_nbins_x this -> 0 <= j < m_nbins_y this ->
      0 <= k < m_nbins_T this ->
      0 <= Index3D (m_nbins_x this) (m_nbins_y this) (m_nbins_T this) i j k
      < m_nbins_x this * m_nbins_y this * m_nbins_T this) ->
  pair_body this ref ref_orientation point orientation local = Some local
  \/ exists (idx : nat) (c : Z),
       (idx < length local)%nat /\ local !! idx = Some c
       /\ pair_body this ref ref_orientation point orientation local
          = Some (<[idx := wrap32 (c + 1)]> local).
Proof.
  intros Hx Hy HT Hfit Hlen Hidx.
  pose proof (count_of_fits _ _ _ Hx Hy HT Hfit) as Hcount.
  unfold pair_body.
  destruct (bin_indices this ref ref_orientation point orientation)
    as [[[ibinx ibiny] ibinT] | ] eqn:Hbins; [ | now left ].
  unfold bin_that_point.
  destruct ((ibinx <? m_nbins_x this) && (ibiny <? m_nbins_y this)
            && (ibinT <? m_nbins_T this)) eqn:Hguard; [ | now left ].
  right.
  apply andb_prop in Hguard as [Hguard HgT].
  apply andb_prop in Hguard as [Hgx Hgy].
  apply Z.ltb_lt in Hgx, Hgy, HgT.
  assert (Hu : 0 <= ibinx /\ 0 <= ibiny /\ 0 <= ibinT).
  { unfold bin_indices in Hbins.
    destruct (Float64.ltb _ _); [ discriminate | ].
    injection Hbins as <- <- <-.
    unfold wrap32. repeat split; apply Z.mod_pos_bound; lia. }
  destruct Hu as (Hux & Huy & HuT).
  pose proof (Hidx ibinx ibiny ibinT ltac:(lia) ltac:(lia) ltac:(lia)) as Hin.
  set (idx := Z.to_nat (Index3D (m_nbins_x this) (m_nbins_y this)
                                (m_nbins_T this) ibinx ibiny ibinT)) in *.
  assert (Hlt : (idx < length local)%nat) by (rewrite Hlen, Hcount; lia).
  destruct (lookup_lt_is_Some_2 local idx Hlt) as [c Hc].
  exists idx, c. unfold increment. rewrite Hc. auto.
Qed.

(** C10, amended: when the product of the bin counts fits an unsigned
    int, the thread-local array has that many elements and the indexer
    maps in-range coordinates below the product, every (reference point,
    point) pair leaves the array as it was or increments exactly one of
    its elements; a pair with rsq < 1e-6 and a pair with a bin index that
    is not below its bin count leave it as it was. *)
Theorem pair_body_increments_at_most_one_bin
        (this : t) (ref : vec3) (ref_orientation : float)
        (point : vec3) (orientation : float) (local : list Z) :
  0 <= m_nbins_x this -> 0 <= m_nbins_y this -> 0 <= m_nbins_T this ->
  m_nbins_x this * m_nbins_y this * m_nbins_T this < 2 ^ 32 ->
  length local
  = Z.to_nat (count_of (m_nbins_x this) (m_nbins_y this) (m_nbins_T this)) ->
  (forall i j k,
      0 <= i < m_nbins_x this -> 0 <= j < m_nbins_y this ->
      0 <= k < m_nbins_T this ->
      0 <= Index3D (m_nbins_x this) (m_nbins_y this) (m_nbins_T this) i j k
      < m_nbins_x this * m_nbins_y this * m_nbins_T this) ->
  let delta := box_wrap (vec3_minus point ref) in
  (pair_body this ref ref_orientation point orientation local = Some local
   \/ exists (idx : nat) (c : Z),
        (idx < length local)%nat /\ local !! idx = Some c
        /\ pair_body this ref ref_orientation point orientation local
           = Some (<[idx := wrap32 (c + 1)]> local))
  /\ (Float64.ltb (Float32.to_double (vec3_dot delta delta)) Float64.micro = true ->
      pair_body this ref ref_orientation point orientation local = Some local)
  /\ (forall ibinx ibiny ibinT,
         bin_indices this ref ref_orientation point orientation
         = Some (ibinx, ibiny, ibinT) ->
         ~ (ibinx < m_nbins_x this /\ ibiny < m_nbins_y this
            /\ ibinT < m_nbins_T this) ->
         pair_body this ref ref_orientation point orientation local = Some local).
Proof.
  intros Hx Hy HT Hfit Hlen Hidx delta.
  repeat split.
  - now apply pair_body_cases.
  - intros Hskip. unfold pair_body, bin_indices.
    fold delta. now rewrite Hskip.
  - intros ibinx ibiny ibinT Hbins Hout.
    unfold pair_body. rewrite Hbins. unfold bin_that_point.
    destruct ((ibinx <? m_nbins_x this) && (ibiny <? m_nbins_y this)
              && (ibinT <? m_nbins_T this)) eqn:Hguard; [ | reflexivity ].
    apply andb_prop in Hguard as [Hguard HgT].
    apply andb_prop in Hguard as [Hgx Hgy].
    apply Z.ltb_lt in Hgx, Hgy, HgT. tauto.
Qed.
End Pairs.

Lemma pair_body_increments_at_most_one_bin_witness :
  pair_body (indexer := row_major) (geometry := example_geometry) two_two_three
            (mkvec3 Float32.zero Float32.zero Float32.zero) Float32.zero
            (mkvec3 (S754_finite false 8388608 (-24)) Float32.zero Float32.zero)
            Float32.zero (repeat 0 12%nat)
  = Some (repeat 0 12%nat)
  \/ exists (idx : nat) (c : Z),
       (idx < length (repeat 0 12%nat))%nat
       /\ repeat 0 12%nat !! idx = Some c
       /\ pair_body (indexer := row_major) (geometry := example_geometry)
                    two_two_three
                    (mkvec3 Float32.zero Float32.zero Float32.zero) Float32.zero
                    (mkvec3 (S754_finite false 8388608 (-24)) Float32.zero
                            Float32.zero)
                    Float32.zero (repeat 0 12%nat)
          = Some (<[idx := wrap32 (c + 1)]> (repeat 0 12%nat)).
Proof.
  apply (proj1 (pair_body_increments_at_most_one_bin
                  (indexer := row_major) (geometry := example_geometry)
                  two_two_three
                  (mkvec3 Float32.zero Float32.zero Float32.zero) Float32.zero
                  (mkvec3 (S754_finite false 8388608 (-24)) Float32.zero
                          Float32.zero)
                  Float32.zero (repeat 0 12%nat)
                  ltac:(cbn; lia) ltac:(cbn; lia) ltac:(cbn; lia)
                  ltac:(cbn; lia) eq_refl
                  ltac:(cbn [m_nbins_x m_nbins_y m_nbins_T two_two_three
                             Index3D row_major];
                        intros i j k Hi Hj Hk; unfold wrap32;
                        rewrite Z.mod_small; lia))).
Defined.

Section Calls.
Context {indexer : Indexer} {geometry : Geometry} {build : Build}.

Lemma foldl_invariant {A B : Type} (P : A -> Prop) (f : A -> B -> A)
      (xs : list B) (a : A) :
  (forall acc x, x ∈ xs -> P acc -> P (f acc x)) -> P a -> P (foldl f a xs).
Proof.
  revert a. induction xs as [ | x xs IH]; intros a Hstep Ha; cbn; [ exact Ha | ].
  apply IH.
  - intros acc y Hy. apply Hstep. now right.
  - apply Hstep; [ left | exact Ha ].
Qed.

(** With pointers that are not null and positive numbers of reference
    points and points, the four asserts pass, whatever the build. *)
Lemma asserts_pass (ref_points : list vec3) (Nref : Z) (points : list vec3)
      (Np : Z) :
  0 < Nref -> 0 < Np ->
  negb NDEBUG && negb (asserts_hold (Some ref_points) Nref (Some points) Np)
  = false.
Proof.
  intros HNref HNp. unfold asserts_hold. cbn [non_null andb].
  destruct (Z.ltb_spec 0 Nref); [ | lia ].
  destruct (Z.ltb_spec 0 Np); [ | lia ].
  apply andb_false_r.
Qed.

(** The whole call stays inside its arrays: when the asserts pass, the
    product of the bin counts fits an unsigned int and there are reference
    points, points and orientations for every index the loops visit, it
    returns an array as long as the one it started from. *)
Lemma ComputePMFTXYTM2D_call_stays_inside
      (this : t) (ref_points : list vec3) (ref_orientations : list float)
      (Nref : Z) (points : list vec3) (orientations : list float) (Np : Z)
      (slot : option (list Z)) (first last : nat) :
  0 < Nref -> 0 < Np ->
  0 <= m_nbins_x this -> 0 <= m_nbins_y this -> 0 <= m_nbins_T this ->
  m_nbins_x this * m_nbins_y this * m_nbins_T this < 2 ^ 32 ->
  (forall a, slot = Some a ->
             length a = Z.to_nat (count_of (m_nbins_x this) (m_nbins_y this)
                                           (m_nbins_T this))) ->
  (forall i j k,
      0 <= i < m_nbins_x this -> 0 <= j < m_nbins_y this ->
      0 <= k < m_nbins_T this ->
      0 <= Index3D (m_nbins_x this) (m_nbins_y this) (m_nbins_T this) i j k
      < m_nbins_x this * m_nbins_y this * m_nbins_T this) ->
  (last <= length ref_points)%nat -> length ref_orientations = length ref_points ->
  length orientations = length points ->
  (forall cell j, j ∈ itercell cell -> (j < length points)%nat) ->
  exists local,
    ComputePMFTXYTM2D_call this (Some ref_points) ref_orientations Nref
                           (Some points) orientations Np slot first last
    = Returned local
    /\ length local = Z.to_nat (count_of (m_nbins_x this) (m_nbins_y this)
                                         (m_nbins_T this)).
Proof.
  intros HNref HNp Hx Hy HT Hfit Hslot Hidx Hlast Hro Ho Hcells.
  set (n := Z.to_nat (count_of (m_nbins_x this) (m_nbins_y this) (m_nbins_T this))).
  pose proof (count_of_fits _ _ _ Hx Hy HT Hfit) as Hcount.
  assert (Hbytes : bytes_of (m_nbins_x this) (m_nbins_y this) (m_nbins_T this)
                   = 4 * (m_nbins_x this * m_nbins_y this * m_nbins_T this)).
  { unfold bytes_of, wrap64.
    rewrite Z.mul_mod_idemp_l, <- Z.mul_assoc, Z.mul_mod_idemp_l by lia.
    replace (4 * m_nbins_x this * (m_nbins_y this * m_nbins_T this))
      with (4 * (m_nbins_x this * m_nbins_y this * m_nbins_T this)) by ring.
    apply Z.mod_small. split; [ | lia ].
    apply Z.mul_nonneg_nonneg; [ lia | ].
    apply Z.mul_nonneg_nonneg; [ apply Z.mul_nonneg_nonneg | ]; lia. }
  unfold ComputePMFTXYTM2D_call.
  rewrite (asserts_pass ref_points Nref points Np HNref HNp). cbn [element].
  assert (Hlocal0 : exists local0, local_array this slot = Returned local0
                                   /\ length local0 = n).
  { unfold local_array. destruct slot as [a | ]; [ eauto | ].
    unfold memset0. rewrite repeat_length, Hbytes. unfold n. rewrite Hcount.
    assert (Hpos : 0 <= m_nbins_x this * m_nbins_y this * m_nbins_T this)
      by (apply Z.mul_nonneg_nonneg; [ apply Z.mul_nonneg_nonneg | ]; lia).
    generalize dependent (m_nbins_x this * m_nbins_y this * m_nbins_T this).
    intros p _ _ _ _ Hpos.
    destruct (Z.leb_spec (4 * p) (4 * Z.of_nat (Z.to_nat p))); [ | lia ].
    eexists. split; [ reflexivity | ].
    rewrite length_app, repeat_length, length_drop, repeat_length.
    replace (4 * p / 4) with p by (apply Z.div_unique_exact; lia).
    lia. }
  destruct Hlocal0 as (local0 & -> & Hlen0).
  set (P := fun acc : option (list Z) =>
              exists local, acc = Some local /\ length local = n).
  match goal with
  | |- context [foldl ?f (Some local0) ?xs] =>
      assert (Hrun : P (foldl f (Some local0) xs))
  end.
  { apply foldl_invariant; [ | exists local0; auto ].
    intros acc i Hi (local & -> & Hlen). cbn [mbind option_bind].
    apply elem_of_seq in Hi.
    destruct (lookup_lt_is_Some_2 ref_points i ltac:(lia)) as [ref ->].
    destruct (lookup_lt_is_Some_2 ref_orientations i ltac:(lia))
      as [ref_orientation ->].
    cbn [mbind option_bind].
    apply foldl_invariant; [ | exists local; auto ].
    intros acc1 cell _ Hacc1.
    apply foldl_invariant; [ | exact Hacc1 ].
    intros acc2 j Hj (local2 & -> & Hlen2). cbn [mbind option_bind].
    pose proof (Hcells cell j Hj) as Hjlt.
    destruct (lookup_lt_is_Some_2 points j Hjlt) as [point ->].
    destruct (lookup_lt_is_Some_2 orientations j ltac:(lia)) as [orientation ->].
    cbn [mbind option_bind].
    destruct (pair_body_cases this ref ref_orientation point orientation local2
                              Hx Hy HT Hfit Hlen2 Hidx)
      as [-> | (idx & c & _ & _ & ->)].
    - exists local2. auto.
    - eexists. split; [ reflexivity | ]. now rewrite length_insert. }
  destruct Hrun as (local & -> & Hlen). eauto.
Qed.
End Calls.

End PMFTHistogram.

(** ** PMFTXYTM2D: what the reduction computes *)

Section PMFTReductionSteps.
Import PMFTXYTM2D.
Context {indexer : Indexer}.

Lemma bytes_of_fits (nbins_x nbins_y nbins_T : Z) :
  0 <= nbins_x -> 0 <= nbins_y -> 0 <= nbins_T ->
  nbins_x * nbins_y * nbins_T < 2 ^ 32 ->
  bytes_of nbins_x nbins_y nbins_T = 4 * (nbins_x * nbins_y * nbins_T).
Proof.
  intros Hx Hy HT Hfit. unfold bytes_of, wrap64.
  rewrite Z.mul_mod_idemp_l, <- Z.mul_assoc, Z.mul_mod_idemp_l by lia.
  replace (4 * nbins_x * (nbins_y * nbins_T))
    with (4 * (nbins_x * nbins_y * nbins_T)) by ring.
  apply Z.mod_small. split; [ | lia ].
  apply Z.mul_nonneg_nonneg; [ lia | ].
  apply Z.mul_nonneg_nonneg; [ apply Z.mul_nonneg_nonneg | ]; lia.
Qed.

Lemma memset0_whole (a : list Z) (n : Z) :
  0 <= n -> length a = Z.to_nat n ->
  memset0 a (4 * n) = Returned (repeat 0 (Z.to_nat n)).
Proof.
  intros Hn Hlen. unfold memset0.
  destruct (Z.leb_spec (4 * n) (4 * Z.of_nat (length a))); [ | lia ].
  replace (4 * n / 4) with n by (apply Z.div_unique_exact; lia).
  rewrite <- Hlen, drop_all, app_nil_r. reflexivity.
Qed.

Lemma well_sized_bytes (this : t) :
  well_sized this ->
  bytes_of (m_nbins_x this) (m_nbins_y this) (m_nbins_T this)
  = 4 * bin_count this
  /\ 0 <= bin_count this.
Proof.
  intros (Hx & Hy & HT & Hfit & _). unfold bin_count in *.
  split; [ apply bytes_of_fits; lia | ].
  apply Z.mul_nonneg_nonneg; [ apply Z.mul_nonneg_nonneg | ]; lia.
Qed.

Lemma foldl_bind_flat {A B C : Type} (f : A -> C -> A) (g : B -> list C)
      (xs : list B) (a : A) :
  foldl f a (xs ≫= g) = foldl (fun acc x => foldl f acc (g x)) a xs.
Proof.
  revert a. induction xs as [ | x xs IH]; intros a; [ reflexivity | ].
  rewrite bind_cons, foldl_app. cbn [foldl]. apply IH.
Qed.

Lemma foldl_ext_in {A B : Type} (f g : A -> B -> A) (xs : list B) (a : A) :
  (forall acc x, x ∈ xs -> f acc x = g acc x) -> foldl f a xs = foldl g a xs.
Proof.
  revert a. induction xs as [ | x xs IH]; intros a H; [ reflexivity | ].
  cbn [foldl]. rewrite H by left. apply IH. intros acc y Hy. apply H. now right.
Qed.

(** The bin indices the reduction visits on the range from [first] to
    [last], in the order it visits them. *)
Lemma CombinePCFXYTM2D_call_flat (nbins_x nbins_y nbins_T : Z)
      (locals : list (list Z)) (pcf : list Z) (first last : nat) :
  CombinePCFXYTM2D_call nbins_x nbins_y nbins_T locals pcf first last
  = foldl (fun acc idx => foldl (combine_local idx) acc locals) (Some pcf)
          (visited nbins_x nbins_y nbins_T first last).
Proof.
  unfold CombinePCFXYTM2D_call, visited. rewrite foldl_bind_flat.
  apply foldl_ext_in. intros acc i _. rewrite foldl_bind_flat.
  apply foldl_ext_in. intros acc1 j _. rewrite foldl_bind_flat.
  apply foldl_ext_in. intros acc2 k _. reflexivity.
Qed.

Lemma wrap32_add_l (c v w : Z) : wrap32 (wrap32 (c + v) + w) = wrap32 (c + (v + w)).
Proof.
  unfold wrap32. rewrite Zplus_mod_idemp_l. f_equal. lia.
Qed.

Lemma wrap32_idem (c : Z) : wrap32 (wrap32 c) = wrap32 c.
Proof. unfold wrap32. apply Z.mod_mod. lia. Qed.

(** The innermost loop adds to one element of the canonical array the
    elements of the thread-local arrays at the same index. *)
Lemma foldl_combine_local (idx : nat) (locals : list (list Z)) (pcf : list Z)
      (c : Z) :
  pcf !! idx = Some c ->
  Forall (fun a => (idx < length a)%nat) locals ->
  foldl (combine_local idx) (Some pcf) locals
  = Some (<[idx := add_locals idx c locals]> pcf).
Proof.
  unfold add_locals.
  revert pcf c. induction locals as [ | a locals IH]; intros pcf c Hc Hall.
  - cbn [foldl]. now rewrite list_insert_id.
  - apply Forall_cons in Hall as [Ha Hall]. cbn [foldl].
    destruct (lookup_lt_is_Some_2 a idx Ha) as [v Hv].
    assert (Hstep : combine_local idx (Some pcf) a
                    = Some (<[idx := wrap32 (c + v)]> pcf)).
    { unfold combine_local. cbn [mbind option_bind]. rewrite Hc.
      cbn [mbind option_bind]. rewrite Hv. reflexivity. }
    assert (Hcount : local_count idx a = v)
      by (unfold local_count; now rewrite Hv).
    rewrite Hstep.
    rewrite (IH _ (wrap32 (c + v))); [ | | exact Hall ].
    + rewrite list_insert_insert_eq, Hcount. reflexivity.
    + apply list_lookup_insert_eq. eapply lookup_lt_Some; eauto.
Qed.

Lemma add_locals_total (idx : nat) (locals : list (list Z)) (c : Z) :
  wrap32 (add_locals idx c locals) = wrap32 (c + bin_total locals idx).
Proof.
  unfold add_locals. revert c. induction locals as [ | a locals IH]; intros c.
  - cbn. f_equal. lia.
  - cbn [foldl]. rewrite IH. unfold bin_total. cbn [map foldr].
    apply wrap32_add_l.
Qed.

Lemma add_locals_zero (idx : nat) (locals : list (list Z)) :
  add_locals idx 0 locals = wrap32 (bin_total locals idx).
Proof.
  change (bin_total locals idx) with (0 + bin_total locals idx).
  rewrite <- (add_locals_total idx locals 0). unfold add_locals.
  destruct locals as [ | a locals _] using rev_ind; [ reflexivity | ].
  rewrite foldl_app. cbn [foldl]. now rewrite wrap32_idem.
Qed.

End PMFTReductionSteps.

Section Triples.
Context (g : nat -> nat -> nat -> nat) (xs ys zs : list nat).

Lemma elem_of_triples (y : nat) :
  y ∈ (i ← xs; j ← ys; k ← zs; [g i j k])
  <-> exists i j k, i ∈ xs /\ j ∈ ys /\ k ∈ zs /\ y = g i j k.
Proof.
  split.
  - intros H.
    apply list_elem_of_bind in H as (i & H & Hi).
    apply list_elem_of_bind in H as (j & H & Hj).
    apply list_elem_of_bind in H as (k & H & Hk).
    apply list_elem_of_singleton in H. eauto 8.
  - intros (i & j & k & Hi & Hj & Hk & ->).
    apply list_elem_of_bind. exists i. split; [ | exact Hi ].
    apply list_elem_of_bind. exists j. split; [ | exact Hj ].
    apply list_elem_of_bind. exists k. split; [ | exact Hk ].
    now apply list_elem_of_singleton.
Qed.

Lemma NoDup_triples :
  NoDup xs -> NoDup ys -> NoDup zs ->
  (forall i j k i' j' k',
      i ∈ xs -> j ∈ ys -> k ∈ zs -> i' ∈ xs -> j' ∈ ys -> k' ∈ zs ->
      g i j k = g i' j' k' -> i = i' /\ j = j' /\ k = k') ->
  NoDup (i ← xs; j ← ys; k ← zs; [g i j k]).
Proof.
  intros Hxs Hys Hzs Hinj.
  apply NoDup_bind; [ | | exact Hxs ].
  - intros i i' y Hi Hi' H H'.
    apply list_elem_of_bind in H as (j & H & Hj).
    apply list_elem_of_bind in H as (k & H & Hk).
    apply list_elem_of_singleton in H.
    apply list_elem_of_bind in H' as (j' & H' & Hj').
    apply list_elem_of_bind in H' as (k' & H' & Hk').
    apply list_elem_of_singleton in H'.
    apply (Hinj i j k i' j' k'); auto. congruence.
  - intros i Hi. apply NoDup_bind; [ | | exact Hys ].
    + intros j j' y Hj Hj' H H'.
      apply list_elem_of_bind in H as (k & H & Hk).
      apply list_elem_of_singleton in H.
      apply list_elem_of_bind in H' as (k' & H' & Hk').
      apply list_elem_of_singleton in H'.
      apply (Hinj i j k i j' k'); auto. congruence.
    + intros j Hj. apply NoDup_bind; [ | | exact Hzs ].
      * intros k k' y Hk Hk' H H'.
        apply list_elem_of_singleton in H.
        apply list_elem_of_singleton in H'.
        apply (Hinj i j k i j k'); auto. congruence.
      * intros k _. apply NoDup_singleton.
Qed.
End Triples.

Section PMFTReductionIndices.
Import PMFTXYTM2D.
Context {indexer : Indexer}.

(** Combining over indices that are all different and inside the arrays
    adds to each of them, once, what the thread-local arrays hold there, and
    leaves the other elements as they were. *)
Lemma foldl_combine_indices (idxs : list nat) (locals : list (list Z))
      (pcf : list Z) (n : nat) :
  length pcf = n -> Forall (fun a => length a = n) locals ->
  Forall (fun idx => (idx < n)%nat) idxs -> NoDup idxs ->
  exists pcf',
    foldl (fun acc idx => foldl (combine_local idx) acc locals) (Some pcf) idxs
    = Some pcf'
    /\ length pcf' = n
    /\ forall m c,
         pcf !! m = Some c ->
         pcf' !! m
         = Some (if decide (m ∈ idxs) then add_locals m c locals else c).
Proof.
  intros Hlen Hlocals. revert pcf Hlen.
  induction idxs as [ | idx idxs IH]; intros pcf Hlen Hin Hnd.
  - exists pcf. repeat split; auto.
  - apply Forall_cons in Hin as [Hidx Hin].
    apply NoDup_cons in Hnd as [Hnotin Hnd].
    destruct (lookup_lt_is_Some_2 pcf idx ltac:(lia)) as [c0 Hc0].
    cbn [foldl].
    rewrite (foldl_combine_local idx locals pcf c0 Hc0).
    2:{ eapply Forall_impl; [ exact Hlocals | ]. cbn. intros a ->. exact Hidx. }
    destruct (IH (<[idx := add_locals idx c0 locals]> pcf))
      as (pcf' & Hrun & Hlen' & Hspec);
      [ now rewrite length_insert | exact Hin | exact Hnd | ].
    exists pcf'. split; [ exact Hrun | ]. split; [ exact Hlen' | ].
    intros m c Hm.
    destruct (decide (m = idx)) as [-> | Hne].
    + rewrite Hc0 in Hm. injection Hm as ->.
      erewrite Hspec by (apply list_lookup_insert_eq; lia).
      rewrite decide_False by exact Hnotin.
      rewrite decide_True by left. reflexivity.
    + rewrite (Hspec m c) by (rewrite list_lookup_insert_ne; auto).
      f_equal. destruct (decide (m ∈ idxs)) as [Hin' | Hnin].
      * rewrite decide_True by now right. reflexivity.
      * rewrite decide_False; [ reflexivity | ].
        intros [ | ]%elem_of_cons; auto.
Qed.

End PMFTReductionIndices.

Section PMFTReductionVisited.
Import PMFTXYTM2D.
Context {indexer : Indexer}.

Lemma well_sized_bounds (this : t) :
  well_sized this ->
  m_nbins_x this < 2 ^ 32 /\ m_nbins_y this < 2 ^ 32 /\ m_nbins_T this < 2 ^ 32.
Proof.
  intros (Hx & Hy & HT & Hfit & _). unfold bin_count in Hfit.
  repeat split; nia.
Qed.

(** The indices a call of the reduction visits are those of the bins with
    [i] in its range and [j] and [k] below nbins_y. *)
Lemma elem_of_visited (this : t) (first last : nat) (m : nat) :
  well_sized this -> (last <= Z.to_nat (m_nbins_x this))%nat ->
  m ∈ visited (m_nbins_x this) (m_nbins_y this) (m_nbins_T this) first last
  <-> exists i j k,
        Z.of_nat first <= i < Z.of_nat last
        /\ 0 <= j < m_nbins_y this /\ 0 <= k < m_nbins_y this
        /\ m = Z.to_nat (Index3D (m_nbins_x this) (m_nbins_y this)
                                 (m_nbins_T this) i j k).
Proof.
  intros Hws Hlast.
  pose proof (well_sized_bounds this Hws) as (Hbx & Hby & HbT).
  unfold visited. rewrite elem_of_triples. split.
  - intros (i & j & k & Hi & Hj & Hk & ->).
    apply elem_of_seq in Hi, Hj, Hk.
    exists (Z.of_nat i), (Z.of_nat j), (Z.of_nat k).
    unfold wrap32. rewrite !Z.mod_small by lia.
    repeat split; lia.
  - intros (i & j & k & Hi & Hj & Hk & ->).
    exists (Z.to_nat i), (Z.to_nat j), (Z.to_nat k).
    rewrite !elem_of_seq. unfold wrap32.
    rewrite !Z2Nat.id, !Z.mod_small by lia.
    repeat split; lia.
Qed.

Lemma visited_inside (this : t) (first last : nat) :
  well_sized this -> indexes_bins this ->
  m_nbins_y this <= m_nbins_T this ->
  (last <= Z.to_nat (m_nbins_x this))%nat ->
  Forall (fun idx => (idx < Z.to_nat (bin_count this))%nat)
         (visited (m_nbins_x this) (m_nbins_y this) (m_nbins_T this) first last).
Proof.
  intros Hws [Hrange _] Hyt Hlast. apply Forall_forall. intros m Hm.
  apply (elem_of_visited this first last m Hws Hlast)
    in Hm as (i & j & k & Hi & Hj & Hk & ->).
  pose proof (Hrange i j k ltac:(lia) ltac:(lia) ltac:(lia)). lia.
Qed.

Lemma NoDup_visited (this : t) (first last : nat) :
  well_sized this -> indexes_bins this ->
  m_nbins_y this <= m_nbins_T this ->
  (last <= Z.to_nat (m_nbins_x this))%nat ->
  NoDup (visited (m_nbins_x this) (m_nbins_y this) (m_nbins_T this) first last).
Proof.
  intros Hws [Hrange Hinj] Hyt Hlast.
  pose proof (well_sized_bounds this Hws) as (Hbx & Hby & HbT).
  apply NoDup_triples; try apply NoDup_seq.
  intros i j k i' j' k' Hi Hj Hk Hi' Hj' Hk'.
  apply elem_of_seq in Hi, Hj, Hk, Hi', Hj', Hk'.
  unfold wrap32. rewrite !Z.mod_small by lia. intros Heq.
  pose proof (Hrange (Z.of_nat i) (Z.of_nat j) (Z.of_nat k)
                     ltac:(lia) ltac:(lia) ltac:(lia)).
  pose proof (Hrange (Z.of_nat i') (Z.of_nat j') (Z.of_nat k')
                     ltac:(lia) ltac:(lia) ltac:(lia)).
  destruct (Hinj (Z.of_nat i) (Z.of_nat j) (Z.of_nat k)
                 (Z.of_nat i') (Z.of_nat j') (Z.of_nat k'));
    lia.
Qed.

(** What a call of the reduction on the range from [first] to [last] does
    to the canonical array, when nbins_y is at most nbins_T: to an element
    it visits it adds what the thread-local arrays hold there; the other
    elements are left as they were. *)
Lemma CombinePCFXYTM2D_call_indices (this : t) (pcf : list Z) (first last : nat) :
  well_sized this -> indexes_bins this ->
  m_nbins_y this <= m_nbins_T this ->
  length pcf = Z.to_nat (bin_count this) ->
  (last <= Z.to_nat (m_nbins_x this))%nat ->
  exists pcf',
    CombinePCFXYTM2D_call (m_nbins_x this) (m_nbins_y this) (m_nbins_T this)
                          (m_local_pcf_array this) pcf first last = Some pcf'
    /\ length pcf' = Z.to_nat (bin_count this)
    /\ forall m c,
         pcf !! m = Some c ->
         pcf' !! m
         = Some (if decide (m ∈ visited (m_nbins_x this) (m_nbins_y this)
                                        (m_nbins_T this) first last)
                 then add_locals m c (m_local_pcf_array this) else c).
Proof.
  intros Hws Hidx Hyt Hlen Hlast.
  rewrite CombinePCFXYTM2D_call_flat.
  apply foldl_combine_indices; auto.
  - apply Hws.
  - now apply visited_inside.
  - now apply NoDup_visited.
Qed.

End PMFTReductionVisited.

Section PMFTReductionLength.
Import PMFTXYTM2D.

Lemma repeat_replicate {A : Type} (x : A) (n : nat) : repeat x n = replicate n x.
Proof. induction n as [ | n IH]; cbn; [ reflexivity | now rewrite IH ]. Qed.

(** Row-major indexing meets what the code expects of [Index3D]. *)
Lemma row_major_indexes_bins (this : t) :
  well_sized this -> indexes_bins (indexer := row_major) this.
Proof.
  intros (Hx & Hy & HT & Hfit & _). unfold bin_count in Hfit.
  unfold indexes_bins, bin_count. cbn [Index3D row_major].
  assert (Hin : forall i j k,
             0 <= i < m_nbins_x this -> 0 <= j < m_nbins_y this ->
             0 <= k < m_nbins_T this ->
             0 <= k * m_nbins_x this * m_nbins_y this + j * m_nbins_x this + i
             < m_nbins_x this * m_nbins_y this * m_nbins_T this).
  { intros i j k Hi Hj Hk. split; [ nia | ].
    assert (j * m_nbins_x this + i < m_nbins_x this * m_nbins_y this) by nia.
    nia. }
  split.
  - intros i j k Hi Hj Hk. pose proof (Hin i j k Hi Hj Hk).
    unfold wrap32. rewrite Z.mod_small; lia.
  - intros i j k i' j' k' Hi Hj Hk Hi' Hj' Hk'.
    pose proof (Hin i j k Hi Hj Hk). pose proof (Hin i' j' k' Hi' Hj' Hk').
    unfold wrap32. rewrite !Z.mod_small by lia. intros Heq.
    destruct (Zdiv_mod_unique (m_nbins_x this)
                (k * m_nbins_y this + j) (k' * m_nbins_y this + j') i i')
      as [Hq Hr]; [ lia | lia | lia | ].
    destruct (Zdiv_mod_unique (m_nbins_y this) k k' j j')
      as [Hq' Hr']; [ lia | lia | lia | ].
    auto.
Qed.

Context {indexer : Indexer}.

Lemma combine_local_length (idx : nat) (acc : option (list Z)) (a pcf : list Z) :
  combine_local idx acc a = Some pcf ->
  exists pcf0, acc = Some pcf0 /\ length pcf = length pcf0.
Proof.
  unfold combine_local. destruct acc as [pcf0 | ]; [ | discriminate ].
  cbn [mbind option_bind].
  destruct (pcf0 !! idx); [ | discriminate ]. cbn [mbind option_bind].
  destruct (a !! idx); [ | discriminate ]. cbn [mbind option_bind].
  intros [= <-]. exists pcf0. now rewrite length_insert.
Qed.

(** The reduction never changes the length of the canonical array. *)
Lemma CombinePCFXYTM2D_call_length (nbins_x nbins_y nbins_T : Z)
      (locals : list (list Z)) (pcf pcf' : list Z) (first last : nat) :
  CombinePCFXYTM2D_call nbins_x nbins_y nbins_T locals pcf first last = Some pcf' ->
  length pcf' = length pcf.
Proof.
  rewrite CombinePCFXYTM2D_call_flat.
  set (P := fun acc : option (list Z) =>
              forall p, acc = Some p -> length p = length pcf).
  intros Hrun. revert pcf' Hrun. change (P (foldl
    (fun acc idx => foldl (combine_local idx) acc locals) (Some pcf)
    (visited nbins_x nbins_y nbins_T first last))).
  apply foldl_invariant; [ | intros p [= <-]; reflexivity ].
  intros acc idx _ Hacc. apply foldl_invariant; [ | exact Hacc ].
  intros acc1 a _ Hacc1 p Hp.
  apply combine_local_length in Hp as (pcf0 & -> & ->). now apply Hacc1.
Qed.

End PMFTReductionLength.

Section PMFTReductionResults.
Import PMFTXYTM2D.
Context {indexer : Indexer}.

Lemma fold_none_combine (idxs : list nat) (locals : list (list Z)) :
  foldl (fun acc idx => foldl (combine_local idx) acc locals) None idxs = None.
Proof.
  induction idxs as [ | idx idxs IH]; [ reflexivity | ]. cbn [foldl].
  replace (foldl (combine_local idx) None locals) with (@None (list Z));
    [ exact IH | ].
  clear. induction locals as [ | a locals IH]; [ reflexivity | exact IH ].
Qed.

(** When nbins_y is at most nbins_T, the reduction stays inside the
    arrays and leaves in a bin with k below nbins_y the sum of what the
    thread-local arrays hold there, and 0 in the other bins. *)
Lemma reducePCF_bins (this : t) :
  well_sized this -> indexes_bins this ->
  m_nbins_y this <= m_nbins_T this ->
  exists this',
    reducePCF this = Returned this'
    /\ well_sized this'
    /\ m_local_pcf_array this' = m_local_pcf_array this
    /\ forall i j k,
         0 <= i < m_nbins_x this -> 0 <= j < m_nbins_y this ->
         0 <= k < m_nbins_T this ->
         bin this (m_pcf_array this') i j k
         = Some (if k <? m_nbins_y this
                 then wrap32 (bin_total (m_local_pcf_array this)
                                (Z.to_nat (Index3D (m_nbins_x this)
                                                   (m_nbins_y this)
                                                   (m_nbins_T this) i j k)))
                 else 0).
Proof.
  intros Hws Hidx Hyt.
  destruct (well_sized_bytes this Hws) as [Hbytes Hpos].
  pose proof Hws as (Hx & Hy & HT & Hfit & Hlen & Hlocals).
  unfold reducePCF.
  rewrite Hbytes, (memset0_whole _ _ Hpos Hlen).
  destruct (CombinePCFXYTM2D_call_indices
              this (repeat 0 (Z.to_nat (bin_count this)))
              0 (Z.to_nat (m_nbins_x this)) Hws Hidx Hyt
              (repeat_length _ _) (Nat.le_refl _))
    as (pcf' & -> & Hlen' & Hspec).
  eexists. split; [ reflexivity | ]. cbn [m_pcf_array m_local_pcf_array].
  split; [ repeat split; assumption | ].
  split; [ reflexivity | ].
  intros i j k Hi Hj Hk. unfold bin.
  destruct Hidx as [Hrange Hinj].
  pose proof (Hrange i j k Hi Hj Hk) as Hin.
  set (m := Z.to_nat (Index3D (m_nbins_x this) (m_nbins_y this)
                              (m_nbins_T this) i j k)) in *.
  rewrite (Hspec m 0)
    by (rewrite repeat_replicate; apply lookup_replicate_2; lia).
  f_equal.
  destruct (Z.ltb_spec k (m_nbins_y this)) as [Hk' | Hk'].
  - rewrite decide_True; [ apply add_locals_zero | ].
    apply (elem_of_visited this 0 _ m Hws (Nat.le_refl _)).
    exists i, j, k. repeat split; lia.
  - rewrite decide_False; [ reflexivity | ].
    intros Hmem.
    apply (elem_of_visited this 0 _ m Hws (Nat.le_refl _))
      in Hmem as (i' & j' & k' & Hi' & Hj' & Hk'' & Heq).
    pose proof (Hrange i' j' k' ltac:(lia) ltac:(lia) ltac:(lia)).
    destruct (Hinj i j k i' j' k'); lia.
Qed.

(** X2: when nbins_y is at most nbins_T, getPCF returns, and the bin
    (i, j, k) of the array it returns holds the sum, in unsigned int, of what
    the thread-local arrays hold in that bin if k is below nbins_y, and 0
    if k is nbins_y or more; the thread-local arrays are left as they
    were. *)
Theorem getPCF_sums_thread_local_arrays (this : t) :
  well_sized this -> indexes_bins this ->
  m_nbins_y this <= m_nbins_T this ->
  exists pcf this',
    getPCF this = Returned (pcf, this')
    /\ m_pcf_array this' = pcf
    /\ well_sized this'
    /\ m_local_pcf_array this' = m_local_pcf_array this
    /\ forall i j k,
         0 <= i < m_nbins_x this -> 0 <= j < m_nbins_y this ->
         0 <= k < m_nbins_T this ->
         bin this pcf i j k
         = Some (if k <? m_nbins_y this
                 then wrap32 (bin_total (m_local_pcf_array this)
                                (Z.to_nat (Index3D (m_nbins_x this)
                                                   (m_nbins_y this)
                                                   (m_nbins_T this) i j k)))
                 else 0).
Proof.
  intros Hws Hidx Hyt.
  destruct (reducePCF_bins this Hws Hidx Hyt)
    as (this' & Hrun & Hws' & Hlocals & Hbins).
  exists (m_pcf_array this'), this'. unfold getPCF. rewrite Hrun. auto.
Qed.

(** X3: getPCF does not count twice: calling it again on the instance it
    leaves returns the same array and leaves the same instance. *)
Theorem getPCF_idempotent (this this' : t) (pcf : list Z) :
  well_sized this ->
  getPCF this = Returned (pcf, this') ->
  getPCF this' = Returned (pcf, this').
Proof.
  intros Hws. destruct (well_sized_bytes this Hws) as [Hbytes Hpos].
  destruct Hws as (_ & _ & _ & _ & Hlen & _).
  unfold getPCF, reducePCF.
  rewrite Hbytes, (memset0_whole _ _ Hpos Hlen).
  destruct (CombinePCFXYTM2D_call _ _ _ _ _ _ _) as [pcf' | ] eqn:Hrun;
    [ | discriminate ].
  intros [= <- <-]. cbn [m_pcf_array m_local_pcf_array m_nbins_x m_nbins_y m_nbins_T].
  rewrite Hbytes, (memset0_whole pcf' _ Hpos).
  - rewrite Hrun. reflexivity.
  - rewrite (CombinePCFXYTM2D_call_length _ _ _ _ _ _ _ _ Hrun).
    apply repeat_length.
Qed.

(** X4: when nbins_y is at most nbins_T, two calls of the reduction on
    sub-ranges of the bins in x both return and can run in either order:
    the canonical array they leave is the same. *)
Theorem CombinePCFXYTM2D_call_commutes (this : t) (pcf : list Z)
        (first1 last1 first2 last2 : nat) :
  well_sized this -> indexes_bins this ->
  m_nbins_y this <= m_nbins_T this ->
  length pcf = Z.to_nat (bin_count this) ->
  (last1 <= Z.to_nat (m_nbins_x this))%nat ->
  (last2 <= Z.to_nat (m_nbins_x this))%nat ->
  exists pcf1 pcf2 pcf12,
    CombinePCFXYTM2D_call (m_nbins_x this) (m_nbins_y this) (m_nbins_T this)
                          (m_local_pcf_array this) pcf first1 last1 = Some pcf1
    /\ CombinePCFXYTM2D_call (m_nbins_x this) (m_nbins_y this) (m_nbins_T this)
                             (m_local_pcf_array this) pcf first2 last2 = Some pcf2
    /\ CombinePCFXYTM2D_call (m_nbins_x this) (m_nbins_y this) (m_nbins_T this)
                             (m_local_pcf_array this) pcf1 first2 last2
       = Some pcf12
    /\ CombinePCFXYTM2D_call (m_nbins_x this) (m_nbins_y this) (m_nbins_T this)
                             (m_local_pcf_array this) pcf2 first1 last1
       = Some pcf12.
Proof.
  intros Hws Hidx Hyt Hlen H1 H2.
  destruct (CombinePCFXYTM2D_call_indices this pcf first1 last1
              Hws Hidx Hyt Hlen ltac:(lia)) as (pcf1 & Hr1 & Hl1 & Hs1).
  destruct (CombinePCFXYTM2D_call_indices this pcf first2 last2
              Hws Hidx Hyt Hlen ltac:(lia)) as (pcf2 & Hr2 & Hl2 & Hs2).
  destruct (CombinePCFXYTM2D_call_indices this pcf1 first2 last2
              Hws Hidx Hyt Hl1 ltac:(lia)) as (pcf12 & Hr12 & Hl12 & Hs12).
  destruct (CombinePCFXYTM2D_call_indices this pcf2 first1 last1
              Hws Hidx Hyt Hl2 ltac:(lia)) as (pcf21 & Hr21 & Hl21 & Hs21).
  exists pcf1, pcf2, pcf12. repeat (split; [ assumption | ]).
  rewrite Hr21. f_equal.
  apply (list_eq_same_length _ _ (Z.to_nat (bin_count this)) Hl12 Hl21).
  intros m x y Hm Hx Hy.
  destruct (lookup_lt_is_Some_2 pcf m ltac:(lia)) as [c Hc].
  rewrite (Hs21 m _ (Hs2 m c Hc)) in Hx.
  rewrite (Hs12 m _ (Hs1 m c Hc)) in Hy.
  injection Hx as <-. injection Hy as <-.
  destruct (decide (m ∈ visited _ _ _ first1 last1));
    destruct (decide (m ∈ visited _ _ _ first2 last2)); reflexivity.
Qed.

(** X1: two calls of the reduction on sub-ranges that do not overlap
    work on different elements of the canonical array.  A call applies the
    innermost statement at the indices it visits, in their order; no index
    that one of the two calls visits is visited by the other; and each call
    leaves the elements at the indices it does not visit as they were (when
    nbins_y is at most nbins_T). *)
Theorem CombinePCFXYTM2D_calls_visit_disjoint_elements (this : t)
        (pcf : list Z) (first1 last1 first2 last2 : nat) :
  well_sized this -> indexes_bins this ->
  m_nbins_y this <= m_nbins_T this ->
  length pcf = Z.to_nat (bin_count this) ->
  (last1 <= first2 <= last2)%nat ->
  (last2 <= Z.to_nat (m_nbins_x this))%nat ->
  (forall first last,
      CombinePCFXYTM2D_call (m_nbins_x this) (m_nbins_y this) (m_nbins_T this)
                            (m_local_pcf_array this) pcf first last
      = foldl (fun acc idx =>
                 foldl (combine_local idx) acc (m_local_pcf_array this))
              (Some pcf)
              (visited (m_nbins_x this) (m_nbins_y this) (m_nbins_T this)
                       first last))
  /\ (forall m,
         m ∈ visited (m_nbins_x this) (m_nbins_y this) (m_nbins_T this)
                     first1 last1 ->
         m ∉ visited (m_nbins_x this) (m_nbins_y this) (m_nbins_T this)
                     first2 last2)
  /\ exists pcf1 pcf2,
       CombinePCFXYTM2D_call (m_nbins_x this) (m_nbins_y this) (m_nbins_T this)
                             (m_local_pcf_array this) pcf first1 last1
       = Some pcf1
       /\ CombinePCFXYTM2D_call (m_nbins_x this) (m_nbins_y this)
                                (m_nbins_T this) (m_local_pcf_array this)
                                pcf first2 last2
          = Some pcf2
       /\ (forall m,
              m ∉ visited (m_nbins_x this) (m_nbins_y this) (m_nbins_T this)
                          first1 last1 ->
              pcf1 !! m = pcf !! m)
       /\ (forall m,
              m ∉ visited (m_nbins_x this) (m_nbins_y this) (m_nbins_T this)
                          first2 last2 ->
              pcf2 !! m = pcf !! m).
Proof.
  intros Hws Hidx Hyt Hlen H12 H2.
  split; [ intros first last; apply CombinePCFXYTM2D_call_flat | ].
  split.
  - intros m Hm1 Hm2. destruct Hidx as [Hrange Hinj].
    apply (elem_of_visited this first1 last1 m Hws ltac:(lia))
      in Hm1 as (i & j & k & Hi & Hj & Hk & Heq).
    apply (elem_of_visited this first2 last2 m Hws ltac:(lia))
      in Hm2 as (i' & j' & k' & Hi' & Hj' & Hk' & Heq').
    pose proof (Hrange i j k ltac:(lia) ltac:(lia) ltac:(lia)).
    pose proof (Hrange i' j' k' ltac:(lia) ltac:(lia) ltac:(lia)).
    destruct (Hinj i j k i' j' k'); lia.
  - destruct (CombinePCFXYTM2D_call_indices this pcf first1 last1
                Hws Hidx Hyt Hlen ltac:(lia)) as (pcf1 & Hr1 & Hl1 & Hs1).
    destruct (CombinePCFXYTM2D_call_indices this pcf first2 last2
                Hws Hidx Hyt Hlen ltac:(lia)) as (pcf2 & Hr2 & Hl2 & Hs2).
    exists pcf1, pcf2. split; [ exact Hr1 | ]. split; [ exact Hr2 | ].
    split; intros m Hm; destruct (pcf !! m) as [c | ] eqn:Hc.
    + rewrite (Hs1 m c Hc). now rewrite decide_False.
    + apply lookup_ge_None in Hc. apply lookup_ge_None. lia.
    + rewrite (Hs2 m c Hc). now rewrite decide_False.
    + apply lookup_ge_None in Hc. apply lookup_ge_None. lia.
Qed.

End PMFTReductionResults.

Section PMFTReductionExamples.
Import PMFTXYTM2D.

Lemma two_threads_well_sized : well_sized two_threads.
Proof.
  unfold well_sized, bin_count. cbn.
  repeat split; try lia. repeat constructor.
Qed.

Lemma getPCF_sums_thread_local_arrays_witness :
  exists pcf this',
    getPCF (indexer := row_major) two_threads = Returned (pcf, this')
    /\ m_pcf_array this' = pcf
    /\ well_sized this'
    /\ m_local_pcf_array this' = m_local_pcf_array two_threads
    /\ forall i j k,
         0 <= i < m_nbins_x two_threads -> 0 <= j < m_nbins_y two_threads ->
         0 <= k < m_nbins_T two_threads ->
         bin (indexer := row_major) two_threads pcf i j k
         = Some (if k <? m_nbins_y two_threads
                 then wrap32 (bin_total (m_local_pcf_array two_threads)
                                (Z.to_nat (Index3D (Indexer := row_major)
                                                   (m_nbins_x two_threads)
                                                   (m_nbins_y two_threads)
                                                   (m_nbins_T two_threads) i j k)))
                 else 0).
Proof.
  apply (getPCF_sums_thread_local_arrays (indexer := row_major) two_threads
           two_threads_well_sized
           (row_major_indexes_bins two_threads two_threads_well_sized)).
  cbn. lia.
Defined.

Lemma getPCF_idempotent_witness :
  getPCF (indexer := row_major) two_threads_reduced
  = Returned (repeat 3 8%nat ++ repeat 0 4%nat, two_threads_reduced).
Proof.
  apply (getPCF_idempotent (indexer := row_major) two_threads
           two_threads_reduced (repeat 3 8%nat ++ repeat 0 4%nat)
           two_threads_well_sized).
  vm_compute. reflexivity.
Defined.

Lemma CombinePCFXYTM2D_call_commutes_witness :
  exists pcf1 pcf2 pcf12,
    CombinePCFXYTM2D_call (indexer := row_major)
      (m_nbins_x two_threads) (m_nbins_y two_threads) (m_nbins_T two_threads)
      (m_local_pcf_array two_threads) (repeat 0 12%nat) 0 1 = Some pcf1
    /\ CombinePCFXYTM2D_call (indexer := row_major)
         (m_nbins_x two_threads) (m_nbins_y two_threads) (m_nbins_T two_threads)
         (m_local_pcf_array two_threads) (repeat 0 12%nat) 1 2 = Some pcf2
    /\ CombinePCFXYTM2D_call (indexer := row_major)
         (m_nbins_x two_threads) (m_nbins_y two_threads) (m_nbins_T two_threads)
         (m_local_pcf_array two_threads) pcf1 1 2 = Some pcf12
    /\ CombinePCFXYTM2D_call (indexer := row_major)
         (m_nbins_x two_threads) (m_nbins_y two_threads) (m_nbins_T two_threads)
         (m_local_pcf_array two_threads) pcf2 0 1 = Some pcf12.
Proof.
  apply (CombinePCFXYTM2D_call_commutes (indexer := row_major) two_threads
           (repeat 0 12%nat) 0 1 1 2 two_threads_well_sized
           (row_major_indexes_bins two_threads two_threads_well_sized)).
  - cbn. lia.
  - reflexivity.
  - cbn. lia.
  - cbn. lia.
Defined.

Lemma CombinePCFXYTM2D_calls_visit_disjoint_elements_witness :
  (forall first last,
      CombinePCFXYTM2D_call (indexer := row_major)
        (m_nbins_x two_threads) (m_nbins_y two_threads) (m_nbins_T two_threads)
        (m_local_pcf_array two_threads) (repeat 0 12%nat) first last
      = foldl (fun acc idx =>
                 foldl (combine_local idx) acc (m_local_pcf_array two_threads))
              (Some (repeat 0 12%nat))
              (visited (indexer := row_major)
                       (m_nbins_x two_threads) (m_nbins_y two_threads)
                       (m_nbins_T two_threads) first last))
  /\ (forall m,
         m ∈ visited (indexer := row_major)
                     (m_nbins_x two_threads) (m_nbins_y two_threads)
                     (m_nbins_T two_threads) 0 1 ->
         m ∉ visited (indexer := row_major)
                     (m_nbins_x two_threads) (m_nbins_y two_threads)
                     (m_nbins_T two_threads) 1 2)
  /\ exists pcf1 pcf2,
       CombinePCFXYTM2D_call (indexer := row_major)
         (m_nbins_x two_threads) (m_nbins_y two_threads) (m_nbins_T two_threads)
         (m_local_pcf_array two_threads) (repeat 0 12%nat) 0 1
       = Some pcf1
       /\ CombinePCFXYTM2D_call (indexer := row_major)
            (m_nbins_x two_threads) (m_nbins_y two_threads)
            (m_nbins_T two_threads) (m_local_pcf_array two_threads)
            (repeat 0 12%nat) 1 2
          = Some pcf2
       /\ (forall m,
              m ∉ visited (indexer := row_major)
                          (m_nbins_x two_threads) (m_nbins_y two_threads)
                          (m_nbins_T two_threads) 0 1 ->
              pcf1 !! m = repeat 0 12%nat !! m)
       /\ (forall m,
              m ∉ visited (indexer := row_major)
                          (m_nbins_x two_threads) (m_nbins_y two_threads)
                          (m_nbins_T two_threads) 1 2 ->
              pcf2 !! m = repeat 0 12%nat !! m).
Proof.
  apply (CombinePCFXYTM2D_calls_visit_disjoint_elements (indexer := row_major)
           two_threads (repeat 0 12%nat) 0 1 1 2 two_threads_well_sized
           (row_major_indexes_bins two_threads two_threads_well_sized)).
  - cbn. lia.
  - reflexivity.
  - lia.
  - cbn. lia.
Defined.

End PMFTReductionExamples.

(** ** PMFTXYTM2D: resetting and accumulating *)

Section PMFTLifecycle.
Import PMFTXYTM2D.
Context {indexer : Indexer} {geometry : Geometry}.

Lemma clear_locals_whole (n : Z) (locals : list (list Z)) :
  0 <= n -> Forall (fun a => length a = Z.to_nat n) locals ->
  clear_locals (4 * n) locals
  = Returned (map (fun _ => repeat 0 (Z.to_nat n)) locals).
Proof.
  intros Hn. induction 1 as [ | a locals Ha _ IH]; [ reflexivity | ].
  cbn [clear_locals map]. now rewrite (memset0_whole a n Hn Ha), IH.
Qed.

Lemma lookup_repeat_Some {A : Type} (x y : A) (n i : nat) :
  repeat x n !! i = Some y -> y = x.
Proof.
  rewrite repeat_replicate. intros H.
  now apply lookup_replicate_1 in H as [-> _].
Qed.

(** Combining arrays that hold 0 everywhere into an array that holds 0
    everywhere leaves it as it is. *)
Lemma CombinePCFXYTM2D_call_zero (nbins_x nbins_y nbins_T : Z)
      (locals : list (list Z)) (n : nat) (pcf' : list Z) (first last : nat) :
  Forall (fun a => a = repeat 0 n) locals ->
  CombinePCFXYTM2D_call nbins_x nbins_y nbins_T locals (repeat 0 n) first last
  = Some pcf' ->
  pcf' = repeat 0 n.
Proof.
  intros Hlocals. rewrite CombinePCFXYTM2D_call_flat.
  set (P := fun acc : option (list Z) => forall p, acc = Some p -> p = repeat 0 n).
  intros Hrun. revert pcf' Hrun.
  change (P (foldl (fun acc idx => foldl (combine_local idx) acc locals)
                   (Some (repeat 0 n))
                   (visited nbins_x nbins_y nbins_T first last))).
  apply foldl_invariant; [ | intros p [= <-]; reflexivity ].
  intros acc idx _ Hacc. apply foldl_invariant; [ | exact Hacc ].
  intros acc1 a Ha Hacc1 p. unfold combine_local.
  destruct acc1 as [pcf0 | ]; [ | discriminate ].
  rewrite (Hacc1 pcf0 eq_refl).
  rewrite (proj1 (Forall_forall _ _) Hlocals a Ha).
  cbn [mbind option_bind].
  destruct (repeat 0 n !! idx) as [c | ] eqn:Hc; [ | discriminate ].
  cbn [mbind option_bind]. intros [= <-].
  pose proof (lookup_repeat_Some _ _ _ _ Hc) as ->.
  change (wrap32 (0 + 0)) with 0. now apply list_insert_id.
Qed.

(** X5: resetPCF returns and leaves every thread-local array with 0 in
    every bin; it keeps the number of thread-local arrays and leaves the
    canonical array as it was. *)
Theorem resetPCF_clears_thread_local_arrays (this : t) :
  well_sized this ->
  exists this',
    resetPCF this = Returned this'
    /\ this' = with_local_pcf_array (m_local_pcf_array this') this
    /\ m_local_pcf_array this'
       = map (fun _ => repeat 0 (Z.to_nat (bin_count this)))
             (m_local_pcf_array this)
    /\ well_sized this'.
Proof.
  intros Hws. destruct (well_sized_bytes this Hws) as [Hbytes Hpos].
  destruct Hws as (Hx & Hy & HT & Hfit & Hlen & Hlocals).
  unfold resetPCF. rewrite Hbytes, (clear_locals_whole _ _ Hpos Hlocals).
  eexists. split; [ reflexivity | ]. split; [ reflexivity | ].
  split; [ reflexivity | ].
  repeat split; try assumption. cbn [m_local_pcf_array].
  apply Forall_forall. intros a Ha. apply list_elem_of_fmap in Ha as (b & -> & _).
  apply repeat_length.
Qed.

(** X6: right after resetPCF, getPCF returns an array that holds 0 in
    every bin (when nbins_y is at most nbins_T, so that the reduction stays
    inside the arrays). *)
Theorem getPCF_after_resetPCF (this : t) :
  well_sized this -> indexes_bins this ->
  m_nbins_y this <= m_nbins_T this ->
  exists this1 this2,
    resetPCF this = Returned this1
    /\ getPCF this1
       = Returned (repeat 0 (Z.to_nat (bin_count this)), this2).
Proof.
  intros Hws Hidx Hyt.
  destruct (well_sized_bytes this Hws) as [Hbytes Hpos].
  pose proof Hws as (Hx & Hy & HT & Hfit & Hlen & Hlocals).
  unfold resetPCF. rewrite Hbytes, (clear_locals_whole _ _ Hpos Hlocals).
  eexists _, _. split; [ reflexivity | ].
  match goal with |- getPCF ?t1 = _ => set (this1 := t1) end.
  assert (Hws1 : well_sized this1).
  { repeat split; try assumption. cbn [m_local_pcf_array this1].
    apply Forall_forall. intros a Ha.
    apply list_elem_of_fmap in Ha as (b & -> & _). apply repeat_length. }
  unfold getPCF, reducePCF.
  change (bytes_of (m_nbins_x this1) (m_nbins_y this1) (m_nbins_T this1))
    with (bytes_of (m_nbins_x this) (m_nbins_y this) (m_nbins_T this)).
  rewrite Hbytes.
  rewrite (memset0_whole (m_pcf_array this1) _ Hpos Hlen).
  destruct (CombinePCFXYTM2D_call_indices
              this1 (repeat 0 (Z.to_nat (bin_count this)))
              0 (Z.to_nat (m_nbins_x this)) Hws1 Hidx Hyt
              (repeat_length _ _) (Nat.le_refl _))
    as (pcf' & Hrun & _).
  change (CombinePCFXYTM2D_call (m_nbins_x this1) (m_nbins_y this1)
            (m_nbins_T this1) (m_local_pcf_array this1))
    with (CombinePCFXYTM2D_call (m_nbins_x this) (m_nbins_y this)
            (m_nbins_T this) (m_local_pcf_array this1)) in Hrun.
  cbn [m_nbins_x m_nbins_y m_nbins_T this1].
  rewrite Hrun.
  assert (Hzero : Forall (fun a => a = repeat 0 (Z.to_nat (bin_count this)))
                         (m_local_pcf_array this1)).
  { apply Forall_forall. intros a Ha.
    apply list_elem_of_fmap in Ha as (b & -> & _). reflexivity. }
  rewrite (CombinePCFXYTM2D_call_zero _ _ _ _ _ _ _ _ Hzero Hrun).
  reflexivity.
Qed.

End PMFTLifecycle.


Section PMFTAccumulate.
Import PMFTXYTM2D.
Context {indexer : Indexer} {geometry : Geometry} {build : Build}.

Lemma position_Some (thread : nat) (owners : list nat) (k : nat) :
  position thread owners = Some k -> owners !! k = Some thread.
Proof.
  revert k. induction owners as [ | owner rest IH]; intros k; cbn [position].
  - discriminate.
  - destruct (decide (owner = thread)) as [-> | Hne].
    + now intros [= <-].
    + destruct (position thread rest) as [k' | ]; [ | discriminate ].
      intros [= <-]. now apply IH.
Qed.

Lemma position_None (thread : nat) (owners : list nat) :
  position thread owners = None -> thread ∉ owners.
Proof.
  induction owners as [ | owner rest IH]; cbn [position].
  - intros _. apply not_elem_of_nil.
  - destruct (decide (owner = thread)) as [-> | Hne]; [ discriminate | ].
    destruct (position thread rest) as [k' | ]; [ discriminate | ].
    intros _ [-> | Hin]%elem_of_cons; [ now apply Hne | now apply IH ].
Qed.

Lemma local_of_Forall (P : list Z -> Prop) (locals : list (list Z))
      (owners : list nat) (thread : nat) (a : list Z) :
  Forall P locals -> local_of locals owners thread = Some a -> P a.
Proof.
  intros Hall. unfold local_of.
  destruct (position thread owners) as [k | ]; [ | discriminate ].
  cbn [mbind option_bind]. intros Ha. exact (Forall_lookup_1 _ _ _ _ Hall Ha).
Qed.

(** Storing the array of a thread keeps one owner per array, keeps the
    arrays and owners that were there in their places, and keeps the owners
    different from one another. *)
Lemma store_local_keeps (P : list Z -> Prop) (locals : list (list Z))
      (owners : list nat) (thread : nat) (a : list Z) :
  length owners = length locals -> Forall P locals -> P a ->
  Forall P (fst (store_local locals owners thread a))
  /\ length (snd (store_local locals owners thread a))
     = length (fst (store_local locals owners thread a))
  /\ owners `prefix_of` snd (store_local locals owners thread a)
  /\ (NoDup owners -> NoDup (snd (store_local locals owners thread a))).
Proof.
  intros Hlen Hall Ha. unfold store_local.
  destruct (position thread owners) as [k | ] eqn:Hpos; cbn [fst snd].
  - split; [ now apply Forall_insert | ].
    split; [ now rewrite length_insert | ].
    split; [ reflexivity | auto ].
  - split; [ apply Forall_app; auto | ].
    split; [ rewrite !length_app; cbn; lia | ].
    split; [ now apply prefix_app_r | ].
    intros Hnd. apply NoDup_app. split; [ exact Hnd | ].
    split; [ | apply NoDup_singleton ].
    intros x Hx ->%list_elem_of_singleton.
    now apply (position_None _ _ Hpos).
Qed.

(** X7: a call of the accumulation functor on the range from [first] to
    [last] does what a call on the range from [first] to [mid] followed, on
    the same thread, by a call on the range from [mid] to [last] does. *)
Theorem ComputePMFTXYTM2D_call_split
        (this : t) (ref_points : pointer vec3) (ref_orientations : list float)
        (Nref : Z) (points : pointer vec3) (orientations : list float)
        (Np : Z) (slot : option (list Z)) (first mid last : nat) :
  (first <= mid <= last)%nat ->
  ComputePMFTXYTM2D_call this ref_points ref_orientations Nref points
                         orientations Np slot first last
  = match ComputePMFTXYTM2D_call this ref_points ref_orientations Nref points
                                 orientations Np slot first mid with
    | Returned local =>
        ComputePMFTXYTM2D_call this ref_points ref_orientations Nref points
                               orientations Np (Some local) mid last
    | Threw e => Threw e
    | Undefined => Undefined
    | Aborted => Aborted
    end.
Proof.
  intros H. unfold ComputePMFTXYTM2D_call.
  destruct (negb NDEBUG && negb (asserts_hold ref_points Nref points Np));
    [ reflexivity | ].
  destruct (local_array this slot) as [local0 | e | | ];
    [ | reflexivity | reflexivity | reflexivity ].
  replace (last - first)%nat with ((mid - first) + (last - mid))%nat by lia.
  rewrite seq_app, foldl_app.
  replace (first + (mid - first))%nat with mid by lia.
  match goal with
  | |- context [foldl ?f (Some local0) (seq first (mid - first))] =>
      destruct (foldl f (Some local0) (seq first (mid - first))) as [local | ]
  end.
  - reflexivity.
  - match goal with
    | |- match foldl ?f None ?xs with _ => _ end = _ =>
        replace (foldl f None xs) with (@None (list Z)); [ reflexivity | ]
    end.
    generalize (seq mid (last - mid)). intros xs.
    induction xs as [ | x xs IH]; [ reflexivity | exact IH ].
Qed.

(** X8: accumulate returns when neither pointer is null, there is at
    least one reference point and one point (so that the asserts pass in
    every build), and there are reference points, points and orientations
    for every index its loops visit.  It changes nothing but the
    thread-local arrays: the canonical array is as it was until the next
    getPCF.  Every thread-local array still has one element per bin; the
    arrays that were there stay with their threads, and each thread that ran
    has one array. *)
Theorem accumulate_fills_thread_local_arrays
        (this : t) (owners : list nat)
        (ref_points : list vec3) (ref_orientations : list float) (Nref : Z)
        (points : list vec3) (orientations : list float) (Np : Z)
        (tasks : list (nat * nat * nat)) :
  well_sized this -> indexes_bins this ->
  length owners = length (m_local_pcf_array this) ->
  0 < Nref -> 0 < Np ->
  (Z.to_nat Nref <= length ref_points)%nat ->
  length ref_orientations = length ref_points ->
  (Z.to_nat Np <= length points)%nat ->
  length orientations = length points ->
  (forall cell j, j ∈ itercell cell -> (j < Z.to_nat Np)%nat) ->
  Forall (fun task => (snd task <= Z.to_nat Nref)%nat) tasks ->
  exists this' owners',
    accumulate this owners (Some ref_points) ref_orientations Nref
               (Some points) orientations Np tasks
    = Returned (this', owners')
    /\ this' = with_local_pcf_array (m_local_pcf_array this') this
    /\ well_sized this'
    /\ length owners' = length (m_local_pcf_array this')
    /\ owners `prefix_of` owners'
    /\ (NoDup owners -> NoDup owners')
    /\ Forall (fun task => fst (fst task) ∈ owners') tasks.
Proof.
  intros Hws [Hrange _] Howners HNref HNp Hrp Hro Hpp Ho Hcells Htasks.
  pose proof Hws as (Hx & Hy & HT & Hfit & Hlen & Hlocals).
  unfold bin_count in *.
  pose proof (count_of_fits (m_nbins_x this) (m_nbins_y this) (m_nbins_T this)
                            ltac:(lia) ltac:(lia) ltac:(lia) Hfit)
    as Hcount.
  set (n := Z.to_nat (m_nbins_x this * m_nbins_y this * m_nbins_T this)) in *.
  assert (HQ : forall done rest, tasks = done ++ rest ->
            exists locals owners',
              foldl (accumulate_task (Some ref_points) ref_orientations Nref
                                     (Some points) orientations Np)
                    (Returned (this, owners)) done
              = Returned (with_local_pcf_array locals this, owners')
              /\ Forall (fun a => length a = n) locals
              /\ length owners' = length locals
              /\ owners `prefix_of` owners'
              /\ (NoDup owners -> NoDup owners')
              /\ Forall (fun task => fst (fst task) ∈ owners') done).
  { intros done. induction done as [ | task done IH] using rev_ind;
      intros rest Hsplit.
    - exists (m_local_pcf_array this), owners. cbn [foldl].
      split; [ destruct this; reflexivity | ].
      repeat split; auto.
    - rewrite <- app_assoc in Hsplit.
      destruct (IH _ Hsplit)
        as (locals & owners' & Hrun & Hall & Hlen' & Hpre & Hnd & Hthreads).
      rewrite foldl_app, Hrun. cbn [foldl].
      destruct task as [[thread first] last].
      assert (Hlast : (last <= Z.to_nat Nref)%nat).
      { apply (proj1 (Forall_forall _ _) Htasks (thread, first, last)).
        rewrite Hsplit. apply elem_of_app. right. left. }
      unfold accumulate_task.
      destruct (ComputePMFTXYTM2D_call_stays_inside
                  (with_local_pcf_array locals this)
                  ref_points ref_orientations Nref points orientations Np
                  (local_of locals owners' thread) first last)
        as (local & Hcall & Hlocal); try assumption; cbn; try lia.
      { intros a Ha. rewrite Hcount.
        exact (local_of_Forall _ _ _ _ _ Hall Ha). }
      { intros cell j Hj. pose proof (Hcells cell j Hj). lia. }
      cbn [m_local_pcf_array with_local_pcf_array] in *.
      rewrite Hcall.
      cbn in Hlocal. rewrite Hcount in Hlocal.
      destruct (store_local_keeps (fun a => length a = n) locals owners'
                                  thread local Hlen' Hall Hlocal)
        as (Hall2 & Hlen2 & Hpre2 & Hnd2).
      exists (fst (store_local locals owners' thread local)),
             (snd (store_local locals owners' thread local)).
      split; [ reflexivity | ].
      split; [ exact Hall2 | ]. split; [ exact Hlen2 | ].
      split; [ etransitivity; eassumption | ].
      split; [ auto | ].
      apply Forall_app. split.
      + eapply Forall_impl; [ exact Hthreads | ]. cbn. intros task Htask.
        destruct Hpre2 as [more ->]. apply elem_of_app. now left.
      + constructor; [ | constructor ]. cbn [fst].
        unfold store_local.
        destruct (position thread owners') as [k | ] eqn:Hpos; cbn [snd].
        * apply position_Some in Hpos.
          eapply list_elem_of_lookup_2. exact Hpos.
        * apply elem_of_app. right. left. }
  destruct (HQ tasks [] ltac:(now rewrite app_nil_r))
    as (locals & owners' & Hrun & Hall & Hlen' & Hpre & Hnd & Hthreads).
  exists (with_local_pcf_array locals this), owners'.
  split; [ exact Hrun | ]. split; [ reflexivity | ].
  split; [ repeat split; assumption | ].
  repeat split; assumption.
Qed.


End PMFTAccumulate.

(** ** PMFTXYTM2D: what the histogram counts *)

Section Congruence.
Import PMFTXYTM2D.

Lemma wrap32_eq_iff (a b : Z) :
  wrap32 a = wrap32 b <-> exists q, a = b + q * 2 ^ 32.
Proof.
  unfold wrap32. split.
  - intros H. exists (a / 2 ^ 32 - b / 2 ^ 32).
    pose proof (Z.div_mod a (2 ^ 32) ltac:(lia)).
    pose proof (Z.div_mod b (2 ^ 32) ltac:(lia)). lia.
  - intros [q ->]. apply Z_mod_plus_full.
Qed.

Lemma sumZ_app (xs ys : list Z) : sumZ (xs ++ ys) = sumZ xs + sumZ ys.
Proof.
  induction xs as [ | x xs IH]; cbn; [ reflexivity | ].
  fold (sumZ (xs ++ ys)). fold (sumZ xs). lia.
Qed.

Lemma sumZ_bind {A B : Type} (w : B -> Z) (g : A -> list B) (xs : list A) :
  sumZ (map w (xs ≫= g)) = sumZ (map (fun x => sumZ (map w (g x))) xs).
Proof.
  induction xs as [ | x xs IH]; [ reflexivity | ].
  rewrite bind_cons, map_app, sumZ_app, IH. reflexivity.
Qed.

Lemma sumZ_indicator {A : Type} (P : A -> Prop) `{forall x, Decision (P x)}
      (xs : list A) :
  sumZ (map (fun x => if decide (P x) then 1 else 0) xs)
  = Z.of_nat (length (filter P xs)).
Proof.
  induction xs as [ | x xs IH]; [ reflexivity | ].
  cbn [map]. rewrite filter_cons. unfold sumZ in *. cbn [foldr]. rewrite IH.
  destruct (decide (P x)); cbn [length]; lia.
Qed.

(** A loop whose every step adds, modulo 2^32, a weight to a measure of
    the state adds the sum of the weights. *)
Lemma foldl_measure {S B : Type} (f : S -> B -> S) (I : S -> Prop)
      (mu : S -> Z) (w : B -> Z) (xs : list B) (s : S) :
  (forall x s, x ∈ xs -> I s ->
               I (f s x) /\ wrap32 (mu (f s x)) = wrap32 (mu s + w x)) ->
  I s ->
  I (foldl f s xs)
  /\ wrap32 (mu (foldl f s xs)) = wrap32 (mu s + sumZ (map w xs)).
Proof.
  revert s. induction xs as [ | x xs IH]; intros s Hstep Hs.
  - split; [ exact Hs | ]. cbn. f_equal. lia.
  - cbn [foldl map]. destruct (Hstep x s ltac:(left) Hs) as [Hs' Hmu].
    destruct (IH (f s x)) as [HI Hmu']; [ | exact Hs' | ].
    { intros y s0 Hy. apply Hstep. now right. }
    split; [ exact HI | ].
    apply wrap32_eq_iff in Hmu as [q Hq].
    apply wrap32_eq_iff in Hmu' as [q' Hq'].
    apply wrap32_eq_iff. exists (q + q'). unfold sumZ in *. cbn [foldr]. lia.
Qed.

End Congruence.

Section PMFTCounting.
Import PMFTXYTM2D.
Context {indexer : Indexer} {geometry : Geometry} {build : Build}.

Lemma pair_body_binned (this : t) (ref : vec3) (ref_orientation : float)
      (point : vec3) (orientation : float) (local : list Z) :
  pair_body this ref ref_orientation point orientation local
  = match binned this ref ref_orientation point orientation with
    | Some (ibinx, ibiny, ibinT) =>
        increment local (Z.to_nat (Index3D (m_nbins_x this) (m_nbins_y this)
                                           (m_nbins_T this) ibinx ibiny ibinT))
    | None => Some local
    end.
Proof.
  unfold pair_body, binned, bin_that_point.
  destruct (bin_indices this ref ref_orientation point orientation)
    as [[[ibinx ibiny] ibinT] | ]; [ | reflexivity ].
  destruct ((ibinx <? m_nbins_x this) && (ibiny <? m_nbins_y this)
            && (ibinT <? m_nbins_T this)); reflexivity.
Qed.

(** A pair is only binned at indices below the bin counts. *)
Lemma binned_in_range (this : t) (ref : vec3) (ref_orientation : float)
      (point : vec3) (orientation : float) (i j k : Z) :
  binned this ref ref_orientation point orientation = Some (i, j, k) ->
  0 <= i < m_nbins_x this /\ 0 <= j < m_nbins_y this /\ 0 <= k < m_nbins_T this.
Proof.
  unfold binned, bin_indices.
  destruct (Float64.ltb _ _); [ discriminate | ].
  match goal with
  | |- context [if ?g then _ else _] => destruct g eqn:Hguard; [ | discriminate ]
  end.
  intros [= <- <- <-].
  apply andb_prop in Hguard as [Hguard HgT].
  apply andb_prop in Hguard as [Hgx Hgy].
  apply Z.ltb_lt in Hgx, Hgy, HgT.
  unfold wrap32 in *.
  repeat split; try assumption; apply Z.mod_pos_bound; lia.
Qed.

Lemma local_count_insert (local : list Z) (idx m : nat) (v : Z) :
  (idx < length local)%nat ->
  local_count m (<[idx := v]> local)
  = if decide (m = idx) then v else local_count m local.
Proof.
  intros Hlt. unfold local_count. destruct (decide (m = idx)) as [-> | Hne].
  - now rewrite list_lookup_insert_eq.
  - now rewrite list_lookup_insert_ne by auto.
Qed.

Lemma local_count_repeat0 (m n : nat) : local_count m (repeat 0 n) = 0.
Proof.
  unfold local_count. destruct (repeat 0 n !! m) as [c | ] eqn:Hc; [ | reflexivity ].
  cbn. now apply lookup_repeat_Some in Hc.
Qed.

Section Bin.
Variable this : t.
Variables i0 j0 k0 : Z.
Hypothesis Hws : well_sized this.
Hypothesis Hidx : indexes_bins this.
Hypothesis Hi0 : 0 <= i0 < m_nbins_x this.
Hypothesis Hj0 : 0 <= j0 < m_nbins_y this.
Hypothesis Hk0 : 0 <= k0 < m_nbins_T this.

(** One pair adds 1 to the bin it falls in and nothing to the others. *)
Lemma pair_body_counts (ref : vec3) (ref_orientation : float)
      (point : vec3) (orientation : float) (local : list Z) :
  length local = Z.to_nat (bin_count this) ->
  exists local',
    pair_body this ref ref_orientation point orientation local = Some local'
    /\ length local' = Z.to_nat (bin_count this)
    /\ wrap32 (local_count
                 (Z.to_nat (Index3D (m_nbins_x this) (m_nbins_y this)
                                    (m_nbins_T this) i0 j0 k0)) local')
       = wrap32 (local_count
                   (Z.to_nat (Index3D (m_nbins_x this) (m_nbins_y this)
                                      (m_nbins_T this) i0 j0 k0)) local
                 + (if decide (binned this ref ref_orientation point orientation
                               = Some (i0, j0, k0))
                    then 1 else 0)).
Proof.
  intros Hlen. destruct Hidx as [Hrange Hinj].
  rewrite pair_body_binned.
  destruct (binned this ref ref_orientation point orientation)
    as [[[i j] k] | ] eqn:Hb.
  - apply binned_in_range in Hb as (Hi & Hj & Hk).
    pose proof (Hrange i j k Hi Hj Hk) as Hin.
    pose proof (Hrange i0 j0 k0 Hi0 Hj0 Hk0) as Hin0.
    unfold increment.
    destruct (lookup_lt_is_Some_2 local
                (Z.to_nat (Index3D (m_nbins_x this) (m_nbins_y this)
                                   (m_nbins_T this) i j k)) ltac:(lia))
      as [c Hc].
    rewrite Hc. cbn [mbind option_bind]. eexists. split; [ reflexivity | ].
    split; [ now rewrite length_insert | ].
    rewrite local_count_insert by lia.
    destruct (decide (Some (i, j, k) = Some (i0, j0, k0))) as [Heq | Hne].
    + injection Heq as -> -> ->. rewrite decide_True by reflexivity.
      unfold local_count. rewrite Hc. cbn. apply wrap32_idem.
    + rewrite decide_False; [ f_equal; lia | ].
      intros Heq. apply Z2Nat.inj in Heq; try lia.
      destruct (Hinj i0 j0 k0 i j k) as (-> & -> & ->); auto.
  - exists local. split; [ reflexivity | ]. split; [ exact Hlen | ].
    rewrite decide_False by discriminate. f_equal. lia.
Qed.


Lemma local_array_returns (slot : option (list Z)) (m : nat) :
  (forall a, slot = Some a -> length a = Z.to_nat (bin_count this)) ->
  exists local0,
    local_array this slot = Returned local0
    /\ length local0 = Z.to_nat (bin_count this)
    /\ local_count m local0 = local_count m (default [] slot).
Proof.
  intros Hslot. unfold local_array. destruct slot as [a | ].
  - exists a. auto.
  - destruct (well_sized_bytes this Hws) as [Hbytes Hpos].
    destruct Hws as (Hx & Hy & HT & Hfit & _). unfold bin_count in *.
    rewrite (count_of_fits (m_nbins_x this) (m_nbins_y this) (m_nbins_T this))
      by lia.
    rewrite Hbytes, memset0_whole by (try apply repeat_length; lia).
    eexists. split; [ reflexivity | ]. split; [ apply repeat_length | ].
    apply local_count_repeat0.
Qed.

(** A call of the accumulation functor adds to a bin of the thread-local
    array the number of pairs of its range that fall in the bin. *)
Lemma ComputePMFTXYTM2D_call_counts
      (ref_points : list vec3) (ref_orientations : list float) (Nref : Z)
      (points : list vec3) (orientations : list float) (Np : Z)
      (slot : option (list Z)) (first last : nat) :
  0 < Nref -> 0 < Np ->
  (forall a, slot = Some a -> length a = Z.to_nat (bin_count this)) ->
  (last <= length ref_points)%nat ->
  length ref_orientations = length ref_points ->
  length orientations = length points ->
  (forall cell j, j ∈ itercell cell -> (j < length points)%nat) ->
  exists local,
    ComputePMFTXYTM2D_call this (Some ref_points) ref_orientations Nref
                           (Some points) orientations Np slot first last
    = Returned local
    /\ length local = Z.to_nat (bin_count this)
    /\ wrap32 (local_count
                 (Z.to_nat (Index3D (m_nbins_x this) (m_nbins_y this)
                                    (m_nbins_T this) i0 j0 k0)) local)
       = wrap32 (local_count
                   (Z.to_nat (Index3D (m_nbins_x this) (m_nbins_y this)
                                      (m_nbins_T this) i0 j0 k0))
                   (default [] slot)
                 + pair_count this ref_points ref_orientations points
                              orientations (i0, j0, k0)
                              (pairs ref_points first last)).
Proof.
  intros HNref HNp Hslot Hlast Hro Ho Hcells.
  set (m0 := Z.to_nat (Index3D (m_nbins_x this) (m_nbins_y this)
                               (m_nbins_T this) i0 j0 k0)).
  set (n := Z.to_nat (bin_count this)).
  destruct (local_array_returns slot m0 Hslot) as (local0 & Hla & Hlen0 & Hc0).
  unfold ComputePMFTXYTM2D_call.
  rewrite (asserts_pass ref_points Nref points Np HNref HNp), Hla.
  cbn [element].
  set (W := fun p : nat * nat =>
              if decide (binned_pair this ref_points ref_orientations points
                                     orientations p = Some (i0, j0, k0))
              then 1 else 0).
  set (I := fun acc : option (list Z) =>
              exists l, acc = Some l /\ length l = n).
  set (mu := fun acc : option (list Z) =>
               match acc with Some l => local_count m0 l | None => 0 end).
  match goal with
  | |- context [foldl ?f (Some local0) ?xs] =>
      destruct (foldl_measure f I mu
                  (fun i => sumZ (map W
                     match ref_points !! i with
                     | Some ref =>
                         neigh_cell ← getCellNeighbors (getCell ref);
                         j ← itercell neigh_cell; [(i, j)]
                     | None => []
                     end))
                  xs (Some local0))
        as [(local & Hrun & Hlen) Hmu]
  end.
  - intros i acc Hi (l & -> & Hl). cbn [mbind option_bind].
    apply elem_of_seq in Hi.
    destruct (lookup_lt_is_Some_2 ref_points i ltac:(lia)) as [ref Href].
    destruct (lookup_lt_is_Some_2 ref_orientations i ltac:(lia))
      as [ref_orientation Hrefo].
    rewrite Href, Hrefo. cbn [mbind option_bind].
    rewrite sumZ_bind.
    apply (foldl_measure _ I mu); [ | exists l; auto ].
    intros cell acc1 _ Hacc1. rewrite sumZ_bind.
    apply (foldl_measure _ I mu); [ | exact Hacc1 ].
    intros j acc2 Hj (l2 & -> & Hl2). cbn [mbind option_bind].
    pose proof (Hcells cell j Hj) as Hjlt.
    destruct (lookup_lt_is_Some_2 points j Hjlt) as [point Hpoint].
    destruct (lookup_lt_is_Some_2 orientations j ltac:(lia))
      as [orientation Horientation].
    rewrite Hpoint, Horientation. cbn [mbind option_bind].
    destruct (pair_body_counts ref ref_orientation point orientation l2 Hl2)
      as (l3 & -> & Hl3 & Hcount).
    split; [ exists l3; auto | ].
    cbn [mu map]. unfold sumZ. cbn [foldr]. rewrite Z.add_0_r.
    unfold W, binned_pair. cbn [fst snd].
    rewrite Href, Hrefo. cbn [mbind option_bind].
    rewrite Hpoint, Horientation. cbn [mbind option_bind].
    exact Hcount.
  - exists local0. auto.
  - rewrite Hrun. exists local. split; [ reflexivity | ]. split; [ exact Hlen | ].
    rewrite Hrun in Hmu. cbn [mu] in Hmu. rewrite Hmu, Hc0.
    f_equal. f_equal. unfold pair_count, pairs.
    rewrite <- (sumZ_indicator (fun p => binned_pair this ref_points
                                  ref_orientations points orientations p
                                = Some (i0, j0, k0))).
    now rewrite sumZ_bind.
Qed.

End Bin.

Lemma bin_total_app (locals : list (list Z)) (a : list Z) (m : nat) :
  bin_total (locals ++ [a]) m = bin_total locals m + local_count m a.
Proof.
  unfold bin_total. induction locals as [ | b locals IH]; cbn; [ ring | ].
  cbn in IH. rewrite IH. ring.
Qed.

Lemma bin_total_insert (locals : list (list Z)) (thread : nat) (a : list Z)
      (m : nat) :
  (thread < length locals)%nat ->
  bin_total (<[thread := a]> locals) m
  = bin_total locals m - local_count m (default [] (locals !! thread))
    + local_count m a.
Proof.
  unfold bin_total. revert thread.
  induction locals as [ | b locals IH]; intros thread Hlt; cbn in Hlt; [ lia | ].
  destruct thread as [ | thread].
  - cbn. ring.
  - change ((b :: locals) !! S thread) with (locals !! thread).
    cbn [insert list_insert map foldr]. fold (@insert _ _ _ (@list_insert (list Z))).
    rewrite IH by lia. ring.
Qed.

Lemma bin_total_store_local (locals : list (list Z)) (owners : list nat)
      (thread : nat) (a : list Z) (m : nat) :
  length owners = length locals ->
  bin_total (fst (store_local locals owners thread a)) m
  = bin_total locals m
    - local_count m (default [] (local_of locals owners thread))
    + local_count m a.
Proof.
  intros Hlen. unfold store_local, local_of.
  destruct (position thread owners) as [k | ] eqn:Hpos;
    cbn [fst mbind option_bind].
  - apply bin_total_insert. apply position_Some, lookup_lt_Some in Hpos. lia.
  - rewrite bin_total_app.
    change (local_count m (default [] None)) with 0. lia.
Qed.

(** A call of accumulate adds to the sum of a bin over the thread-local
    arrays the number of pairs of its sub-ranges that fall in the bin. *)
Lemma accumulate_counts (this : t) (owners : list nat) (i0 j0 k0 : Z)
      (ref_points : list vec3) (ref_orientations : list float) (Nref : Z)
      (points : list vec3) (orientations : list float) (Np : Z)
      (tasks : list (nat * nat * nat)) :
  well_sized this -> indexes_bins this ->
  length owners = length (m_local_pcf_array this) ->
  0 <= i0 < m_nbins_x this -> 0 <= j0 < m_nbins_y this ->
  0 <= k0 < m_nbins_T this ->
  0 < Nref -> 0 < Np ->
  (Z.to_nat Nref <= length ref_points)%nat ->
  length ref_orientations = length ref_points ->
  (Z.to_nat Np <= length points)%nat ->
  length orientations = length points ->
  (forall cell j, j ∈ itercell cell -> (j < Z.to_nat Np)%nat) ->
  Forall (fun task => (snd task <= Z.to_nat Nref)%nat) tasks ->
  exists locals owners',
    accumulate this owners (Some ref_points) ref_orientations Nref
               (Some points) orientations Np tasks
    = Returned (with_local_pcf_array locals this, owners')
    /\ Forall (fun a => length a = Z.to_nat (bin_count this)) locals
    /\ wrap32 (bin_total locals
                 (Z.to_nat (Index3D (m_nbins_x this) (m_nbins_y this)
                                    (m_nbins_T this) i0 j0 k0)))
       = wrap32 (bin_total (m_local_pcf_array this)
                   (Z.to_nat (Index3D (m_nbins_x this) (m_nbins_y this)
                                      (m_nbins_T this) i0 j0 k0))
                 + pair_count this ref_points ref_orientations points
                              orientations (i0, j0, k0)
                              (task_pairs ref_points tasks)).
Proof.
  intros Hws Hidx Howners Hi0 Hj0 Hk0 HNref HNp Hrp Hro Hpp Ho Hcells Htasks.
  pose proof Hws as (Hx & Hy & HT & Hfit & Hlen & Hlocals).
  set (m0 := Z.to_nat (Index3D (m_nbins_x this) (m_nbins_y this)
                               (m_nbins_T this) i0 j0 k0)).
  set (I := fun acc : outcome (t * list nat) =>
              exists locals owners',
                acc = Returned (with_local_pcf_array locals this, owners')
                /\ Forall (fun a => length a = Z.to_nat (bin_count this)) locals
                /\ length owners' = length locals).
  set (mu := fun acc : outcome (t * list nat) =>
               match acc with
               | Returned (th, _) => bin_total (m_local_pcf_array th) m0
               | _ => 0
               end).
  destruct (foldl_measure
              (accumulate_task (Some ref_points) ref_orientations Nref
                               (Some points) orientations Np)
              I mu
              (fun task => pair_count this ref_points ref_orientations points
                                      orientations (i0, j0, k0)
                                      (pairs ref_points (snd (fst task))
                                             (snd task)))
              tasks (Returned (this, owners)))
    as [(locals & owners' & Hrun & Hall & Hlen') Hmu].
  - intros [[thread first] last] acc Htask (locals & owners' & -> & Hall & Hlen').
    pose proof (proj1 (Forall_forall _ _) Htasks _ Htask) as Hlast.
    cbn [fst snd] in *. unfold accumulate_task.
    destruct (ComputePMFTXYTM2D_call_counts
                (with_local_pcf_array locals this) i0 j0 k0
                ltac:(repeat split; assumption) Hidx Hi0 Hj0 Hk0
                ref_points ref_orientations Nref points orientations Np
                (local_of locals owners' thread) first last)
      as (local & Hcall & Hlocal & Hcount); try assumption; try lia.
    { intros a Ha. exact (local_of_Forall _ _ _ _ _ Hall Ha). }
    { intros cell j Hj. pose proof (Hcells cell j Hj). lia. }
    change (bin_count (with_local_pcf_array locals this))
      with (bin_count this) in Hlocal.
    cbn [m_nbins_x m_nbins_y m_nbins_T m_local_pcf_array with_local_pcf_array]
      in *.
    rewrite Hcall.
    destruct (store_local_keeps (fun a => length a = Z.to_nat (bin_count this))
                                locals owners' thread local Hlen' Hall Hlocal)
      as (Hall2 & Hlen2 & _).
    split.
    + exists (fst (store_local locals owners' thread local)),
             (snd (store_local locals owners' thread local)).
      split; [ reflexivity | ]. split; assumption.
    + cbn [mu m_local_pcf_array with_local_pcf_array].
      rewrite (bin_total_store_local _ _ _ _ _ Hlen').
      apply wrap32_eq_iff in Hcount as [q Hq]. apply wrap32_eq_iff.
      exists q. fold m0 in Hq.
      change (pair_count (with_local_pcf_array locals this))
        with (pair_count this) in Hq.
      lia.
  - exists (m_local_pcf_array this), owners. split; [ | auto ].
    destruct this; reflexivity.
  - exists locals, owners'. unfold accumulate. split; [ exact Hrun | ].
    split; [ exact Hall | ].
    rewrite Hrun in Hmu.
    cbn [mu m_local_pcf_array with_local_pcf_array] in Hmu.
    rewrite Hmu. f_equal. f_equal.
    unfold pair_count at 2. unfold task_pairs.
    rewrite <- (sumZ_indicator (fun p => binned_pair this ref_points
                                  ref_orientations points orientations p
                                = Some (i0, j0, k0))).
    rewrite sumZ_bind. f_equal. apply map_ext. intros task.
    unfold pair_count. now rewrite sumZ_indicator.
Qed.

(** X9: the histogram counts pairs.  After accumulate, getPCF returns
    an array whose bin (i, j, k), for k below nbins_y, holds what the
    thread-local arrays held in that bin before, plus the number of pairs
    (reference point, point) visited by accumulate that fall in the bin,
    in unsigned int arithmetic. *)
Theorem getPCF_after_accumulate_counts_pairs
        (this : t) (owners : list nat)
        (ref_points : list vec3) (ref_orientations : list float) (Nref : Z)
        (points : list vec3) (orientations : list float) (Np : Z)
        (tasks : list (nat * nat * nat)) :
  well_sized this -> indexes_bins this ->
  m_nbins_y this <= m_nbins_T this ->
  length owners = length (m_local_pcf_array this) ->
  0 < Nref -> 0 < Np ->
  (Z.to_nat Nref <= length ref_points)%nat ->
  length ref_orientations = length ref_points ->
  (Z.to_nat Np <= length points)%nat ->
  length orientations = length points ->
  (forall cell j, j ∈ itercell cell -> (j < Z.to_nat Np)%nat) ->
  Forall (fun task => (snd task <= Z.to_nat Nref)%nat) tasks ->
  exists this1 owners1 pcf this2,
    accumulate this owners (Some ref_points) ref_orientations Nref
               (Some points) orientations Np tasks
    = Returned (this1, owners1)
    /\ getPCF this1 = Returned (pcf, this2)
    /\ forall i j k,
         0 <= i < m_nbins_x this -> 0 <= j < m_nbins_y this ->
         0 <= k < m_nbins_y this ->
         bin this pcf i j k
         = Some (wrap32
                   (bin_total (m_local_pcf_array this)
                      (Z.to_nat (Index3D (m_nbins_x this) (m_nbins_y this)
                                         (m_nbins_T this) i j k))
                    + pair_count this ref_points ref_orientations points
                                 orientations (i, j, k)
                                 (task_pairs ref_points tasks))).
Proof.
  intros Hws Hidx Hyt Howners HNref HNp Hrp Hro Hpp Ho Hcells Htasks.
  pose proof Hws as (Hx & Hy & HT & Hfit & Hlen & Hlocals).
  destruct (accumulate_counts this owners 0 0 0 ref_points ref_orientations
              Nref points orientations Np tasks Hws Hidx Howners
              ltac:(lia) ltac:(lia) ltac:(lia)
              HNref HNp Hrp Hro Hpp Ho Hcells Htasks)
    as (locals & owners1 & Hacc & Hall & _).
  assert (Hws1 : well_sized (with_local_pcf_array locals this))
    by (repeat split; assumption).
  destruct (reducePCF_bins (with_local_pcf_array locals this) Hws1 Hidx Hyt)
    as (this2 & Hred & _ & _ & Hbins).
  exists (with_local_pcf_array locals this), owners1, (m_pcf_array this2), this2.
  split; [ exact Hacc | ].
  split; [ unfold getPCF; now rewrite Hred | ].
  intros i j k Hi Hj Hk.
  destruct (accumulate_counts this owners i j k ref_points ref_orientations
              Nref points orientations Np tasks Hws Hidx Howners
              Hi Hj ltac:(lia)
              HNref HNp Hrp Hro Hpp Ho Hcells Htasks)
    as (locals' & owners1' & Hacc' & _ & Hcount).
  rewrite Hacc in Hacc'. injection Hacc' as <- <-.
  pose proof (Hbins i j k Hi Hj ltac:(cbn; lia)) as Hbin.
  cbn [m_nbins_x m_nbins_y m_nbins_T m_local_pcf_array with_local_pcf_array]
    in Hbin.
  unfold bin in *.
  cbn [m_nbins_x m_nbins_y m_nbins_T with_local_pcf_array] in Hbin.
  rewrite Hbin.
  destruct (Z.ltb_spec k (m_nbins_y this)); [ | lia ].
  now rewrite Hcount.
Qed.

End PMFTCounting.

Section PMFTLifecycleExamples.
Import PMFTXYTM2D.

Lemma two_two_three_well_sized : well_sized two_two_three.
Proof.
  unfold well_sized, bin_count. cbn.
  repeat split; try lia. constructor.
Qed.

Lemma example_geometry_cells (cell j : nat) :
  j ∈ itercell (Geometry := example_geometry) cell ->
  (j < Z.to_nat 2)%nat.
Proof.
  cbn. intros Hj.
  apply elem_of_cons in Hj as [-> | Hj]; [ lia | ].
  apply elem_of_cons in Hj as [-> | Hj]; [ lia | ].
  inversion Hj.
Qed.

Lemma example_tasks_in_range :
  Forall (fun task : nat * nat * nat => (snd task <= Z.to_nat 2)%nat)
         example_tasks.
Proof. repeat constructor. Qed.

Lemma resetPCF_clears_thread_local_arrays_witness :
  exists this',
    resetPCF two_threads = Returned this'
    /\ this' = with_local_pcf_array (m_local_pcf_array this') two_threads
    /\ m_local_pcf_array this'
       = map (fun _ => repeat 0 (Z.to_nat (bin_count two_threads)))
             (m_local_pcf_array two_threads)
    /\ well_sized this'.
Proof.
  apply (resetPCF_clears_thread_local_arrays two_threads two_threads_well_sized).
Defined.

Lemma getPCF_after_resetPCF_witness :
  exists this1 this2,
    resetPCF two_threads = Returned this1
    /\ getPCF (indexer := row_major) this1
       = Returned (repeat 0 (Z.to_nat (bin_count two_threads)), this2).
Proof.
  apply (getPCF_after_resetPCF (indexer := row_major) two_threads
           two_threads_well_sized
           (row_major_indexes_bins two_threads two_threads_well_sized)).
  cbn. lia.
Defined.

Lemma ComputePMFTXYTM2D_call_split_witness :
  ComputePMFTXYTM2D_call (indexer := row_major) (geometry := example_geometry)
    (build := debug_build)
    two_two_three (Some example_points) example_orientations 2
    (Some example_points) example_orientations 2 None 0 2
  = match ComputePMFTXYTM2D_call (indexer := row_major)
            (geometry := example_geometry) (build := debug_build)
            two_two_three (Some example_points) example_orientations 2
            (Some example_points) example_orientations 2 None 0 1 with
    | Returned local =>
        ComputePMFTXYTM2D_call (indexer := row_major)
          (geometry := example_geometry) (build := debug_build)
          two_two_three (Some example_points) example_orientations 2
          (Some example_points) example_orientations 2 (Some local) 1 2
    | Threw e => Threw e
    | Undefined => Undefined
    | Aborted => Aborted
    end.
Proof.
  apply (ComputePMFTXYTM2D_call_split (indexer := row_major)
           (geometry := example_geometry) (build := debug_build)
           two_two_three (Some example_points) example_orientations 2
           (Some example_points) example_orientations 2 None 0 1 2).
  lia.
Defined.

Lemma accumulate_fills_thread_local_arrays_witness :
  exists this' owners',
    accumulate (indexer := row_major) (geometry := example_geometry)
               (build := debug_build)
               two_two_three [] (Some example_points) example_orientations 2
               (Some example_points) example_orientations 2 example_tasks
    = Returned (this', owners')
    /\ this' = with_local_pcf_array (m_local_pcf_array this') two_two_three
    /\ well_sized this'
    /\ length owners' = length (m_local_pcf_array this')
    /\ [] `prefix_of` owners'
    /\ (NoDup (@nil nat) -> NoDup owners')
    /\ Forall (fun task : nat * nat * nat => fst (fst task) ∈ owners')
              example_tasks.
Proof.
  apply (accumulate_fills_thread_local_arrays
           (indexer := row_major) (geometry := example_geometry)
           (build := debug_build)
           two_two_three [] example_points example_orientations 2
           example_points example_orientations 2 example_tasks
           two_two_three_well_sized
           (row_major_indexes_bins two_two_three two_two_three_well_sized)
           eq_refl ltac:(lia) ltac:(lia) ltac:(cbn; lia) eq_refl
           ltac:(cbn; lia) eq_refl
           example_geometry_cells example_tasks_in_range).
Defined.

Lemma getPCF_after_accumulate_counts_pairs_witness :
  exists this1 owners1 pcf this2,
    accumulate (indexer := row_major) (geometry := example_geometry)
               (build := debug_build)
               two_two_three [] (Some example_points) example_orientations 2
               (Some example_points) example_orientations 2 example_tasks
    = Returned (this1, owners1)
    /\ getPCF (indexer := row_major) this1 = Returned (pcf, this2)
    /\ forall i j k,
         0 <= i < m_nbins_x two_two_three ->
         0 <= j < m_nbins_y two_two_three ->
         0 <= k < m_nbins_y two_two_three ->
         bin (indexer := row_major) two_two_three pcf i j k
         = Some (wrap32
                   (bin_total (m_local_pcf_array two_two_three)
                      (Z.to_nat (Index3D (Indexer := row_major)
                                         (m_nbins_x two_two_three)
                                         (m_nbins_y two_two_three)
                                         (m_nbins_T two_two_three) i j k))
                    + pair_count (geometry := example_geometry)
                                 two_two_three example_points
                                 example_orientations example_points
                                 example_orientations (i, j, k)
                                 (task_pairs (geometry := example_geometry)
                                             example_points example_tasks))).
Proof.
  apply (getPCF_after_accumulate_counts_pairs
           (indexer := row_major) (geometry := example_geometry)
           (build := debug_build)
           two_two_three [] example_points example_orientations 2
           example_points example_orientations 2 example_tasks
           two_two_three_well_sized
           (row_major_indexes_bins two_two_three two_two_three_well_sized)).
  - cbn. lia.
  - reflexivity.
  - lia.
  - lia.
  - cbn. lia.
  - reflexivity.
  - cbn. lia.
  - reflexivity.
  - exact example_geometry_cells.
  - exact example_tasks_in_range.
Defined.


End PMFTLifecycleExamples.

(** ** PMFTXYTM2D: what the constructor allocates *)

Section PMFTAllocation.
Import PMFTXYTM2D.

(** The number of elements that the constructor allocates and the number
    of bytes that it clears, in terms of the product of the bin counts. *)
Lemma count_of_mod (a b c : Z) : count_of a b c = (a * b * c) mod 2 ^ 32.
Proof. unfold count_of, wrap32. now rewrite Z.mul_mod_idemp_l by lia. Qed.

Lemma bytes_of_mod (a b c : Z) : bytes_of a b c = 4 * ((a * b * c) mod 2 ^ 62).
Proof.
  unfold bytes_of, wrap64.
  rewrite Z.mul_mod_idemp_l, <- Z.mul_assoc, Z.mul_mod_idemp_l by lia.
  replace (4 * a * (b * c)) with (4 * (a * b * c)) by ring.
  change (2 ^ 64) with (4 * 2 ^ 62).
  apply Z.mul_mod_distr_l; lia.
Qed.

(** Clearing stays inside the allocation exactly when the product of the
    bin counts, reduced modulo 2^62, is below 2^32. *)
Lemma allocation_cleared (a b c : Z) :
  bytes_of a b c <= 4 * Z.of_nat (Z.to_nat (count_of a b c))
  <-> (a * b * c) mod 2 ^ 62 < 2 ^ 32.
Proof.
  rewrite count_of_mod, bytes_of_mod.
  set (p := a * b * c).
  pose proof (Z.mod_pos_bound p (2 ^ 62) ltac:(lia)) as Hq.
  pose proof (Z.mod_pos_bound p (2 ^ 32) ltac:(lia)) as Hr.
  assert (Hmm : p mod 2 ^ 32 = (p mod 2 ^ 62) mod 2 ^ 32).
  { symmetry. apply Z.mod_mod_divide. exists (2 ^ 30). reflexivity. }
  rewrite Z2Nat.id by lia. split.
  - intros H. rewrite Hmm in H.
    pose proof (Z.mod_pos_bound (p mod 2 ^ 62) (2 ^ 32) ltac:(lia)). lia.
  - intros H. rewrite Hmm, (Z.mod_small (p mod 2 ^ 62)) by lia. lia.
Qed.

(** The outcome of a constructor call whose checks all pass. *)
Lemma PMFTXYTM2D_checks_pass
      (max_x max_y max_T : float) (nbins_x nbins_y nbins_T : Z)
      (indeterminate : float) :
  throws (PMFTXYTM2D max_x max_y max_T nbins_x nbins_y nbins_T indeterminate)
  = false ->
  1 <= nbins_x /\ 1 <= nbins_y /\ 1 <= nbins_T
  /\ PMFTXYTM2D max_x max_y max_T nbins_x nbins_y nbins_T indeterminate
     = match memset0 (repeat 0 (Z.to_nat (count_of nbins_T nbins_y nbins_x)))
                     (bytes_of nbins_T nbins_y nbins_x) with
       | Returned pcf0 =>
           Returned
             {| m_max_x := max_x; m_max_y := max_y; m_max_T := indeterminate;
                m_dx := bin_width max_x nbins_x;
                m_dy := bin_width max_y nbins_y;
                m_dT := bin_width indeterminate nbins_T;
                m_nbins_x := nbins_x; m_nbins_y := nbins_y;
                m_nbins_T := nbins_T;
                m_x_array := bin_centers max_x (bin_width max_x nbins_x) nbins_x;
                m_y_array := bin_centers max_y (bin_width max_y nbins_y) nbins_y;
                m_T_array := bin_centers indeterminate
                                         (bin_width indeterminate nbins_T)
                                         nbins_T;
                m_pcf_array := pcf0;
                m_local_pcf_array := [];
                m_lc_width :=
                  Float32.sqrtf (Float32.add (Float32.mul max_x max_x)
                                             (Float32.mul max_y max_y)) |}
       | Threw e => Threw e
       | Undefined => Undefined
       | Aborted => Aborted
       end.
Proof.
  unfold PMFTXYTM2D.
  destruct (Z.ltb_spec nbins_x 1); [ discriminate | ].
  destruct (Z.ltb_spec nbins_y 1); [ discriminate | ].
  destruct (Z.ltb_spec nbins_T 1); [ discriminate | ].
  repeat match goal with
         | |- context [if ?b then _ else _] => destruct b; [ discriminate | ]
         end.
  intros _. repeat split; lia.
Qed.

(** X10: the constructor does not check that the product of the bin
    counts fits an unsigned int.  When its checks pass, it returns exactly
    when that product, reduced modulo 2^62, is below 2^32, with a canonical
    array of the product modulo 2^32 elements; otherwise its memset clears
    bytes past the end of the array it has just allocated. *)
Theorem PMFTXYTM2D_returns_iff_allocation_cleared
        (max_x max_y max_T : float) (nbins_x nbins_y nbins_T : Z)
        (indeterminate : float) :
  throws (PMFTXYTM2D max_x max_y max_T nbins_x nbins_y nbins_T indeterminate)
  = false ->
  if (nbins_x * nbins_y * nbins_T) mod 2 ^ 62 <? 2 ^ 32
  then exists this,
         PMFTXYTM2D max_x max_y max_T nbins_x nbins_y nbins_T indeterminate
         = Returned this
         /\ length (m_pcf_array this)
            = Z.to_nat ((nbins_x * nbins_y * nbins_T) mod 2 ^ 32)
  else PMFTXYTM2D max_x max_y max_T nbins_x nbins_y nbins_T indeterminate
       = Undefined.
Proof.
  intros Hpass.
  destruct (PMFTXYTM2D_checks_pass _ _ _ _ _ _ _ Hpass) as (_ & _ & _ & ->).
  assert (Hcount : count_of nbins_T nbins_y nbins_x
                   = (nbins_x * nbins_y * nbins_T) mod 2 ^ 32).
  { rewrite count_of_mod. f_equal. ring. }
  assert (Hbytes : bytes_of nbins_T nbins_y nbins_x
                   = 4 * ((nbins_x * nbins_y * nbins_T) mod 2 ^ 62)).
  { rewrite bytes_of_mod. do 2 f_equal. ring. }
  pose proof (allocation_cleared nbins_T nbins_y nbins_x) as Hclear.
  rewrite Hcount, Hbytes in *.
  replace (nbins_T * nbins_y * nbins_x) with (nbins_x * nbins_y * nbins_T)
    in Hclear by ring.
  set (p := nbins_x * nbins_y * nbins_T) in *.
  pose proof (Z.mod_pos_bound p (2 ^ 32) ltac:(lia)).
  pose proof (Z.mod_pos_bound p (2 ^ 62) ltac:(lia)).
  unfold memset0. rewrite repeat_length.
  destruct (Z.ltb_spec (p mod 2 ^ 62) (2 ^ 32)) as [Hlt | Hge];
    destruct (Z.leb_spec (4 * (p mod 2 ^ 62))
                (4 * Z.of_nat (Z.to_nat (p mod 2 ^ 32)))) as [Hle | Hgt];
    try (apply Hclear in Hlt; lia); try (apply Hclear in Hle; lia);
    try reflexivity.
  eexists. split; [ reflexivity | ]. cbn [m_pcf_array].
  rewrite length_app, repeat_length, length_drop, repeat_length.
  replace (4 * (p mod 2 ^ 62) / 4) with (p mod 2 ^ 62)
    by (apply Z.div_unique_exact; lia).
  lia.
Qed.

(** X11: an instance that the constructor returns, for bin counts whose
    product is below 2^62, is correctly sized: the product of its bin
    counts fits an unsigned int, its canonical array has one element per
    bin and holds 0 everywhere, there is no thread-local array yet, and the
    three arrays of bin centres have one element per bin of their axis.
    The maximum it records for T is the indeterminate content of m_max_T,
    not the argument. *)
Theorem PMFTXYTM2D_returns_well_sized
        (max_x max_y max_T : float) (nbins_x nbins_y nbins_T : Z)
        (indeterminate : float) (this : t) :
  PMFTXYTM2D max_x max_y max_T nbins_x nbins_y nbins_T indeterminate
  = Returned this ->
  nbins_x * nbins_y * nbins_T < 2 ^ 62 ->
  well_sized this
  /\ m_nbins_x this = nbins_x /\ m_nbins_y this = nbins_y
  /\ m_nbins_T this = nbins_T
  /\ m_pcf_array this = repeat 0 (Z.to_nat (nbins_x * nbins_y * nbins_T))
  /\ m_local_pcf_array this = []
  /\ length (m_x_array this) = Z.to_nat nbins_x
  /\ length (m_y_array this) = Z.to_nat nbins_y
  /\ length (m_T_array this) = Z.to_nat nbins_T
  /\ m_max_x this = max_x /\ m_max_y this = max_y
  /\ m_max_T this = indeterminate.
Proof.
  intros Hret Hfit62.
  assert (Hpass : throws (PMFTXYTM2D max_x max_y max_T nbins_x nbins_y nbins_T
                                     indeterminate) = false)
    by now rewrite Hret.
  destruct (PMFTXYTM2D_checks_pass _ _ _ _ _ _ _ Hpass)
    as (Hx & Hy & HT & Heq).
  rewrite Heq in Hret. clear Heq Hpass.
  assert (Hpos : 0 <= nbins_x * nbins_y * nbins_T)
    by (apply Z.mul_nonneg_nonneg; [ apply Z.mul_nonneg_nonneg | ]; lia).
  pose proof (allocation_cleared nbins_T nbins_y nbins_x) as Hclear.
  replace (nbins_T * nbins_y * nbins_x) with (nbins_x * nbins_y * nbins_T)
    in Hclear by ring.
  rewrite (Z.mod_small _ (2 ^ 62)) in Hclear by lia.
  unfold memset0 in Hret. rewrite repeat_length in Hret.
  destruct (Z.leb_spec (bytes_of nbins_T nbins_y nbins_x)
              (4 * Z.of_nat (Z.to_nat (count_of nbins_T nbins_y nbins_x))))
    as [Hle | Hgt]; [ | discriminate ].
  apply Hclear in Hle.
  assert (Hcount : count_of nbins_T nbins_y nbins_x
                   = nbins_x * nbins_y * nbins_T).
  { rewrite count_of_mod.
    replace (nbins_T * nbins_y * nbins_x) with (nbins_x * nbins_y * nbins_T)
      by ring.
    apply Z.mod_small. lia. }
  assert (Hbytes : bytes_of nbins_T nbins_y nbins_x
                   = 4 * (nbins_x * nbins_y * nbins_T)).
  { rewrite bytes_of_mod.
    replace (nbins_T * nbins_y * nbins_x) with (nbins_x * nbins_y * nbins_T)
      by ring.
    rewrite Z.mod_small; lia. }
  rewrite Hcount, Hbytes in Hret.
  replace (4 * (nbins_x * nbins_y * nbins_T) / 4)
    with (nbins_x * nbins_y * nbins_T) in Hret
    by (apply Z.div_unique_exact; lia).
  rewrite <- (repeat_length 0 (Z.to_nat (nbins_x * nbins_y * nbins_T))) in Hret
    at 2.
  rewrite drop_all, app_nil_r in Hret.
  injection Hret as <-.
  unfold well_sized, bin_count, bin_centers. cbn.
  rewrite !length_map, !length_seq, repeat_length.
  repeat split; try lia; try reflexivity. constructor.
Qed.

End PMFTAllocation.

(** ** Not-a-number arguments *)

Section NotANumber.

Lemma SFltb_nan_l (x : spec_float) : SFltb S754_nan x = false.
Proof. reflexivity. Qed.

Lemma SFltb_nan_r (x : spec_float) : SFltb x S754_nan = false.
Proof. now destruct x. Qed.

Lemma SFleb_nan_l (x : spec_float) : SFleb S754_nan x = false.
Proof. reflexivity. Qed.

Lemma SFleb_nan_r (x : spec_float) : SFleb x S754_nan = false.
Proof. now destruct x. Qed.

Lemma bin_width_nan (m_nbins : Z) :
  PMFTXYTM2D.bin_width S754_nan m_nbins = S754_nan.
Proof.
  unfold PMFTXYTM2D.bin_width.
  change (Float64.mul Float64.two (Float32.to_double S754_nan)) with S754_nan.
  unfold Float64.div, SFdiv.
  now destruct (Float32.to_double (Float32.of_uint m_nbins)).
Qed.

(** X12: the checks of the Steinhardt constructor are comparisons, and
    every comparison with a NaN is false: a NaN cutoff is accepted.  With
    rmax or rmin a NaN, the other one not negative and l at least 2, the
    constructor returns an instance that holds the NaN. *)
Theorem Steinhardt_accepts_nan_cutoff
        (rmax : float) (l : Z) (rmin : float) (average norm Wl : bool) :
  rmax = S754_nan \/ rmin = S754_nan ->
  Float32.ltb rmax Float32.zero = false ->
  Float32.ltb rmin Float32.zero = false ->
  2 <= l ->
  exists this,
    Steinhardt.Steinhardt rmax l rmin average norm Wl = Returned this
    /\ Steinhardt.m_rmax this = rmax /\ Steinhardt.m_rmin this = rmin.
Proof.
  intros Hnan Hrmax Hrmin Hl. unfold Steinhardt.Steinhardt.
  cbn [Steinhardt.m_rmax Steinhardt.m_rmin Steinhardt.m_l].
  rewrite Hrmax, Hrmin. cbn [orb].
  assert (Hgeb : Float32.geb rmin rmax = false).
  { unfold Float32.geb.
    destruct Hnan as [-> | ->]; [ apply SFleb_nan_l | apply SFleb_nan_r ]. }
  rewrite Hgeb.
  destruct (Z.ltb_spec l 2); [ lia | ].
  eexists. split; [ reflexivity | ]. split; reflexivity.
Qed.

(** X13: NaN maxima pass every check of the PMFTXYTM2D constructor,
    whatever the bin counts (at least 1 each, their product below 2^32)
    and whatever m_max_T holds: the instance it returns has NaN bin widths
    in x and y and a NaN cell width. *)
Theorem PMFTXYTM2D_accepts_nan_maxima
        (nbins_x nbins_y nbins_T : Z) (indeterminate : float) :
  1 <= nbins_x -> 1 <= nbins_y -> 1 <= nbins_T ->
  nbins_x * nbins_y * nbins_T < 2 ^ 32 ->
  exists this,
    PMFTXYTM2D.PMFTXYTM2D S754_nan S754_nan S754_nan nbins_x nbins_y nbins_T
                          indeterminate
    = Returned this
    /\ PMFTXYTM2D.m_dx this = S754_nan /\ PMFTXYTM2D.m_dy this = S754_nan
    /\ PMFTXYTM2D.m_lc_width this = S754_nan.
Proof.
  intros Hx Hy HT Hfit.
  destruct (PMFTXYTM2D_returns_when_checks_pass
              S754_nan S754_nan S754_nan nbins_x nbins_y nbins_T indeterminate)
    as [this Hthis].
  1-3: apply Z.ltb_ge; lia.
  1-3: reflexivity.
  1-2: rewrite bin_width_nan; reflexivity.
  - apply SFltb_nan_l.
  - apply allocation_cleared.
    assert (0 <= nbins_T * nbins_y * nbins_x) by nia.
    rewrite Z.mod_small; lia.
  - exists this. split; [ exact Hthis | ].
    revert Hthis. unfold PMFTXYTM2D.PMFTXYTM2D.
    repeat match goal with
           | |- context [if ?b then _ else _] => destruct b; [ discriminate | ]
           end.
    destruct (PMFTXYTM2D.memset0 _ _); try discriminate.
    intros [= <-].
    cbn [PMFTXYTM2D.m_dx PMFTXYTM2D.m_dy PMFTXYTM2D.m_lc_width].
    rewrite !bin_width_nan. repeat split; reflexivity.
Qed.

End NotANumber.

(** ** PMFTXYTM2D: when the reduction leaves the arrays *)

Section PMFTReductionBounds.
Import PMFTXYTM2D.
Context {indexer : Indexer}.

Lemma foldl_combine_length (idxs : list nat) (locals : list (list Z))
      (pcf pcf' : list Z) :
  foldl (fun acc idx => foldl (combine_local idx) acc locals) (Some pcf) idxs
  = Some pcf' ->
  length pcf' = length pcf.
Proof.
  set (P := fun acc : option (list Z) =>
              forall p, acc = Some p -> length p = length pcf).
  intros Hrun. revert pcf' Hrun.
  change (P (foldl (fun acc idx => foldl (combine_local idx) acc locals)
                   (Some pcf) idxs)).
  apply foldl_invariant; [ | intros p [= <-]; reflexivity ].
  intros acc idx _ Hacc. apply foldl_invariant; [ | exact Hacc ].
  intros acc1 a _ Hacc1 p Hp.
  apply combine_local_length in Hp as (pcf0 & -> & ->). now apply Hacc1.
Qed.

Lemma foldl_combine_local_outside (idx : nat) (locals : list (list Z))
      (acc : option (list Z)) :
  locals <> [] -> (forall p, acc = Some p -> p !! idx = None) ->
  foldl (combine_local idx) acc locals = None.
Proof.
  intros Hne Hout. destruct locals as [ | a rest]; [ congruence | ].
  cbn [foldl].
  replace (combine_local idx acc a) with (@None (list Z)).
  - clear. induction rest as [ | b rest IH]; [ reflexivity | exact IH ].
  - unfold combine_local. destruct acc as [p | ]; [ | reflexivity ].
    cbn [mbind option_bind]. now rewrite (Hout p eq_refl).
Qed.

(** X14: the reduction visits the bins (i, j, k) with k below nbins_y.
    When there is a thread-local array and one of these bins is mapped by
    Index3D to the number of bins or beyond (as with nbins_T below nbins_y
    and k from nbins_T on), reducePCF reads and writes past the end of the
    arrays. *)
Theorem reducePCF_leaves_the_arrays (this : t) (i j k : Z) :
  well_sized this -> m_local_pcf_array this <> [] ->
  0 <= i < m_nbins_x this -> 0 <= j < m_nbins_y this ->
  0 <= k < m_nbins_y this ->
  bin_count this
  <= Index3D (m_nbins_x this) (m_nbins_y this) (m_nbins_T this) i j k ->
  reducePCF this = Undefined.
Proof.
  intros Hws Hne Hi Hj Hk Hout.
  destruct (well_sized_bytes this Hws) as [Hbytes Hpos].
  pose proof Hws as (Hx & Hy & HT & Hfit & Hlen & Hlocals).
  unfold reducePCF. rewrite Hbytes, (memset0_whole _ _ Hpos Hlen).
  rewrite CombinePCFXYTM2D_call_flat.
  set (m := Z.to_nat (Index3D (m_nbins_x this) (m_nbins_y this)
                              (m_nbins_T this) i j k)).
  assert (Hm : m ∈ visited (m_nbins_x this) (m_nbins_y this) (m_nbins_T this)
                           0 (Z.to_nat (m_nbins_x this))).
  { apply (elem_of_visited this 0 _ m Hws (Nat.le_refl _)).
    exists i, j, k. repeat split; lia. }
  apply list_elem_of_split in Hm as (l1 & l2 & ->).
  rewrite foldl_app. cbn [foldl].
  rewrite foldl_combine_local_outside; [ now rewrite fold_none_combine | exact Hne | ].
  intros p Hacc. apply foldl_combine_length in Hacc.
  rewrite repeat_length in Hacc.
  apply lookup_ge_None_2. unfold m. lia.
Qed.

End PMFTReductionBounds.

Section PMFTConstructionExamples.
Import PMFTXYTM2D.

Lemma two_three_two_well_sized : well_sized two_three_two.
Proof.
  unfold well_sized, bin_count. cbn.
  repeat split; try lia. repeat constructor.
Qed.

Lemma reducePCF_leaves_the_arrays_witness :
  reducePCF (indexer := row_major) two_three_two = Undefined.
Proof.
  apply (reducePCF_leaves_the_arrays (indexer := row_major) two_three_two 0 0 2
           two_three_two_well_sized).
  - discriminate.
  - cbn. lia.
  - cbn. lia.
  - cbn. lia.
  - vm_compute. discriminate.
Defined.

Lemma PMFTXYTM2D_returns_iff_allocation_cleared_witness :
  PMFTXYTM2D Float32.one Float32.one Float32.one 65536 32768 2 Float32.one
  = Undefined.
Proof.
  apply (PMFTXYTM2D_returns_iff_allocation_cleared
           Float32.one Float32.one Float32.one 65536 32768 2 Float32.one).
  vm_compute. reflexivity.
Defined.

Lemma PMFTXYTM2D_returns_well_sized_witness :
  well_sized two_two_three
  /\ m_nbins_x two_two_three = 2 /\ m_nbins_y two_two_three = 2
  /\ m_nbins_T two_two_three = 3
  /\ m_pcf_array two_two_three = repeat 0 (Z.to_nat (2 * 2 * 3))
  /\ m_local_pcf_array two_two_three = []
  /\ length (m_x_array two_two_three) = Z.to_nat 2
  /\ length (m_y_array two_two_three) = Z.to_nat 2
  /\ length (m_T_array two_two_three) = Z.to_nat 3
  /\ m_max_x two_two_three = Float32.one
  /\ m_max_y two_two_three = Float32.one
  /\ m_max_T two_two_three = Float32.one.
Proof.
  apply (PMFTXYTM2D_returns_well_sized
           Float32.one Float32.one Float32.one 2 2 3 Float32.one two_two_three).
  - vm_compute. reflexivity.
  - lia.
Defined.

Lemma Steinhardt_accepts_nan_cutoff_witness :
  exists this,
    Steinhardt.Steinhardt S754_nan 6 Float32.zero false false false
    = Returned this
    /\ Steinhardt.m_rmax this = S754_nan
    /\ Steinhardt.m_rmin this = Float32.zero.
Proof.
  apply (Steinhardt_accepts_nan_cutoff S754_nan 6 Float32.zero false false false).
  - left. reflexivity.
  - reflexivity.
  - reflexivity.
  - lia.
Defined.

Lemma PMFTXYTM2D_accepts_nan_maxima_witness :
  exists this,
    PMFTXYTM2D S754_nan S754_nan S754_nan 2 2 3 Float32.one = Returned this
    /\ m_dx this = S754_nan /\ m_dy this = S754_nan
    /\ m_lc_width this = S754_nan.
Proof.
  apply (PMFTXYTM2D_accepts_nan_maxima 2 2 3 Float32.one); lia.
Defined.

End PMFTConstructionExamples.

(** ** PMFTXYTM2D: the histogram does not depend on the schedule *)

Section PMFTSchedule.
Import PMFTXYTM2D.
Context {indexer : Indexer} {geometry : Geometry} {build : Build}.

Lemma pairs_app (ref_points : list vec3) (first mid last : nat) :
  (first <= mid <= last)%nat ->
  pairs ref_points first last
  = pairs ref_points first mid ++ pairs ref_points mid last.
Proof.
  intros H. unfold pairs.
  replace (last - first)%nat with ((mid - first) + (last - mid))%nat by lia.
  rewrite seq_app, bind_app.
  replace (first + (mid - first))%nat with mid by lia. reflexivity.
Qed.

Lemma chain_le (tasks : list (nat * nat * nat)) (first last : nat) :
  chain tasks first last -> (first <= last)%nat.
Proof.
  revert first. induction tasks as [ | task rest IH]; intros first; cbn.
  - lia.
  - intros (_ & Hle & Hrest). apply IH in Hrest. lia.
Qed.

(** The sub-ranges of a chain visit the pairs of the whole range. *)
Lemma task_pairs_chain (ref_points : list vec3)
      (tasks : list (nat * nat * nat)) (first last : nat) :
  chain tasks first last ->
  task_pairs ref_points tasks = pairs ref_points first last.
Proof.
  unfold task_pairs. revert first.
  induction tasks as [ | task rest IH]; intros first; cbn [chain].
  - intros ->. unfold pairs. now rewrite Nat.sub_diag.
  - intros (Hfirst & Hle & Hrest). rewrite bind_cons, (IH _ Hrest), Hfirst.
    symmetry. apply pairs_app. split; [ exact Hle | ].
    now apply chain_le in Hrest.
Qed.

Lemma chain_Forall (tasks : list (nat * nat * nat)) (first last : nat) :
  chain tasks first last ->
  Forall (fun task => (snd task <= last)%nat) tasks.
Proof.
  revert first. induction tasks as [ | task rest IH]; intros first; cbn [chain].
  - constructor.
  - intros (_ & _ & Hrest). constructor; [ | now apply (IH (snd task)) ].
    now apply chain_le in Hrest.
Qed.

(** X15: the histogram does not depend on how parallel_for cuts the
    reference points into sub-ranges, on the threads that run them, or on
    the order in which they run.  For sub-ranges that are, in some order,
    a chain from 0 to the number of reference points, accumulate followed
    by getPCF leaves in every bin what the sequential loop over all
    reference points on one thread leaves there. *)
Theorem accumulate_schedule_independent
        (this : t) (owners : list nat)
        (ref_points : list vec3) (ref_orientations : list float) (Nref : Z)
        (points : list vec3) (orientations : list float) (Np : Z)
        (tasks chained : list (nat * nat * nat)) (thread : nat) :
  well_sized this -> indexes_bins this ->
  m_nbins_y this <= m_nbins_T this ->
  length owners = length (m_local_pcf_array this) ->
  0 < Nref -> 0 < Np ->
  (Z.to_nat Nref <= length ref_points)%nat ->
  length ref_orientations = length ref_points ->
  (Z.to_nat Np <= length points)%nat ->
  length orientations = length points ->
  (forall cell j, j ∈ itercell cell -> (j < Z.to_nat Np)%nat) ->
  tasks ≡ₚ chained -> chain chained 0 (Z.to_nat Nref) ->
  exists this1 owners1 pcf this2 this1' owners1' pcf' this2',
    accumulate this owners (Some ref_points) ref_orientations Nref
               (Some points) orientations Np tasks
    = Returned (this1, owners1)
    /\ getPCF this1 = Returned (pcf, this2)
    /\ accumulate this owners (Some ref_points) ref_orientations Nref
                  (Some points) orientations Np
                  [(thread, 0%nat, Z.to_nat Nref)]
       = Returned (this1', owners1')
    /\ getPCF this1' = Returned (pcf', this2')
    /\ forall i j k,
         0 <= i < m_nbins_x this -> 0 <= j < m_nbins_y this ->
         0 <= k < m_nbins_T this ->
         bin this pcf i j k = bin this pcf' i j k.
Proof.
  intros Hws Hidx Hyt Howners HNref HNp Hrp Hro Hpp Ho Hcells Hperm Hchain.
  pose proof Hws as (Hx & Hy & HT & Hfit & Hlen & Hlocals).
  assert (Htasks : Forall (fun task => (snd task <= Z.to_nat Nref)%nat) tasks).
  { rewrite Hperm. now apply (chain_Forall chained 0). }
  assert (Hone : Forall (fun task => (snd task <= Z.to_nat Nref)%nat)
                        [(thread, 0%nat, Z.to_nat Nref)])
    by (repeat constructor).
  destruct (accumulate_counts this owners 0 0 0 ref_points ref_orientations
              Nref points orientations Np tasks Hws Hidx Howners
              ltac:(lia) ltac:(lia) ltac:(lia)
              HNref HNp Hrp Hro Hpp Ho Hcells Htasks)
    as (locals & owners1 & Hacc & Hall & _).
  destruct (accumulate_counts this owners 0 0 0 ref_points ref_orientations
              Nref points orientations Np [(thread, 0%nat, Z.to_nat Nref)]
              Hws Hidx Howners ltac:(lia) ltac:(lia) ltac:(lia)
              HNref HNp Hrp Hro Hpp Ho Hcells Hone)
    as (locals' & owners1' & Hacc' & Hall' & _).
  assert (Hws1 : well_sized (with_local_pcf_array locals this))
    by (repeat split; assumption).
  assert (Hws1' : well_sized (with_local_pcf_array locals' this))
    by (repeat split; assumption).
  destruct (reducePCF_bins (with_local_pcf_array locals this) Hws1 Hidx Hyt)
    as (this2 & Hred & _ & _ & Hbins).
  destruct (reducePCF_bins (with_local_pcf_array locals' this) Hws1' Hidx Hyt)
    as (this2' & Hred' & _ & _ & Hbins').
  exists (with_local_pcf_array locals this), owners1, (m_pcf_array this2), this2,
         (with_local_pcf_array locals' this), owners1', (m_pcf_array this2'),
         this2'.
  split; [ exact Hacc | ].
  split; [ unfold getPCF; now rewrite Hred | ].
  split; [ exact Hacc' | ].
  split; [ unfold getPCF; now rewrite Hred' | ].
  intros i j k Hi Hj Hk.
  pose proof (Hbins i j k Hi Hj Hk) as Hbin.
  pose proof (Hbins' i j k Hi Hj Hk) as Hbin'.
  unfold bin in *.
  cbn [m_nbins_x m_nbins_y m_nbins_T m_local_pcf_array with_local_pcf_array]
    in Hbin, Hbin'.
  rewrite Hbin, Hbin'. f_equal.
  destruct (Z.ltb_spec k (m_nbins_y this)) as [Hk' | Hk']; [ | reflexivity ].
  destruct (accumulate_counts this owners i j k ref_points ref_orientations
              Nref points orientations Np tasks Hws Hidx Howners Hi Hj Hk
              HNref HNp Hrp Hro Hpp Ho Hcells Htasks)
    as (l1 & o1 & Hacc1 & _ & Hcount).
  destruct (accumulate_counts this owners i j k ref_points ref_orientations
              Nref points orientations Np [(thread, 0%nat, Z.to_nat Nref)]
              Hws Hidx Howners Hi Hj Hk
              HNref HNp Hrp Hro Hpp Ho Hcells Hone)
    as (l1' & o1' & Hacc1' & _ & Hcount').
  rewrite Hacc in Hacc1. injection Hacc1 as <- <-.
  rewrite Hacc' in Hacc1'. injection Hacc1' as <- <-.
  rewrite Hcount, Hcount'. do 2 f_equal.
  unfold pair_count. f_equal.
  apply Permutation_length. apply filter_Permutation.
  unfold task_pairs at 1. rewrite Hperm.
  fold (task_pairs ref_points chained).
  rewrite (task_pairs_chain ref_points chained 0 _ Hchain).
  unfold task_pairs. rewrite bind_cons. cbn [fst snd].
  now rewrite app_nil_r.
Qed.

End PMFTSchedule.

Section PMFTScheduleExamples.
Import PMFTXYTM2D.

Lemma accumulate_schedule_independent_witness :
  exists this1 owners1 pcf this2 this1' owners1' pcf' this2',
    accumulate (indexer := row_major) (geometry := example_geometry)
               (build := debug_build)
               two_two_three [] (Some example_points) example_orientations 2
               (Some example_points) example_orientations 2
               [(1, 1, 2); (0, 0, 1)]%nat
    = Returned (this1, owners1)
    /\ getPCF (indexer := row_major) this1 = Returned (pcf, this2)
    /\ accumulate (indexer := row_major) (geometry := example_geometry)
                  (build := debug_build)
                  two_two_three [] (Some example_points) example_orientations
                  2 (Some example_points) example_orientations 2
                  [(0%nat, 0%nat, Z.to_nat 2)]
       = Returned (this1', owners1')
    /\ getPCF (indexer := row_major) this1' = Returned (pcf', this2')
    /\ forall i j k,
         0 <= i < m_nbins_x two_two_three ->
         0 <= j < m_nbins_y two_two_three ->
         0 <= k < m_nbins_T two_two_three ->
         bin (indexer := row_major) two_two_three pcf i j k
         = bin (indexer := row_major) two_two_three pcf' i j k.
Proof.
  apply (accumulate_schedule_independent
           (indexer := row_major) (geometry := example_geometry)
           (build := debug_build)
           two_two_three [] example_points example_orientations 2
           example_points example_orientations 2
           [(1, 1, 2); (0, 0, 1)]%nat example_tasks 0%nat
           two_two_three_well_sized
           (row_major_indexes_bins two_two_three two_two_three_well_sized)).
  - cbn. lia.
  - reflexivity.
  - lia.
  - lia.
  - cbn. lia.
  - reflexivity.
  - cbn. lia.
  - reflexivity.
  - exact example_geometry_cells.
  - apply perm_swap.
  - cbn. repeat split; lia.
Defined.

End PMFTScheduleExamples.
